(** * freq_pmem_cpp: a persistent word-frequency table

    Shallow embedding of [freq_pmem_cpp.cpp] (the reader/writer-lock version
    of the file): the hash function, the chained hash table living in a
    persistent-memory pool, the tokenizer of [count_all_words] and the
    driver [main]. *)

From Stdlib Require Import ZArith Lia.
From stdpp Require Import gmap strings list fin_maps option relations.

Open Scope Z_scope.

(** ** Machine integers *)

(** [unsigned] is 32 bits wide: every operation on it is taken modulo
    [2^32]. *)
Definition UINT_MOD : Z := 2 ^ 32.

(** The conversion [(unsigned)x] of a [char] or an [int]. *)
Definition to_unsigned (x : Z) : Z := x mod UINT_MOD.

(** [x << k] on [unsigned]. *)
Definition shl_u (x k : Z) : Z := (Z.shiftl x k) mod UINT_MOD.

(** [x + y] on [unsigned]. *)
Definition add_u (x y : Z) : Z := (x + y) mod UINT_MOD.

(** [int] is 32 bits wide and signed.  Overflow of [++] on it is undefined
    in the language; the model takes the two's complement result that the
    hardware produces. *)
Definition INT_MAX : Z := 2 ^ 31 - 1.
Definition INT_MIN : Z := - 2 ^ 31.
Definition wrap_int (x : Z) : Z := (x + 2 ^ 31) mod 2 ^ 32 - 2 ^ 31.

(** The conversion of an [int] to [char] done when [c] is stored through
    [ptr] (a signed 8-bit [char]). *)
Definition to_char (x : Z) : Z := (x + 128) mod 256 - 128.

(** ** Constants of the program *)

Definition NBUCKETS : Z := 10007.
Definition MAXWORD : nat := Z.to_nat 8192.
Definition LAYOUT : string := "freq".

(** ** C strings

    A C string is modelled by the list of the [char]s that precede its
    terminating NUL.  [strcmp w1 w2 == 0] is equality of these lists. *)
Abbreviation cstring := (list Z).

Definition strcmp_eq (w1 w2 : cstring) : bool := bool_decide (w1 = w2).

(** [isalpha] in the "C" locale, the one in force since the program never
    calls [setlocale]: the ASCII letters. *)
Definition isalpha (c : Z) : bool :=
  (65 <=? c) && (c <=? 90) || (97 <=? c) && (c <=? 122).

(** ** The persistent pool: entries and buckets *)

(** A [persistent_ptr<entry>] is [None] when null, and a location of the
    pool otherwise. *)
Definition loc := nat.
Abbreviation ptr := (option loc).

(** [struct entry]; the mutex protects [count] and holds no data. *)
Record entry := Entry {
  next : ptr;
  word : cstring;
  count : Z
}.

(** The pool as [freq] sees it: the entries that have been allocated, and
    the array [bucket[NBUCKETS]] given by the head pointer [entries] of each
    bucket. *)
Record table := Table {
  heap : gmap loc entry;
  ht : list ptr
}.

(** [make_persistent<entry>] returns a location that is not in use. *)
Definition alloc (h : gmap loc entry) : loc := fresh (dom h).

(** [make_persistent<buckets>()]: every head pointer is null. *)
Definition empty_table : table :=
  Table ∅ (replicate (Z.to_nat NBUCKETS) None).

(** [transaction::exec_tx(pop, body, locks...)]: the writes of [body] become
    visible together.  Without a crash the transaction commits, and the
    effect is that of [body], applied in one step. *)
Definition exec_tx {A : Type} (body : A → option A) (a : A) : option A := body a.

(** ** The stack buffer [char word[MAXWORD]] *)

(** A store of [c] at offset [p] of the buffer; a store outside the array
    is undefined ([None]). *)
Definition store (buf : list Z) (p : nat) (c : Z) : option (list Z) :=
  if decide (p < length buf)%nat then Some (<[p := to_char c]> buf) else None.

(** The C string that starts at the beginning of the buffer: the bytes
    before the first NUL, and [None] when the array holds no NUL (a reader
    would run off its end). *)
Fixpoint c_str (buf : list Z) : option cstring :=
  match buf with
  | [] => None
  | c :: r => if decide (c = 0) then Some [] else (c ::.) <$> c_str r
  end.

Module freq.

(** *** [freq::hash] *)

(** The [while] loop of [hash].  [prev] is the byte at [s - 1], [s] the bytes
    still to be read, [h] and [len] the two locals. *)
Fixpoint hash_loop (prev : Z) (s : cstring) (h len : Z) : Z * Z :=
  match s with
  | [] => (h, len)
  | c :: s' =>
      let len := add_u len 1 in
      let h := Z.lxor h (add_u (shl_u (to_unsigned c) (len mod 3))
                               (shl_u (to_unsigned prev) (len mod 3 + 7))) in
      hash_loop c s' h len
  end.

(** [hash] reads and skips the first byte before it tests for the
    terminator: on the empty string the loop would start behind the
    terminator, which is outside the string; the model gives [None] there. *)
Definition hash (s : cstring) : option Z :=
  match s with
  | [] => None
  | c :: s' =>
      let h := Z.lxor NBUCKETS (shl_u (to_unsigned c) 2) in
      let '(h, len) := hash_loop c s' h 0 in
      let h := Z.lxor h len in
      Some (h mod NBUCKETS)
  end.

(** *** [freq::count] *)

(** The [for] loop over the chain: [Some (Some l)] when the entry at [l]
    holds the word, [Some None] when the loop leaves with [ep == nullptr].
    The loop follows [next] pointers, so the model counts its iterations
    down from [fuel]; [None] is a loop that did not end within [fuel]
    iterations, or one that followed a pointer to no entry. *)
Fixpoint scan (fuel : nat) (h : gmap loc entry) (w : cstring) (ep : ptr)
  : option ptr :=
  match ep with
  | None => Some None
  | Some l =>
      match fuel with
      | O => None
      | S fuel =>
          e ← h !! l;
          if strcmp_eq w (word e) then Some (Some l)
          else scan fuel h w (next e)
      end
  end.

(** The body of the first transaction: [++ep->count]. *)
Definition bump (l : loc) (t : table) : option table :=
  e ← heap t !! l;
  Some (Table (<[l := Entry (next e) (word e) (wrap_int (count e + 1))]> (heap t))
              (ht t)).

(** The body of the second transaction: a new [entry(1, word,
    ht[h].entries)], then [ht[h].entries = ep]. *)
Definition insert_front (w : cstring) (h : Z) (t : table) : option table :=
  head ← ht t !! Z.to_nat h;
  let ep := alloc (heap t) in
  Some (Table (<[ep := Entry head w 1]> (heap t))
              (<[Z.to_nat h := Some ep]> (ht t))).

(** [count(word)].  The locks order concurrent callers and change no data;
    this is the function as one caller runs it. *)
Definition count (w : cstring) (t : table) : option table :=
  h ← hash w;
  head ← ht t !! Z.to_nat h;
  ep ← scan (size (heap t)) (heap t) w head;
  match ep with
  | Some l => exec_tx (bump l) t
  | None => exec_tx (insert_front w h) t
  end.

(** *** [freq::count_all_words] *)

Section tokenizer.
(** The loop is written over the callee: [cnt] is [count] in the program,
    and a recorder of the words where the words themselves are wanted. *)
Context {T : Type} (cnt : cstring → T → option T).

(** The locals of the loop: the buffer [word], the offset of [ptr] in it
    ([None] for [ptr == NULL]) and the table. *)
Definition locals : Type := list Z * option nat * T.

(** Store the terminator through [ptr], then [count(word)]. *)
Definition store_word (buf : list Z) (p : nat) (t : T) : option (list Z * T) :=
  buf' ← store buf p 0;
  w ← c_str buf';
  t' ← cnt w t;
  Some (buf', t').

(** One iteration of [while ((c = getc(fp)) != EOF)]. *)
Definition loop_body (st : locals) (c : Z) : option locals :=
  let '(buf, ptr, t) := st in
  if isalpha c then
    match ptr with
    | None =>
        buf' ← store buf 0 c; Some (buf', Some 1%nat, t)
    | Some p =>
        if decide (p < MAXWORD - 1)%nat then
          buf' ← store buf p c; Some (buf', Some (S p), t)
        else
          '(buf', t') ← store_word buf p t; Some (buf', None, t')
    end
  else
    match ptr with
    | Some p => '(buf', t') ← store_word buf p t; Some (buf', None, t')
    | None => Some st
    end.

Fixpoint read_loop (st : locals) (s : list Z) : option locals :=
  match s with
  | [] => Some st
  | c :: s' => st' ← loop_body st c; read_loop st' s'
  end.

(** The function from the opened stream on: [word0] is the content of the
    uninitialised array, [s] the bytes that [getc] returns before [EOF]. *)
Definition count_stream (word0 : list Z) (s : list Z) (t : T) : option T :=
  '(buf, ptr, t') ← read_loop (word0, None, t) s;
  match ptr with
  | Some p => snd <$> store_word buf p t'
  | None => Some t'
  end.
End tokenizer.

(** What a call of a function of the program does: it returns, it throws
    [std::runtime_error], or its behaviour is undefined. *)
Inductive outcome (A : Type) : Type :=
  | Returns (a : A)
  | Throws (what : string)
  | Undefined.
Arguments Returns {A} a.
Arguments Throws {A} what.
Arguments Undefined {A}.

(** [count_all_words(fname)]: [files] gives the bytes of the files that
    [fopen] can open. *)
Definition count_all_words (files : string → option (list Z)) (word0 : list Z)
    (fname : string) (t : table) : outcome table :=
  match files fname with
  | None => Throws ("fopen: " +:+ fname)
  | Some s =>
      match count_stream count word0 s t with
      | Some t' => Returns t'
      | None => Undefined
      end
  end.

(** The words that [count_all_words] passes to [count], in order. *)
Definition tokens (word0 : list Z) (s : list Z) : option (list cstring) :=
  count_stream (λ w acc, Some (acc ++ [w])) word0 s [].

End freq.

(** ** A call of [count] among other threads

    The file holds two versions of [count].  The first takes the mutex of
    the bucket, [std::unique_lock<nvobj::mutex> lock(ht[h].mtx)], and keeps
    it until the call returns.  The second takes the lock of the bucket
    shared for the scan, gives it back, and takes it exclusively only for
    the transaction that links a new entry.  In both, the transaction that
    adds one to a count holds the mutex of the entry. *)

(** Where a thread stands in its call [count(w)]: called; holding the lock
    of bucket [h]; having left the scan with [ep], the lock still held;
    having given the shared lock back (second version); having committed
    its transaction, the mutex still held (first version); returned. *)
Inductive call :=
  | Called (w : cstring)
  | Holding (w : cstring) (h : Z)
  | Scanned (w : cstring) (h : Z) (ep : ptr)
  | Released (w : cstring) (h : Z) (ep : ptr)
  | Committed (w : cstring) (h : Z)
  | Returned (w : cstring).

Definition call_word (c : call) : cstring :=
  match c with
  | Called w | Holding w _ | Scanned w _ _ | Released w _ _
  | Committed w _ | Returned w => w
  end.

(** The thread holds the lock of bucket [h]. *)
Definition holds (h : Z) (c : call) : Prop :=
  match c with
  | Holding _ h' | Scanned _ h' _ | Committed _ h' => h' = h
  | Called _ | Released _ _ _ | Returned _ => False
  end.

(** The transaction of the thread has committed. *)
Definition committed (c : call) : bool :=
  match c with
  | Committed _ _ | Returned _ => true
  | _ => false
  end.

(** ** [main] and its worker threads *)

(** The root object of a pool: the entries of the pool and [q->ht], null
    until the buckets have been allocated. *)
Record root := Root {
  root_heap : gmap loc entry;
  root_ht : option (list ptr)
}.

(** What the program finds outside itself: [pool_at path layout] is the root
    of the pool that [pool<root>::open(path, layout)] opens ([None] when
    [open] throws), and [files] the input files that [fopen] can open. *)
Record world := World {
  pool_at : string → string → option root;
  files : string → option (list Z)
}.

(** What the process has done that can be seen from outside. *)
Inductive event :=
  | Stderr (msg : string)
  | PoolOpen (path layout : string)
  | PoolClose.

(** A thread made by [threads.emplace_back(&freq::count_all_words, ...)]:
    it has not called [fopen] yet; or it is in the loop, inside the call of
    [count] at [c] if there is one, with the words [ws] still to pass to
    [count]; or it has returned. *)
Inductive worker :=
  | Spawned (fname : string)
  | Counting (c : option call) (ws : list cstring)
  | Joinable.

(** The thread is inside a call that holds the lock of bucket [h]. *)
Definition worker_holds (h : Z) (th : worker) : Prop :=
  match th with
  | Counting (Some c) _ => holds h c
  | Counting None _ | Spawned _ | Joinable => False
  end.

(** The process: running its threads over the table, gone through
    [exit(code)], or ended by [std::terminate] (an exception that no
    handler caught: the program has no [try] block, and an exception that
    leaves the function of a [std::thread], or [main], ends the process
    through [std::terminate] and [abort]). *)
Inductive process :=
  | Running (tr : list event) (t : table) (ths : list worker)
  | Exited (tr : list event) (code : Z) (pool : option table)
  | Terminated (tr : list event) (pool : option table).

Definition usage (prog : string) : string :=
  "usage: " +:+ prog +:+ " pmemfile wordfiles..." +:+ String (Ascii.ascii_of_nat 10) "".

(** [main] up to the creation of the threads; [argv] is [prog :: operands]
    and [argc] its length. *)
Definition main_start (w : world) (prog : string) (operands : list string)
  : process :=
  let argc := Z.of_nat (length (prog :: operands)) in
  if decide (argc < 3) then Exited [Stderr (usage prog)] 1 None
  else
    let path := default "" (operands !! 0%nat) in
    match pool_at w path LAYOUT with
    | None => Terminated [PoolOpen path LAYOUT] None
    | Some q =>
        let ht :=
          match root_ht q with
          | None => replicate (Z.to_nat NBUCKETS) None
          | Some ht => ht
          end in
        Running [PoolOpen path LAYOUT] (Table (root_heap q) ht)
                (Spawned <$> drop 1 operands)
    end.

(** One step of a thread inside [count], in the version that [main] is
    linked with here (the second one): the shared lock of the bucket is
    taken, the chain is scanned, the lock is given back, and the
    transaction runs, under the mutex of the entry to add one to a count,
    under the exclusive lock of the bucket to link a new entry.  [readers h]
    tells that some thread holds the lock of bucket [h] shared, so that the
    exclusive lock has to wait. *)
Inductive call_step (readers : Z → Prop) : table * call → table * call → Prop :=
  | call_lock_shared t w h :
      freq.hash w = Some h →
      call_step readers (t, Called w) (t, Holding w h)
  | call_scan t w h head ep :
      ht t !! Z.to_nat h = Some head →
      freq.scan (size (heap t)) (heap t) w head = Some ep →
      call_step readers (t, Holding w h) (t, Scanned w h ep)
  | call_unlock_shared t w h ep :
      call_step readers (t, Scanned w h ep) (t, Released w h ep)
  | call_bump t w h l t' :
      exec_tx (freq.bump l) t = Some t' →
      call_step readers (t, Released w h (Some l)) (t', Returned w)
  | call_insert t w h t' :
      ¬ readers h →
      exec_tx (freq.insert_front w h) t = Some t' →
      call_step readers (t, Released w h None) (t', Returned w).

(** The steps of the process: the steps of its threads, in every possible
    order.  A thread opens its file, or fails to; in the loop it calls
    [count] on the next word, takes a step inside the call, comes back from
    it, and returns when no word is left; [main] closes the pool and
    leaves when every thread can be joined. *)
Inductive step (w : world) : process → process → Prop :=
  | step_fopen tr t ths i fname s word0 ws :
      ths !! i = Some (Spawned fname) →
      files w fname = Some s →
      length word0 = MAXWORD →
      freq.tokens word0 s = Some ws →
      step w (Running tr t ths) (Running tr t (<[i := Counting None ws]> ths))
  | step_fopen_fails tr t ths i fname :
      ths !! i = Some (Spawned fname) →
      files w fname = None →
      step w (Running tr t ths) (Terminated tr (Some t))
  | step_call tr t ths i x ws :
      ths !! i = Some (Counting None (x :: ws)) →
      step w (Running tr t ths)
             (Running tr t (<[i := Counting (Some (Called x)) ws]> ths))
  | step_count tr t ths i c ws c' t' :
      ths !! i = Some (Counting (Some c) ws) →
      call_step (λ h, Exists (worker_holds h) ths) (t, c) (t', c') →
      step w (Running tr t ths)
             (Running tr t' (<[i := Counting (Some c') ws]> ths))
  | step_counted tr t ths i x ws :
      ths !! i = Some (Counting (Some (Returned x)) ws) →
      step w (Running tr t ths) (Running tr t (<[i := Counting None ws]> ths))
  | step_return tr t ths i :
      ths !! i = Some (Counting None []) →
      step w (Running tr t ths) (Running tr t (<[i := Joinable]> ths))
  | step_exit tr t ths :
      Forall (λ th, th = Joinable) ths →
      step w (Running tr t ths) (Exited (tr ++ [PoolClose]) 0 (Some t)).

Definition final (w : world) (p : process) : Prop := ∀ p', ¬ step w p p'.

Definition pool_of (p : process) : option table :=
  match p with
  | Running _ t _ => Some t
  | Exited _ _ pool | Terminated _ pool => pool
  end.

Definition trace_of (p : process) : list event :=
  match p with
  | Running tr _ _ | Exited tr _ _ | Terminated tr _ => tr
  end.

(** The process ended and did not report success: a non-zero [exit], or
    [abort]. *)
Definition failed (p : process) : Prop :=
  match p with
  | Running _ _ _ => False
  | Exited _ code _ => code ≠ 0
  | Terminated _ _ => True
  end.

(** ** Notions used to state the properties *)

(** The bytes of a text. *)
Definition bytes (s : string) : list Z :=
  (λ a, Z.of_N (Ascii.N_of_ascii a)) <$> String.list_ascii_of_string s.

(** [cnt] applied to the words of a list, in order. *)
Fixpoint count_each {T : Type} (cnt : cstring → T → option T)
    (ws : list cstring) (t : T) : option T :=
  match ws with
  | [] => Some t
  | w :: ws' => t' ← cnt w t; count_each cnt ws' t'
  end.

(** The loop of [count_all_words] on the word in progress alone: [cur] is
    the content of the buffer before [ptr] ([None] when [ptr] is null). *)
Fixpoint split_words (cur : option cstring) (s : list Z) : list cstring :=
  match s with
  | [] => match cur with Some w => [w] | None => [] end
  | c :: s' =>
      if isalpha c then
        match cur with
        | None => split_words (Some [c]) s'
        | Some w =>
            if decide (length w < MAXWORD - 1)%nat
            then split_words (Some (w ++ [c])) s'
            else w :: split_words None s'
        end
      else
        match cur with
        | Some w => w :: split_words None s'
        | None => split_words None s'
        end
  end.

Definition alphabetic (w : list Z) : Prop := Forall (λ c, isalpha c = true) w.
Definition separators (w : list Z) : Prop := Forall (λ c, isalpha c = false) w.

(** The maximal runs of alphabetic bytes of a stream, in stream order: the
    stream is separators, then a run that the end of the stream or a
    separator follows, then the rest in the same way. *)
Inductive alpha_runs : list Z → list (list Z) → Prop :=
  | runs_end sep : separators sep → alpha_runs sep []
  | runs_word sep w rest ws :
      separators sep →
      w ≠ [] → alphabetic w →
      (∀ c, head rest = Some c → isalpha c = false) →
      alpha_runs rest ws →
      alpha_runs (sep ++ w ++ rest) (w :: ws).

(** The reference mixing of the specification, on unbounded integers: the
    seed, one term for each position [p] from the second byte on, the
    number [final] mixed in after the scan, the reduction. *)
Definition mix_term (w : list Z) (p : nat) : Z :=
  Z.shiftl (nth p w 0) (Z.of_nat p mod 3)
  + Z.shiftl (nth (p - 1) w 0) (Z.of_nat p mod 3 + 7).

Definition reference_mix (final : Z) (w : list Z) : Z :=
  let seed := Z.lxor NBUCKETS (Z.shiftl (nth 0 w 0) 2) in
  let acc := foldl (λ acc p, Z.lxor acc (mix_term w p)) seed
                   (seq 1 (length w - 1)) in
  Z.lxor acc final mod NBUCKETS.

(** The reference with the total length of the word mixed in, as the
    specification words it. *)
Definition spec_hash (w : list Z) : Z := reference_mix (Z.of_nat (length w)) w.

(** The reference with the number of bytes after the first mixed in. *)
Definition spec_hash_scanned (w : list Z) : Z :=
  reference_mix (Z.of_nat (length w) - 1) w.

(** The reference with the conversions of the code written out: every byte
    is a [char], converted by [(unsigned)], which extends the sign of the
    bytes from 0x80 on; shifts, sums and the count of the bytes are taken
    modulo [2^32]; the number of bytes after the first is mixed in. *)
Definition mix_term_u (w : list Z) (p : nat) : Z :=
  let k := (Z.of_nat p mod UINT_MOD) mod 3 in
  add_u (shl_u (to_unsigned (nth p w 0)) k)
        (shl_u (to_unsigned (nth (p - 1) w 0)) (k + 7)).

Definition hash_reference (w : list Z) : Z :=
  let seed := Z.lxor NBUCKETS (shl_u (to_unsigned (nth 0 w 0)) 2) in
  let acc := foldl (λ acc p, Z.lxor acc (mix_term_u w p)) seed
                   (seq 1 (length w - 1)) in
  Z.lxor acc ((Z.of_nat (length w) - 1) mod UINT_MOD) mod NBUCKETS.

(** The value of a [char] as a byte, in 0..255. *)
Definition byte_of_char (c : Z) : Z := c mod 256.

(** The chain of a bucket: the locations met from a head pointer along the
    [next] pointers, up to the null pointer. *)
Inductive chain (h : gmap loc entry) : ptr → list loc → Prop :=
  | chain_null : chain h None []
  | chain_entry l e ls :
      h !! l = Some e → chain h (next e) ls → chain h (Some l) (l :: ls).

(** Bucket [b] of the table holds the chain [ls]. *)
Definition bucket_chain (t : table) (b : nat) (ls : list loc) : Prop :=
  ∃ head, ht t !! b = Some head ∧ chain (heap t) head ls.

(** A table as the program builds it: [NBUCKETS] buckets, each the head of
    a chain that ends, and counts that are values of [int]. *)
Record wf_table (t : table) : Prop := {
  wf_buckets : length (ht t) = Z.to_nat NBUCKETS;
  wf_chains : ∀ b head, ht t !! b = Some head → ∃ ls, chain (heap t) head ls;
  wf_counts : ∀ l e, heap t !! l = Some e → INT_MIN ≤ count e ≤ INT_MAX
}.

(** The entry that the scan of [count] stops at, when called with [w]. *)
Definition matched (w : cstring) (t : table) : option ptr :=
  h ← freq.hash w;
  head ← ht t !! Z.to_nat h;
  freq.scan (size (heap t)) (heap t) w head.

(** The count of a word in the table, zero for a word that is absent. *)
Definition word_total (w : cstring) (t : table) : option Z :=
  ep ← matched w t;
  match ep with
  | Some l => count <$> heap t !! l
  | None => Some 0
  end.

(** The result of the scan of a chain [ls] for [w]: the first entry of the
    chain that holds [w], or null when no entry of the chain does. *)
Definition first_match (h : gmap loc entry) (w : cstring) (ls : list loc)
    (r : ptr) : Prop :=
  match r with
  | Some l =>
      ∃ ls1 ls2 e, ls = ls1 ++ l :: ls2 ∧ h !! l = Some e ∧ word e = w ∧
        ∀ l' e', l' ∈ ls1 → h !! l' = Some e' → word e' ≠ w
  | None => ∀ l' e', l' ∈ ls → h !! l' = Some e' → word e' ≠ w
  end.

(** A table whose only entry, for the word [a], has been counted
    [INT_MAX] times. *)
Definition saturated_table : table :=
  Table {[ 0%nat := Entry None [97] INT_MAX ]}
        (<[ Z.to_nat 9875 := Some 0%nat ]> (replicate (Z.to_nat NBUCKETS) None)).

(** The buffer and [ptr] of the loop hold the word in progress [cur]: the
    bytes before [ptr] are the word, which is alphabetic and leaves room
    for the terminator. *)
Definition buffer_holds (buf : list Z) (p : option nat) (cur : option cstring)
  : Prop :=
  length buf = MAXWORD ∧
  match p, cur with
  | None, None => True
  | Some p, Some w =>
      p = length w ∧ take p buf = w ∧ alphabetic w ∧ (0 < p ≤ MAXWORD - 1)%nat
  | _, _ => False
  end.

(** A word that [count] can take from the loop: not empty, alphabetic, and
    short enough for the buffer and its terminator. *)
Definition token_ok (w : cstring) : Prop :=
  w ≠ [] ∧ (length w ≤ MAXWORD - 1)%nat ∧ alphabetic w.

(** The cut of a stream into [s1] and [s2] is not between two alphabetic
    bytes. *)
Definition clean_cut (s1 s2 : list Z) : Prop :=
  ∀ s1' a b s2', s1 = s1' ++ [a] → s2 = b :: s2' →
    isalpha a = false ∨ isalpha b = false.

(** Every word of every input that can be opened stands in the table. *)
Definition others_counted (w : world) (operands : list string) (t : table)
  : Prop :=
  ∀ f s word0 ws x,
    f ∈ drop 1 operands → files w f = Some s →
    length word0 = MAXWORD → freq.tokens word0 s = Some ws → x ∈ ws →
    ∃ c, word_total x t = Some c ∧ 1 ≤ c.

(** A world with a new pool at every path, and with the one input file
    [b.txt], which holds the word [x]. *)
Definition one_input_world : world :=
  World (λ _ _, Some (Root ∅ None))
        (λ f, if decide (f = "b.txt") then Some (bytes "x") else None).

(** Input files that hold their own name. *)
Definition name_files (f : string) : option (list Z) := Some (bytes f).

(** The process has a thread that has not yet called [fopen] on a file that
    cannot be opened, or it has ended and not through [exit(0)]. *)
Definition fopen_pending (w : world) (p : process) : Prop :=
  match p with
  | Running _ _ ths =>
      ∃ i fname, ths !! i = Some (Spawned fname) ∧ files w fname = None
  | Exited _ code _ => code ≠ 0
  | Terminated _ _ => True
  end.

(** ** Further notions *)

(** The number of times a word stands in a list of words. *)
Definition occurrences (x : cstring) (ws : list cstring) : Z :=
  Z.of_nat (length (filter (λ w, w = x) ws)).

(** The words held by the entries of a chain. *)
Definition chain_words (h : gmap loc entry) (ls : list loc)
  : list (option cstring) :=
  (λ l, word <$> h !! l) <$> ls.

(** Every entry stands in the bucket of the hash of its word, and no chain
    holds a word twice. *)
Record table_inv (t : table) : Prop := {
  inv_bucket : ∀ b ls l e,
    bucket_chain t b ls → l ∈ ls → heap t !! l = Some e →
    ∃ h, freq.hash (word e) = Some h ∧ Z.to_nat h = b;
  inv_unique : ∀ b ls, bucket_chain t b ls → NoDup (chain_words (heap t) ls)
}.

(** ** The steps of the two versions of [count] *)

(** The steps of the first version: the mutex of the bucket is taken when
    no thread holds it, and given back when the call returns. *)
Inductive mutex_step : table * list call → table * list call → Prop :=
  | mx_lock t cs i w h :
      cs !! i = Some (Called w) → freq.hash w = Some h →
      Forall (λ c, ¬ holds h c) cs →
      mutex_step (t, cs) (t, <[i := Holding w h]> cs)
  | mx_scan t cs i w h head ep :
      cs !! i = Some (Holding w h) → ht t !! Z.to_nat h = Some head →
      freq.scan (size (heap t)) (heap t) w head = Some ep →
      mutex_step (t, cs) (t, <[i := Scanned w h ep]> cs)
  | mx_bump t cs i w h l t' :
      cs !! i = Some (Scanned w h (Some l)) →
      exec_tx (freq.bump l) t = Some t' →
      mutex_step (t, cs) (t', <[i := Committed w h]> cs)
  | mx_insert t cs i w h t' :
      cs !! i = Some (Scanned w h None) →
      exec_tx (freq.insert_front w h) t = Some t' →
      mutex_step (t, cs) (t', <[i := Committed w h]> cs)
  | mx_return t cs i w h :
      cs !! i = Some (Committed w h) →
      mutex_step (t, cs) (t, <[i := Returned w]> cs).

(** The steps of the second version: the shared lock is given back before
    the transaction; the transaction that links a new entry takes the lock
    exclusively, so it waits until no thread holds it shared. *)
Inductive rwlock_step : table * list call → table * list call → Prop :=
  | rw_lock_shared t cs i w h :
      cs !! i = Some (Called w) → freq.hash w = Some h →
      rwlock_step (t, cs) (t, <[i := Holding w h]> cs)
  | rw_scan t cs i w h head ep :
      cs !! i = Some (Holding w h) → ht t !! Z.to_nat h = Some head →
      freq.scan (size (heap t)) (heap t) w head = Some ep →
      rwlock_step (t, cs) (t, <[i := Scanned w h ep]> cs)
  | rw_unlock_shared t cs i w h ep :
      cs !! i = Some (Scanned w h ep) →
      rwlock_step (t, cs) (t, <[i := Released w h ep]> cs)
  | rw_bump t cs i w h l t' :
      cs !! i = Some (Released w h (Some l)) →
      exec_tx (freq.bump l) t = Some t' →
      rwlock_step (t, cs) (t', <[i := Returned w]> cs)
  | rw_insert t cs i w h t' :
      cs !! i = Some (Released w h None) →
      Forall (λ c, ¬ holds h c) cs →
      exec_tx (freq.insert_front w h) t = Some t' →
      rwlock_step (t, cs) (t', <[i := Returned w]> cs).

(** The commit of [count] once the scan has left with [ep]. *)
Definition commit (w : cstring) (h : Z) (ep : ptr) (t : table) : option table :=
  match ep with
  | Some l => exec_tx (freq.bump l) t
  | None => exec_tx (freq.insert_front w h) t
  end.

(** The state of a thread that runs [count(w)] alone on the table [t]. *)
Definition call_alone (w : cstring) (t : table) (s : table * list call) : Prop :=
  match s with
  | (t', [Called w']) => w' = w ∧ t' = t
  | (t', [Holding w' h]) => w' = w ∧ t' = t ∧ freq.hash w = Some h
  | (t', [Scanned w' h ep]) | (t', [Released w' h ep]) =>
      w' = w ∧ t' = t ∧ freq.hash w = Some h ∧ matched w t = Some ep
  | (t', [Committed w' _]) | (t', [Returned w']) =>
      w' = w ∧ freq.count w t = Some t'
  | _ => False
  end.

(** The number of calls for the word [x] that have committed. *)
Definition committed_calls (x : cstring) (cs : list call) : Z :=
  occurrences x (call_word <$> filter (λ c, committed c = true) cs).

(** The thread holds the lock of some bucket. *)
Definition holding (c : call) : bool :=
  match c with
  | Holding _ _ | Scanned _ _ _ | Committed _ _ => true
  | Called _ | Released _ _ _ | Returned _ => false
  end.

(** The number of steps that a call, and a list of calls, can still take. *)
Definition call_steps_left (c : call) : nat :=
  match c with
  | Called _ => 4
  | Holding _ _ => 3
  | Scanned _ _ _ => 2
  | Released _ _ _ | Committed _ _ => 1
  | Returned _ => 0
  end.

Definition calls_left (s : table * list call) : nat :=
  sum_list (call_steps_left <$> s.2).

(** What holds of the threads of the first version that run the calls
    [count(w)] for the words [ws]: the words are those; the mutex of a
    bucket has one holder at most; the bucket of a thread is that of its
    word; and what a thread has found in its scan is what a scan of the
    table finds now. *)
Definition mutex_inv (ws : list cstring) (s : table * list call) : Prop :=
  call_word <$> s.2 = ws ∧
  (∀ i j ci cj h, s.2 !! i = Some ci → s.2 !! j = Some cj →
                  holds h ci → holds h cj → i = j) ∧
  (∀ i c, s.2 !! i = Some c →
     match c with
     | Holding w h | Committed w h => freq.hash w = Some h
     | Scanned w h ep => freq.hash w = Some h ∧ matched w s.1 = Some ep
     | Released _ _ _ => False
     | Called _ | Returned _ => True
     end).

(** What holds of the threads of the second version while no entry is
    added to the table [t0] they started on: the words are those; the scans
    find what they found in [t0]; the heads and the set of entries are
    those of [t0]; and what a thread has found in its scan is what a scan
    of [t0] finds. *)
Definition rwlock_inv (ws : list cstring) (t0 : table)
    (s : table * list call) : Prop :=
  call_word <$> s.2 = ws ∧
  (∀ w, matched w s.1 = matched w t0) ∧
  ht s.1 = ht t0 ∧ dom (heap s.1) = dom (heap t0) ∧
  (∀ i c, s.2 !! i = Some c →
     match c with
     | Holding w h => freq.hash w = Some h
     | Scanned w h ep | Released w h ep =>
         freq.hash w = Some h ∧ matched w t0 = Some ep
     | Committed _ _ => False
     | Called _ | Returned _ => True
     end).

(** A table whose only entry, for the word [a], has been counted once. *)
Definition counted_once_table : table :=
  Table {[ 0%nat := Entry None [97] 1 ]}
        (<[ Z.to_nat 9875 := Some 0%nat ]> (replicate (Z.to_nat NBUCKETS) None)).


(** ** Runs of [main] in which every input opens *)

(** What holds of the call that a thread is in: the word is not empty, the
    bucket is that of the word, and the entry that the scan stopped at is
    an entry of the table. *)
Definition call_ok (t : table) (c : call) : Prop :=
  match c with
  | Called x => x ≠ []
  | Holding x h => freq.hash x = Some h
  | Scanned x h ep | Released x h ep =>
      freq.hash x = Some h ∧ ∀ l, ep = Some l → is_Some (heap t !! l)
  | Committed _ _ => False
  | Returned _ => True
  end.

(** A thread of a run in which every input opens: the file it has yet to
    open can be opened, and the words it has yet to count are not empty. *)
Definition thread_ok (w : world) (t : table) (th : worker) : Prop :=
  match th with
  | Spawned fname => is_Some (files w fname)
  | Counting c ws =>
      Forall (λ x, x ≠ []) ws ∧
      match c with Some c => call_ok t c | None => True end
  | Joinable => True
  end.

(** The states of a run on the pool at [path] in which every input opens. *)
Definition run_ok (w : world) (path : string) (p : process) : Prop :=
  match p with
  | Running tr t ths =>
      tr = [PoolOpen path LAYOUT] ∧ wf_table t ∧ Forall (thread_ok w t) ths
  | Exited tr code pool =>
      tr = [PoolOpen path LAYOUT; PoolClose] ∧ code = 0 ∧
      ∃ t, pool = Some t ∧ wf_table t
  | Terminated _ _ => False
  end.

(** The number of steps that a thread, and a process, can still take: six
    for each word to come (the call, the four steps inside it, the way
    back), and those left of the call it is in. *)
Definition steps_left_thread (w : world) (th : worker) : nat :=
  match th with
  | Spawned fname =>
      match files w fname with
      | Some s => 6 * length (split_words None s) + 2
      | None => 0
      end
  | Counting c ws =>
      6 * length ws + 1 +
      match c with Some c => call_steps_left c + 1 | None => 0 end
  | Joinable => 0
  end.

Definition steps_left (w : world) (p : process) : nat :=
  match p with
  | Running _ _ ths => S (sum_list (steps_left_thread w <$> ths))
  | Exited _ _ _ | Terminated _ _ => 0
  end.

(** The thread is inside a call that holds the lock of some bucket. *)
Definition worker_holding (th : worker) : bool :=
  match th with
  | Counting (Some c) _ => holding c
  | _ => false
  end.

(** * The hash function *)

Lemma to_unsigned_small x : 0 ≤ x < UINT_MOD → to_unsigned x = x.
Proof. intros H. unfold to_unsigned. by apply Z.mod_small. Qed.

Lemma shl_u_byte x k :
  0 ≤ x < 256 → 0 ≤ k ≤ 9 → shl_u x k = Z.shiftl x k ∧ 0 ≤ Z.shiftl x k < 2 ^ 17.
Proof.
  intros Hx Hk. unfold shl_u.
  assert (Hb : 0 ≤ Z.shiftl x k < 2 ^ 17).
  { rewrite Z.shiftl_mul_pow2 by lia.
    assert (0 < 2 ^ k ≤ 2 ^ 9) by (split; [lia | apply Z.pow_le_mono_r; lia]).
    change (2 ^ 17) with (256 * 2 ^ 9). nia. }
  split; [|done]. apply Z.mod_small. unfold UINT_MOD.
  change (2 ^ 32) with (2 ^ 17 * 2 ^ 15). lia.
Qed.

Lemma mod3_range x : 0 ≤ x mod 3 ≤ 2.
Proof. pose proof (Z.mod_pos_bound x 3). lia. Qed.

(** One term of the loop, when no operation wraps. *)
Lemma loop_term_exact c prev len :
  0 ≤ c < 256 → 0 ≤ prev < 256 →
  add_u (shl_u (to_unsigned c) (len mod 3)) (shl_u (to_unsigned prev) (len mod 3 + 7))
  = Z.shiftl c (len mod 3) + Z.shiftl prev (len mod 3 + 7).
Proof.
  intros Hc Hp. pose proof (mod3_range len) as Hm.
  rewrite !to_unsigned_small by (unfold UINT_MOD; lia).
  destruct (shl_u_byte c (len mod 3)) as [-> ?]; [lia..|].
  destruct (shl_u_byte prev (len mod 3 + 7)) as [-> ?]; [lia..|].
  unfold add_u, UINT_MOD. apply Z.mod_small.
  change (2 ^ 32) with (2 ^ 17 * 2 ^ 15). lia.
Qed.

Lemma hash_loop_mix w : ∀ (done s : list Z) h,
  w = done ++ s → done ≠ [] →
  Forall (λ b, 0 ≤ b < 256) w →
  Z.of_nat (length w) ≤ UINT_MOD →
  freq.hash_loop (List.last done 0) s h (Z.of_nat (length done) - 1)
  = (foldl (λ acc p, Z.lxor acc (mix_term w p)) h
       (seq (length done) (length s)),
     Z.of_nat (length w) - 1).
Proof.
  intros done s. revert done. induction s as [|c s IH]; intros done h Hw Hne Hb Hlen.
  - simpl. rewrite Hw, app_nil_r. done.
  - assert (Hlw : length w = (length done + S (length s))%nat)
      by (rewrite Hw, length_app; done).
    assert (Hdone : (0 < length done)%nat) by (destruct done; simpl; [done | lia]).
    cbn [freq.hash_loop].
    assert (Hadd : add_u (Z.of_nat (length done) - 1) 1 = Z.of_nat (length done)).
    { unfold add_u. rewrite Z.mod_small; lia. }
    rewrite Hadd.
    assert (Hcb : 0 ≤ c < 256).
    { rewrite List.Forall_forall in Hb. apply Hb. rewrite Hw. apply in_or_app. right. by left. }
    assert (Hpb : 0 ≤ List.last done 0 < 256).
    { rewrite List.Forall_forall in Hb. apply Hb. rewrite Hw. apply in_or_app. left.
      destruct (exists_last Hne) as (d & x & ->).
      rewrite last_last. apply in_or_app. right. by left. }
    rewrite loop_term_exact by done.
    specialize (IH (done ++ [c]) (Z.lxor h (Z.shiftl c (Z.of_nat (length done) mod 3)
                     + Z.shiftl (List.last done 0) (Z.of_nat (length done) mod 3 + 7)))).
    rewrite last_last, length_app in IH. simpl length in IH.
    replace (Z.of_nat (length done + 1) - 1) with (Z.of_nat (length done)) in IH by lia.
    rewrite IH; [| by rewrite <- app_assoc | by destruct done | done | done].
    f_equal. simpl seq. simpl foldl. 
    replace (length done + 1)%nat with (S (length done)) by lia.
    f_equal. f_equal. unfold mix_term. f_equal.
    + f_equal. rewrite Hw. rewrite app_nth2 by lia. by rewrite Nat.sub_diag.
    + f_equal. rewrite Hw. rewrite app_nth1 by lia.
      destruct (exists_last Hne) as (d & x & ->).
      rewrite last_last, length_app. simpl.
      replace (length d + 1 - 1)%nat with (length d) by lia.
      rewrite app_nth2 by lia. by rewrite Nat.sub_diag.
Qed.

Lemma hash_range w h : freq.hash w = Some h → 0 ≤ h < NBUCKETS.
Proof.
  destruct w as [|c s]; [done|]. unfold freq.hash.
  destruct (freq.hash_loop _ _ _ _) as [h' len]. intros [= <-].
  apply Z.mod_pos_bound. done.
Qed.

Lemma hash_nonempty w : w ≠ [] → is_Some (freq.hash w).
Proof.
  destruct w as [|c s]; [done|]. intros _. unfold freq.hash.
  destruct (freq.hash_loop _ _ _ _). eauto.
Qed.

Lemma hash_scanned w :
  w ≠ [] → Forall (λ b, 0 ≤ b < 256) w → Z.of_nat (length w) ≤ UINT_MOD →
  freq.hash w = Some (spec_hash_scanned w).
Proof.
  intros Hne Hb Hlen. destruct w as [|c s]; [done|].
  unfold freq.hash.
  assert (Hc : 0 ≤ c < 256) by (by inversion Hb).
  rewrite to_unsigned_small by (unfold UINT_MOD; lia).
  destruct (shl_u_byte c 2) as [-> _]; [lia..|].
  pose proof (hash_loop_mix (c :: s) [c] s (Z.lxor NBUCKETS (Z.shiftl c 2))
                eq_refl ltac:(done) Hb Hlen) as H.
  simpl List.last in H. simpl length in H. change (Z.of_nat 1 - 1) with 0 in H.
  rewrite H. unfold spec_hash_scanned, reference_mix. simpl length.
  replace (S (length s) - 1)%nat with (length s) by lia. done.
Qed.

Example hash_a : freq.hash [97] = Some 9875 ∧ spec_hash [97] = 9874.
Proof. split; reflexivity. Qed.

(** The loop of [hash] and the reference with the conversions of the code,
    on every word. *)
Lemma hash_loop_reference w : ∀ (done s : list Z) h,
  w = done ++ s → done ≠ [] →
  freq.hash_loop (List.last done 0) s h ((Z.of_nat (length done) - 1) mod UINT_MOD)
  = (foldl (λ acc p, Z.lxor acc (mix_term_u w p)) h
       (seq (length done) (length s)),
     (Z.of_nat (length w) - 1) mod UINT_MOD).
Proof.
  intros done s. revert done. induction s as [|c s IH]; intros done h Hw Hne.
  - simpl. rewrite Hw, app_nil_r. done.
  - assert (Hdone : (0 < length done)%nat) by (destruct done; simpl; [done | lia]).
    cbn [freq.hash_loop].
    assert (Hadd : add_u ((Z.of_nat (length done) - 1) mod UINT_MOD) 1
                   = Z.of_nat (length done) mod UINT_MOD).
    { unfold add_u. rewrite Z.add_mod_idemp_l by (unfold UINT_MOD; lia).
      f_equal. lia. }
    rewrite Hadd.
    specialize (IH (done ++ [c])
      (Z.lxor h (add_u (shl_u (to_unsigned c) (Z.of_nat (length done) mod UINT_MOD mod 3))
                       (shl_u (to_unsigned (List.last done 0))
                              (Z.of_nat (length done) mod UINT_MOD mod 3 + 7))))).
    rewrite last_last, length_app in IH. simpl length in IH.
    replace (Z.of_nat (length done + 1) - 1) with (Z.of_nat (length done)) in IH by lia.
    rewrite IH; [| by rewrite <- app_assoc | by destruct done].
    f_equal. simpl seq. simpl foldl.
    replace (length done + 1)%nat with (S (length done)) by lia.
    f_equal. f_equal. unfold mix_term_u. cbv zeta. f_equal.
    + do 2 f_equal. rewrite Hw. rewrite app_nth2 by lia. by rewrite Nat.sub_diag.
    + do 2 f_equal. rewrite Hw. rewrite app_nth1 by lia.
      destruct (exists_last Hne) as (d & x & ->).
      rewrite last_last, length_app. simpl.
      replace (length d + 1 - 1)%nat with (length d) by lia.
      rewrite app_nth2 by lia. by rewrite Nat.sub_diag.
Qed.

Lemma hash_is_reference w : w ≠ [] → freq.hash w = Some (hash_reference w).
Proof.
  intros Hne. destruct w as [|c s]; [done|]. unfold freq.hash.
  pose proof (hash_loop_reference (c :: s) [c] s
                (Z.lxor NBUCKETS (shl_u (to_unsigned c) 2)) eq_refl ltac:(done)) as H.
  simpl List.last in H. simpl length in H.
  change ((Z.of_nat 1 - 1) mod UINT_MOD) with 0 in H.
  rewrite H. unfold hash_reference. simpl length.
  replace (S (length s) - 1)%nat with (length s) by lia. done.
Qed.

(** * The tokenizer *)

Lemma MAXWORD_gt_1 : (1 < MAXWORD)%nat.
Proof. unfold MAXWORD. lia. Qed.

Lemma isalpha_char c : isalpha c = true → to_char c = c ∧ c ≠ 0 ∧ 0 ≤ c < 256.
Proof. unfold isalpha, to_char. intros H. split; [|lia]. rewrite Z.mod_small; lia. Qed.

Lemma alphabetic_snoc w c : alphabetic w → isalpha c = true → alphabetic (w ++ [c]).
Proof. intros Hw Hc. apply Forall_app. split; [done|]. by constructor. Qed.

Lemma c_str_terminated w r :
  Forall (λ c, c ≠ 0) w → c_str (w ++ 0 :: r) = Some w.
Proof.
  induction 1 as [|c w Hc _ IH]; cbn [app c_str].
  - by destruct (decide (0 = 0)).
  - destruct (decide (c = 0)); [done|]. by rewrite IH.
Qed.

Lemma alphabetic_nonzero w : alphabetic w → Forall (λ c, c ≠ 0) w.
Proof.
  intros H. eapply List.Forall_impl; [|exact H].
  intros c Hc. by apply isalpha_char in Hc as (_ & ? & _).
Qed.

Section tokenizer_facts.
Context {T : Type} (cnt : cstring → T → option T).

(** Storing the terminator behind the word in progress and passing the
    buffer to the callee passes that word. *)
Lemma store_word_holds buf p w t :
  buffer_holds buf (Some p) (Some w) →
  freq.store_word cnt buf p t = (λ t', (<[p := 0]> buf, t')) <$> cnt w t.
Proof.
  intros (Hlen & -> & Htake & Hal & Hp). pose proof MAXWORD_gt_1.
  unfold freq.store_word, store. rewrite decide_True by lia. simpl.
  change (to_char 0) with 0.
  rewrite insert_take_drop by lia. rewrite Htake.
  rewrite c_str_terminated by by apply alphabetic_nonzero.
  simpl. by destruct (cnt w t).
Qed.

Lemma read_loop_split s : ∀ buf p cur t,
  buffer_holds buf p cur →
  ('(buf', p', t') ← freq.read_loop cnt (buf, p, t) s;
   match p' with
   | Some q => snd <$> freq.store_word cnt buf' q t'
   | None => Some t'
   end)
  = count_each cnt (split_words cur s) t.
Proof.
  pose proof MAXWORD_gt_1 as HM.
  induction s as [|c s IH]; intros buf p cur t Hinv.
  - simpl. destruct p as [p|], cur as [w|]; try (by destruct Hinv as [_ []]).
    rewrite (store_word_holds _ _ w) by done. simpl. by destruct (cnt w t).
  - cbn [freq.read_loop split_words]. unfold freq.loop_body.
    destruct (isalpha c) eqn:Hc.
    + destruct (isalpha_char c Hc) as (Hch & Hnz & _).
      destruct p as [p|], cur as [w|]; try (by destruct Hinv as [_ []]).
      * destruct Hinv as (Hlen & -> & Htake & Hal & Hp).
        destruct (decide (length w < MAXWORD - 1)%nat) as [Hlt|Hge].
        -- unfold store. rewrite decide_True by lia. simpl. rewrite Hch.
           apply IH. split; [by rewrite length_insert|].
           split; [rewrite length_app; simpl; lia|].
           split; [|split; [by apply alphabetic_snoc | lia]].
           rewrite (take_S_r _ _ c) by (apply list_lookup_insert_eq; lia).
           by rewrite take_insert_ge, Htake by lia.
        -- rewrite (store_word_holds _ _ w) by done.
           simpl. destruct (cnt w t) as [t'|]; simpl; [|done].
           apply IH. split; [by rewrite length_insert | done].
      * destruct Hinv as [Hlen _]. unfold store.
        rewrite decide_True by lia. simpl. rewrite Hch.
        apply IH. split; [by rewrite length_insert|].
        split; [done|]. split; [|split; [by repeat constructor | lia]].
        destruct buf; [simpl in Hlen; lia | done].
    + destruct p as [p|], cur as [w|]; try (by destruct Hinv as [_ []]).
      * rewrite (store_word_holds _ _ w) by done.
        simpl. destruct (cnt w t) as [t'|]; simpl; [|done].
        apply IH. destruct Hinv as [Hlen _]. split; [by rewrite length_insert | done].
      * simpl. by apply IH.
Qed.

(** [count_all_words] calls the callee on the words of [split_words]. *)
Lemma count_stream_split word0 s t :
  length word0 = MAXWORD →
  freq.count_stream cnt word0 s t = count_each cnt (split_words None s) t.
Proof.
  intros Hlen. unfold freq.count_stream. by apply read_loop_split.
Qed.

Lemma count_each_app ws1 ws2 t :
  count_each cnt (ws1 ++ ws2) t = count_each cnt ws1 t ≫= count_each cnt ws2.
Proof.
  revert t. induction ws1 as [|w ws1 IH]; intros t; simpl; [done|].
  destruct (cnt w t); simpl; [apply IH | done].
Qed.
End tokenizer_facts.

Lemma record_each ws : ∀ acc : list cstring,
  count_each (λ w acc, Some (acc ++ [w])) ws acc = Some (acc ++ ws).
Proof.
  induction ws as [|w ws IH]; intros acc; simpl.
  - by rewrite app_nil_r.
  - rewrite IH. by rewrite <- app_assoc.
Qed.

Lemma tokens_split word0 s :
  length word0 = MAXWORD → freq.tokens word0 s = Some (split_words None s).
Proof.
  intros Hlen. unfold freq.tokens. rewrite count_stream_split by done.
  by rewrite record_each.
Qed.

(** ** The words of a stream *)

Lemma split_words_ok s : ∀ cur,
  (∀ w, cur = Some w → token_ok w) →
  Forall token_ok (split_words cur s).
Proof.
  pose proof MAXWORD_gt_1 as HM.
  induction s as [|c s IH]; intros cur Hcur; simpl.
  - destruct cur as [w|]; [|done]. constructor; [by apply Hcur | done].
  - destruct (isalpha c) eqn:Hc.
    + destruct cur as [w|].
      * destruct (Hcur w eq_refl) as (Hne & Hlen & Hal).
        case_decide.
        -- apply IH. intros ? [= <-]. split; [by destruct w|].
           split; [rewrite length_app; simpl; lia | by apply alphabetic_snoc].
        -- constructor; [done|]. by apply IH.
      * apply IH. intros ? [= <-]. split; [done|]. split; [simpl; lia|].
        by repeat constructor.
    + destruct cur as [w|].
      * constructor; [by apply Hcur|]. by apply IH.
      * by apply IH.
Qed.

Lemma split_separators sep r :
  separators sep → split_words None (sep ++ r) = split_words None r.
Proof. induction 1 as [|c sep Hc _ IH]; simpl; [done|]. by rewrite Hc. Qed.

(** Alphabetic bytes join the word in progress while the buffer has room. *)
Lemma split_run w : ∀ cur r,
  alphabetic w → (length cur + length w ≤ MAXWORD - 1)%nat →
  split_words (Some cur) (w ++ r) = split_words (Some (cur ++ w)) r.
Proof.
  induction w as [|c w IH]; intros cur r Hal Hlen; simpl.
  - by rewrite app_nil_r.
  - inversion Hal as [|?? Hc Hal']; subst. rewrite Hc. simpl in Hlen.
    rewrite decide_True by lia.
    rewrite IH; [| done | rewrite length_app; simpl; lia].
    by rewrite <- app_assoc.
Qed.

Lemma split_run_start w r :
  w ≠ [] → alphabetic w → (length w ≤ MAXWORD - 1)%nat →
  split_words None (w ++ r) = split_words (Some w) r.
Proof.
  intros Hne Hal Hlen. destruct w as [|c w]; [done|].
  inversion Hal as [|?? Hc Hal']; subst. simpl. rewrite Hc.
  simpl in Hlen. rewrite split_run; [done | done | simpl; lia].
Qed.

(** A word in progress ends where the stream ends or a separator stands. *)
Lemma split_flush w r :
  (∀ c, head r = Some c → isalpha c = false) →
  split_words (Some w) r = w :: split_words None r.
Proof.
  destruct r as [|c r]; intros Hr; [done|]. simpl.
  by rewrite (Hr c eq_refl).
Qed.

Lemma split_alpha_runs s ws :
  alpha_runs s ws → Forall (λ w, (length w < MAXWORD)%nat) ws →
  split_words None s = ws.
Proof.
  induction 1 as [sep Hsep | sep w rest ws Hsep Hne Hal Hmax _ IH]; intros Hshort.
  - rewrite <- (app_nil_r sep). by rewrite split_separators.
  - inversion Hshort as [|?? Hw Hws]; subst.
    rewrite split_separators by done.
    rewrite split_run_start by (done || lia).
    rewrite split_flush by done. by rewrite IH.
Qed.

(** A run longer than the buffer allows: the word is passed on when the
    buffer is full, and the loop goes on behind the byte that found it
    full. *)
Lemma split_long_run w r :
  alphabetic w → (MAXWORD - 1 < length w)%nat →
  split_words None (w ++ r)
  = take (MAXWORD - 1) w :: split_words None (drop MAXWORD w ++ r).
Proof.
  intros Hal Hlen. pose proof MAXWORD_gt_1 as HM.
  rewrite <- (take_drop (MAXWORD - 1) w) at 1.
  assert (Hal1 : alphabetic (take (MAXWORD - 1) w)) by by apply Forall_take.
  assert (Hl1 : length (take (MAXWORD - 1) w) = (MAXWORD - 1)%nat)
    by (rewrite length_take; lia).
  rewrite <- app_assoc. rewrite split_run_start; [| | done | lia].
  2:{ intros E. rewrite E in Hl1. change (length (@nil Z)) with 0%nat in Hl1. lia. }
  destruct (drop (MAXWORD - 1) w) as [|c d] eqn:Hd.
  { apply (f_equal length) in Hd. rewrite length_drop in Hd.
    change (length (@nil Z)) with 0%nat in Hd. lia. }
  assert (Hc : isalpha c = true).
  { assert (Hald : alphabetic (drop (MAXWORD - 1) w)) by by apply Forall_drop.
    rewrite Hd in Hald. by inversion Hald. }
  rewrite <- app_comm_cons. cbn [split_words]. rewrite Hc. rewrite decide_False by lia.
  assert (Hdd : drop MAXWORD w = d).
  { replace MAXWORD with ((MAXWORD - 1) + 1)%nat at 1 by lia.
    rewrite <- drop_drop. by rewrite Hd. }
  by rewrite Hdd.
Qed.

(** Cutting a stream in two leaves the words as they are when the cut is
    not between two alphabetic bytes. *)
Lemma split_words_cut s1 : ∀ cur s2,
  (s1 = [] → cur = None ∨ ∀ c, head s2 = Some c → isalpha c = false) →
  clean_cut s1 s2 →
  split_words cur (s1 ++ s2) = split_words cur s1 ++ split_words None s2.
Proof.
  induction s1 as [|c s1 IH]; intros cur s2 Hcur Hcut.
  - simpl. destruct cur as [w|]; [|done].
    destruct (Hcur eq_refl) as [|Hs2]; [done|].
    by rewrite split_flush.
  - assert (Hcut' : clean_cut s1 s2).
    { intros s1' a b s2' -> ->. by apply (Hcut (c :: s1') a b s2'). }
    assert (Hnil : s1 = [] → isalpha c = true →
                   ∀ c', head s2 = Some c' → isalpha c' = false).
    { intros -> Hc c' Hc'. destruct s2 as [|b s2']; simplify_eq/=.
      destruct (Hcut [] c c' s2' eq_refl eq_refl); congruence. }
    simpl. destruct (isalpha c) eqn:Hc.
    + destruct cur as [w|].
      * case_decide.
        -- apply IH; [|done]. intros E. right. by apply Hnil.
        -- rewrite IH; [done | by left | done].
      * apply IH; [|done]. intros E. right. by apply Hnil.
    + destruct cur as [w|]; rewrite IH; by eauto.
Qed.

Lemma split_words_clean_cut s1 s2 :
  clean_cut s1 s2 →
  split_words None (s1 ++ s2) = split_words None s1 ++ split_words None s2.
Proof. intros Hcut. apply split_words_cut; [by left | done]. Qed.

(** Every stream has its maximal runs. *)
Lemma alpha_runs_separator c s ws :
  isalpha c = false → alpha_runs s ws → alpha_runs (c :: s) ws.
Proof.
  intros Hc Hr. destruct Hr as [sep Hsep | sep w rest ws' Hsep Hne Hal Hmax Hrest].
  - apply runs_end. by constructor.
  - apply (runs_word (c :: sep)); try done. by constructor.
Qed.

Lemma alpha_runs_letter c s ws :
  isalpha c = true → alpha_runs s ws → ∃ ws', alpha_runs (c :: s) ws'.
Proof.
  intros Hc Hr.
  assert (Hone : alphabetic [c]) by (by repeat constructor).
  destruct Hr as [sep Hsep | sep w rest ws' Hsep Hne Hal Hmax Hrest].
  - exists [[c]]. apply (runs_word [] [c] sep []).
    + constructor.
    + done.
    + done.
    + intros c' Hc'. destruct sep; simplify_eq/=. by inversion Hsep.
    + by apply runs_end.
  - destruct sep as [|c' sep].
    + exists ((c :: w) :: ws'). apply (runs_word [] (c :: w) rest ws').
      * constructor.
      * done.
      * by constructor.
      * done.
      * done.
    + exists ([c] :: w :: ws').
      apply (runs_word [] [c] ((c' :: sep) ++ w ++ rest)).
      * constructor.
      * done.
      * done.
      * intros c'' [= <-]. by inversion Hsep.
      * by apply runs_word.
Qed.

Lemma alpha_runs_total s : ∃ ws, alpha_runs s ws.
Proof.
  induction s as [|c s [ws IH]].
  - exists []. apply runs_end. constructor.
  - destruct (isalpha c) eqn:Hc.
    + by apply (alpha_runs_letter c s ws).
    + exists ws. by apply alpha_runs_separator.
Qed.

(** * The table *)

(** ** Chains *)

Lemma chain_functional h p ls1 : ∀ ls2,
  chain h p ls1 → chain h p ls2 → ls1 = ls2.
Proof.
  intros ls2 H1. revert ls2.
  induction H1 as [|l e ls He _ IH]; intros ls2 H2; inversion H2; subst; [done|].
  simplify_eq. f_equal. by apply IH.
Qed.

Lemma chain_from h p ls l :
  chain h p ls → l ∈ ls →
  ∃ ls1 ls2, ls = ls1 ++ l :: ls2 ∧ chain h (Some l) (l :: ls2).
Proof.
  induction 1 as [|l0 e ls He Hch IH]; intros Hin.
  - by apply elem_of_nil in Hin.
  - destruct (decide (l = l0)) as [->|Hne].
    + exists [], ls. split; [done|]. by econstructor.
    + apply elem_of_cons in Hin as [|Hin]; [done|].
      destruct (IH Hin) as (ls1 & ls2 & -> & Hl).
      by exists (l0 :: ls1), ls2.
Qed.

(** A chain that ends meets no entry twice. *)
Lemma chain_NoDup h p ls : chain h p ls → NoDup ls.
Proof.
  induction 1 as [|l e ls He Hch IH]; constructor; [|done].
  intros Hin. destruct (chain_from _ _ _ _ Hch Hin) as (ls1 & ls2 & Hls & Hl).
  assert (Hl' : chain h (Some l) (l :: ls)) by by econstructor.
  pose proof (chain_functional _ _ _ _ Hl Hl') as Heq.
  apply (f_equal length) in Hls, Heq. rewrite length_app in Hls. simpl in *. lia.
Qed.

Lemma chain_lookup h p ls l : chain h p ls → l ∈ ls → is_Some (h !! l).
Proof.
  induction 1 as [|l0 e ls He Hch IH]; intros Hin.
  - by apply elem_of_nil in Hin.
  - apply elem_of_cons in Hin as [->|Hin]; eauto.
Qed.

(** The [size] of the heap bounds the length of every chain: the fuel that
    [count] gives to the scan is enough. *)
Lemma chain_length h p ls : chain h p ls → (length ls ≤ size h)%nat.
Proof.
  intros Hch. rewrite <- (size_dom (D := gset loc)).
  rewrite <- (size_list_to_set (C := gset loc) ls) by by eapply chain_NoDup.
  apply subseteq_size. intros l Hl. apply elem_of_list_to_set in Hl.
  apply elem_of_dom. by eapply chain_lookup.
Qed.

Lemma chain_insert_fresh h p ls l e :
  chain h p ls → h !! l = None → chain (<[l := e]> h) p ls.
Proof.
  induction 1 as [|l0 e0 ls He Hch IH]; intros Hl; econstructor; eauto.
  rewrite lookup_insert_ne; [done|]. congruence.
Qed.

(** A write to the [count] of an entry leaves every chain as it is. *)
Lemma chain_bump h p ls l e c :
  chain h p ls → h !! l = Some e →
  chain (<[l := Entry (next e) (word e) c]> h) p ls.
Proof.
  induction 1 as [|l0 e0 ls He Hch IH]; intros Hl; [constructor|].
  destruct (decide (l = l0)) as [->|Hne].
  - simplify_eq. apply (chain_entry _ l0 (Entry (next e0) (word e0) c)).
    + by rewrite lookup_insert_eq.
    + by apply IH.
  - apply (chain_entry _ l0 e0); [by rewrite lookup_insert_ne | by apply IH].
Qed.

(** ** The scan *)

Lemma strcmp_eq_true w1 w2 : strcmp_eq w1 w2 = true ↔ w1 = w2.
Proof. unfold strcmp_eq. apply bool_decide_eq_true. Qed.

Lemma scan_chain h w p ls : ∀ fuel,
  chain h p ls → (length ls ≤ fuel)%nat →
  ∃ r, freq.scan fuel h w p = Some r ∧ first_match h w ls r.
Proof.
  intros fuel Hch. revert fuel.
  induction Hch as [|l e ls He Hch IH]; intros fuel Hlen.
  - exists None. split; [by destruct fuel|]. intros l' e' Hin. by apply elem_of_nil in Hin.
  - destruct fuel as [|fuel]; [simpl in Hlen; lia|]. simpl. rewrite He. simpl.
    destruct (strcmp_eq w (word e)) eqn:Hcmp.
    + apply strcmp_eq_true in Hcmp. exists (Some l). split; [done|].
      exists [], ls, e. split_and!; try done.
      intros l' e' Hin. by apply elem_of_nil in Hin.
    + assert (Hw : word e ≠ w).
      { intros E. symmetry in E. apply strcmp_eq_true in E. congruence. }
      destruct (IH fuel) as (r & Hr & Hfm); [simpl in Hlen; lia|].
      exists r. split; [done|]. destruct r as [l1|]; simpl in *.
      * destruct Hfm as (ls1 & ls2 & e1 & -> & He1 & Hw1 & Hpre).
        exists (l :: ls1), ls2, e1. split_and!; try done.
        intros l' e' Hin He'. apply elem_of_cons in Hin as [->|Hin]; [|by eauto].
        by simplify_eq.
      * intros l' e' Hin He'. apply elem_of_cons in Hin as [->|Hin]; [|by eauto].
        by simplify_eq.
Qed.

(** The scan reads [word] and [next] only. *)
Lemma scan_bump h w l e c : ∀ fuel p,
  h !! l = Some e →
  freq.scan fuel (<[l := Entry (next e) (word e) c]> h) w p = freq.scan fuel h w p.
Proof.
  induction fuel as [|fuel IH]; intros p He; destruct p as [l0|]; simpl; try done.
  destruct (decide (l = l0)) as [->|Hne].
  - rewrite lookup_insert_eq, He. simpl. destruct (strcmp_eq _ _); [done|]. by apply IH.
  - rewrite lookup_insert_ne by done. destruct (h !! l0) as [e0|]; simpl; [|done].
    destruct (strcmp_eq _ _); [done|]. by apply IH.
Qed.

Lemma alloc_fresh (h : gmap loc entry) : h !! alloc h = None.
Proof. apply not_elem_of_dom. unfold alloc. apply is_fresh. Qed.

Lemma wrap_int_range x : INT_MIN ≤ wrap_int x ≤ INT_MAX.
Proof.
  unfold wrap_int, INT_MIN, INT_MAX.
  pose proof (Z.mod_pos_bound (x + 2 ^ 31) (2 ^ 32)). lia.
Qed.

Lemma wrap_int_small x : INT_MIN ≤ x ≤ INT_MAX → wrap_int x = x.
Proof. unfold wrap_int, INT_MIN, INT_MAX. intros H. rewrite Z.mod_small; lia. Qed.

(** ** [count] *)

(** The bucket of a word in a table with [NBUCKETS] buckets. *)
Lemma bucket_of_word w t :
  w ≠ [] → length (ht t) = Z.to_nat NBUCKETS →
  ∃ b head, freq.hash w = Some b ∧ 0 ≤ b < NBUCKETS ∧
            ht t !! Z.to_nat b = Some head.
Proof.
  intros Hne Hlen. destruct (hash_nonempty w Hne) as [b Hb].
  pose proof (hash_range w b Hb) as Hr.
  destruct (lookup_lt_is_Some_2 (ht t) (Z.to_nat b)) as [head Hhead]; [lia|].
  by exists b, head.
Qed.

(** What [count] does, by the two ways out of the scan. *)
Lemma count_cases w t b head ls :
  freq.hash w = Some b →
  ht t !! Z.to_nat b = Some head →
  chain (heap t) head ls →
  (∃ l e, matched w t = Some (Some l) ∧ first_match (heap t) w ls (Some l) ∧
          heap t !! l = Some e ∧ word e = w ∧
          freq.count w t
          = Some (Table (<[l := Entry (next e) (word e) (wrap_int (count e + 1))]> (heap t))
                        (ht t)))
  ∨ (matched w t = Some None ∧ first_match (heap t) w ls None ∧
     freq.count w t
     = Some (Table (<[alloc (heap t) := Entry head w 1]> (heap t))
                   (<[Z.to_nat b := Some (alloc (heap t))]> (ht t)))).
Proof.
  intros Hb Hhead Hch.
  destruct (scan_chain (heap t) w head ls (size (heap t)) Hch (chain_length _ _ _ Hch))
    as (r & Hscan & Hfm).
  unfold matched, freq.count. rewrite Hb. simpl. rewrite Hhead. simpl.
  rewrite Hscan. simpl. destruct r as [l|].
  - left. destruct Hfm as (ls1 & ls2 & e & Hls & He & Hw & Hpre).
    exists l, e. split_and!; try done.
    + by exists ls1, ls2, e.
    + unfold exec_tx, freq.bump. by rewrite He.
  - right. split_and!; try done.
    unfold exec_tx, freq.insert_front. by rewrite Hhead.
Qed.

Lemma wf_bump t l e c :
  wf_table t → heap t !! l = Some e → INT_MIN ≤ c ≤ INT_MAX →
  wf_table (Table (<[l := Entry (next e) (word e) c]> (heap t)) (ht t)).
Proof.
  intros [Hlen Hch Hcnt] He Hc. split; simpl.
  - done.
  - intros b head Hhead. destruct (Hch b head Hhead) as [ls Hls].
    exists ls. by apply chain_bump.
  - intros l' e' He'. destruct (decide (l = l')) as [->|Hne].
    + rewrite lookup_insert_eq in He'. by simplify_eq/=.
    + rewrite lookup_insert_ne in He' by done. by eapply Hcnt.
Qed.

Lemma wf_insert_front t b head w :
  wf_table t → ht t !! b = Some head →
  wf_table (Table (<[alloc (heap t) := Entry head w 1]> (heap t))
                  (<[b := Some (alloc (heap t))]> (ht t))).
Proof.
  intros [Hlen Hch Hcnt] Hhead. pose proof (alloc_fresh (heap t)) as Hfresh.
  split; simpl.
  - by rewrite length_insert.
  - intros b' head' Hhead'. destruct (decide (b = b')) as [->|Hne].
    + rewrite list_lookup_insert_eq in Hhead' by by eapply lookup_lt_Some.
      simplify_eq. destruct (Hch b' head Hhead) as [ls Hls].
      exists (alloc (heap t) :: ls).
      apply (chain_entry _ _ (Entry head w 1)); [by rewrite lookup_insert_eq|].
      by apply chain_insert_fresh.
    + rewrite list_lookup_insert_ne in Hhead' by done.
      destruct (Hch b' head' Hhead') as [ls Hls]. exists ls.
      by apply chain_insert_fresh.
  - intros l' e' He'. destruct (decide (alloc (heap t) = l')) as [<-|Hne].
    + rewrite lookup_insert_eq in He'. simplify_eq/=. unfold INT_MIN, INT_MAX. lia.
    + rewrite lookup_insert_ne in He' by done. by eapply Hcnt.
Qed.

(** [count] returns on every word that is not empty, and leaves a table
    that is well formed. *)
Lemma count_wf w t :
  w ≠ [] → wf_table t → ∃ t', freq.count w t = Some t' ∧ wf_table t'.
Proof.
  intros Hne Hwf.
  destruct (bucket_of_word w t Hne (wf_buckets _ Hwf)) as (b & head & Hb & Hr & Hhead).
  destruct (wf_chains _ Hwf _ _ Hhead) as [ls Hls].
  destruct (count_cases w t b head ls Hb Hhead Hls)
    as [(l & e & _ & _ & He & _ & Hc) | (_ & _ & Hc)]; rewrite Hc; eexists; split; try done.
  - apply wf_bump; [done | done | apply wrap_int_range].
  - by apply wf_insert_front.
Qed.

Lemma count_each_wf ws : ∀ t,
  Forall (λ w, w ≠ []) ws → wf_table t →
  ∃ t', count_each freq.count ws t = Some t' ∧ wf_table t'.
Proof.
  induction ws as [|w ws IH]; intros t Hws Hwf; simpl.
  - by exists t.
  - inversion Hws as [|?? Hw Hws']; subst.
    destruct (count_wf w t Hw Hwf) as (t1 & -> & Hwf1). simpl. by apply IH.
Qed.

Lemma split_words_nonempty s : Forall (λ w, w ≠ []) (split_words None s).
Proof.
  pose proof (split_words_ok s None ltac:(by intros)) as H.
  eapply List.Forall_impl; [|exact H]. by intros w [? _].
Qed.

(** [count_all_words], from the opened stream on, returns on every stream. *)
Lemma count_stream_wf word0 s t :
  length word0 = MAXWORD → wf_table t →
  ∃ t', freq.count_stream freq.count word0 s t = Some t' ∧ wf_table t'.
Proof.
  intros Hlen Hwf. rewrite count_stream_split by done.
  apply count_each_wf; [apply split_words_nonempty | done].
Qed.

Lemma empty_table_wf : wf_table empty_table.
Proof.
  split; unfold empty_table; cbn [ht heap].
  - by rewrite length_replicate.
  - intros b head Hb. apply lookup_replicate in Hb as [-> _].
    exists []. constructor.
  - intros l e He. by rewrite lookup_empty in He.
Qed.

(** The count of the word after the call, in the two cases. *)
Lemma word_total_bumped w t b head l e c :
  freq.hash w = Some b → ht t !! Z.to_nat b = Some head →
  matched w t = Some (Some l) → heap t !! l = Some e →
  word_total w (Table (<[l := Entry (next e) (word e) c]> (heap t)) (ht t)) = Some c.
Proof.
  intros Hb Hhead Hm He. unfold word_total, matched in *. simpl.
  rewrite Hb in *. simpl in *. rewrite Hhead in *. simpl in *.
  rewrite scan_bump by done.
  rewrite map_size_insert_Some by done. rewrite Hm. simpl.
  by rewrite lookup_insert_eq.
Qed.

Lemma word_total_inserted w t b head :
  freq.hash w = Some b → ht t !! Z.to_nat b = Some head →
  word_total w (Table (<[alloc (heap t) := Entry head w 1]> (heap t))
                      (<[Z.to_nat b := Some (alloc (heap t))]> (ht t))) = Some 1.
Proof.
  intros Hb Hhead. unfold word_total, matched. simpl. rewrite Hb. simpl.
  rewrite list_lookup_insert_eq by by eapply lookup_lt_Some. simpl.
  rewrite map_size_insert_None by apply alloc_fresh. simpl.
  rewrite lookup_insert_eq. simpl.
  unfold strcmp_eq. rewrite bool_decide_eq_true_2 by done. simpl.
  by rewrite lookup_insert_eq.
Qed.

(** * The properties of the specification *)

(** ** The hash function *)

(** C2, as the specification words it, fails, in two ways.  The code mixes
    in the number of bytes behind the first one, not the total length of
    the word: on the word [a] it gives 9875 and the reference of the
    specification 9874.  And the code converts each [char] by [(unsigned)],
    which extends the sign of the bytes from 0x80 on: on the word of the one
    byte 0xe9 it gives 2870, where the reference on the byte 233 gives 9394
    with the total length and 9395 with the number of bytes behind the
    first. *)
Lemma hash_total_length_differs :
  (freq.hash (bytes "a") = Some 9875 ∧ spec_hash (bytes "a") = 9874 ∧
   freq.hash (bytes "a") ≠ Some (spec_hash (bytes "a"))) ∧
  (byte_of_char <$> [-23] = [233] ∧
   freq.hash [-23] = Some 2870 ∧
   spec_hash [233] = 9394 ∧ spec_hash_scanned [233] = 9395 ∧
   freq.hash [-23] ≠ Some (spec_hash (byte_of_char <$> [-23])) ∧
   freq.hash [-23] ≠ Some (spec_hash_scanned (byte_of_char <$> [-23]))).
Proof.
  split.
  - split_and!; [reflexivity | reflexivity | by vm_compute].
  - split_and!; [reflexivity | reflexivity | reflexivity | reflexivity
                 | by vm_compute | by vm_compute].
Qed.

(** C2, amended: on every word that is not empty, [hash] is the reference
    mixing computed as the code computes it: on 32-bit unsigned values
    (shifts, sums and the count of the bytes modulo [2^32]), each byte
    converted from [char] by [(unsigned)], which extends the sign of the
    bytes from 0x80 on, and with the number of bytes behind the first one
    (the length less one) mixed in after the scan; the result is in
    [0, 10007), and equal words have equal hashes.  On words of ASCII bytes
    (0..127), at most [2^32] of them, this is the reference on plain
    integers. *)
Theorem hash_reference_mix (w : cstring) :
  w ≠ [] →
  freq.hash w = Some (hash_reference w) ∧
  0 ≤ hash_reference w < NBUCKETS ∧
  (∀ w', w' = w → freq.hash w' = freq.hash w) ∧
  (Forall (λ b, 0 ≤ b ≤ 127) w → Z.of_nat (length w) ≤ UINT_MOD →
   hash_reference w = spec_hash_scanned w).
Proof.
  intros Hne. pose proof (hash_is_reference w Hne) as Hh.
  split; [done|]. split; [by eapply hash_range|]. split; [by intros ? ->|].
  intros Hb Hlen.
  assert (Hs : freq.hash w = Some (spec_hash_scanned w)).
  { apply hash_scanned; [done | | done].
    eapply List.Forall_impl; [|exact Hb]. intros b Hb'. simpl in Hb'. lia. }
  congruence.
Qed.

Lemma hash_reference_mix_witness :
  freq.hash [-61; -87; 116; -61; -87] = Some (hash_reference [-61; -87; 116; -61; -87]) ∧
  0 ≤ hash_reference [-61; -87; 116; -61; -87] < NBUCKETS ∧
  (∀ w', w' = [-61; -87; 116; -61; -87] →
         freq.hash w' = freq.hash [-61; -87; 116; -61; -87]) ∧
  (Forall (λ b, 0 ≤ b ≤ 127) [-61; -87; 116; -61; -87] →
   Z.of_nat (length [-61; -87; 116; -61; -87]) ≤ UINT_MOD →
   hash_reference [-61; -87; 116; -61; -87]
   = spec_hash_scanned [-61; -87; 116; -61; -87]).
Proof.
  apply (hash_reference_mix [-61; -87; 116; -61; -87]). done.
Defined.

(** ** The tokenizer *)

Lemma run_of_a_alphabetic n : alphabetic (replicate n 97).
Proof. apply Forall_replicate. reflexivity. Qed.

(** The words of a run of 9000 alphabetic bytes. *)
Lemma split_9000 run :
  alphabetic run → length run = Z.to_nat 9000 →
  split_words None run = [take (MAXWORD - 1) run; drop MAXWORD run].
Proof.
  intros Hal Hlen.
  assert (HM : MAXWORD = Z.to_nat 8192) by reflexivity.
  rewrite <- (app_nil_r run) at 1.
  rewrite split_long_run by (done || lia). rewrite app_nil_r.
  f_equal. rewrite <- (app_nil_r (drop MAXWORD run)) at 1.
  rewrite split_run_start; [done | | by apply Forall_drop | rewrite length_drop; lia].
  intros E. apply (f_equal length) in E. rewrite length_drop in E.
  change (length (@nil Z)) with 0%nat in E. lia.
Qed.

(** C3, as the specification words it, fails: a run of 9000 bytes [a]
    gives words of 8191 and 808 bytes, not of 8192 and 808. *)
Lemma long_run_lengths :
  ∃ ws, freq.tokens (replicate MAXWORD 0) (replicate (Z.to_nat 9000) 97) = Some ws ∧
        (λ w, Z.of_nat (length w)) <$> ws = [8191; 808] ∧
        (λ w, Z.of_nat (length w)) <$> ws ≠ [8192; 808].
Proof.
  assert (HM : MAXWORD = Z.to_nat 8192) by reflexivity.
  eexists. split.
  - rewrite tokens_split by apply length_replicate.
    rewrite split_9000; [done | apply run_of_a_alphabetic | apply length_replicate].
  - cbn [fmap list_fmap]. rewrite length_take, length_drop, !length_replicate.
    split; [|intros [= E]]; repeat f_equal; lia.
Qed.

Lemma split_in_progress s : ∀ w, split_words (Some w) s ≠ [].
Proof.
  induction s as [|c s IH]; intros w; simpl; [done|].
  destruct (isalpha c); [|done]. case_decide; [apply IH | done].
Qed.

Lemma split_letter_first c s : isalpha c = true → split_words None (c :: s) ≠ [].
Proof. intros Hc. simpl. rewrite Hc. apply split_in_progress. Qed.

Lemma clean_cut_left pre s :
  (∀ pre' a, pre = pre' ++ [a] → isalpha a = false) → clean_cut pre s.
Proof. intros Hpre s1' a b s2' Hs1 _. left. by eapply Hpre. Qed.

Lemma clean_cut_right s rest :
  (∀ b rest', rest = b :: rest' → isalpha b = false) → clean_cut s rest.
Proof. intros Hrest s1' a b s2' _ Hs2. right. by eapply Hrest. Qed.

(** C3, amended: the buffer of 8192 bytes keeps one byte for the
    terminator, so every word passed on has between 1 and 8191 bytes.
    Wherever in a stream a run of more than 8191 alphabetic bytes begins
    (at the start of the stream or behind a byte that is not alphabetic),
    the run is not rejected: its first 8191 bytes are passed on as one
    word, when one more alphabetic byte arrives, after the words of what
    stands before the run; a run of more than 8192 bytes gives at least one
    more word.  A maximal run of 9000 alphabetic bytes gives exactly two
    words, the first its first 8191 bytes and the second a tail of the run
    that is not empty, between the words of what stands before and behind. *)
Theorem long_run_chopped (word0 s : list Z) :
  length word0 = MAXWORD →
  ∃ ws, freq.tokens word0 s = Some ws ∧
    Forall (λ w, 0 < Z.of_nat (length w) ≤ 8191) ws ∧
    (∀ pre run rest, s = pre ++ run ++ rest →
       (∀ pre' a, pre = pre' ++ [a] → isalpha a = false) →
       alphabetic run → 8191 < Z.of_nat (length run) →
       ∃ wpre ws', freq.tokens word0 pre = Some wpre ∧
         ws = wpre ++ take (Z.to_nat 8191) run :: ws' ∧
         Z.of_nat (length (take (Z.to_nat 8191) run)) = 8191 ∧
         (8192 < Z.of_nat (length run) → ws' ≠ [])) ∧
    (∀ pre run rest, s = pre ++ run ++ rest →
       (∀ pre' a, pre = pre' ++ [a] → isalpha a = false) →
       (∀ b rest', rest = b :: rest' → isalpha b = false) →
       alphabetic run → Z.of_nat (length run) = 9000 →
       ∃ wpre w2 wrest, freq.tokens word0 pre = Some wpre ∧
         freq.tokens word0 rest = Some wrest ∧
         ws = wpre ++ [take (Z.to_nat 8191) run; w2] ++ wrest ∧
         w2 ≠ [] ∧ w2 `suffix_of` run).
Proof.
  intros Hlen. assert (HM : MAXWORD = Z.to_nat 8192) by reflexivity.
  assert (HM1 : (MAXWORD - 1)%nat = Z.to_nat 8191) by lia.
  exists (split_words None s). split; [by apply tokens_split|]. split_and!.
  - pose proof (split_words_ok s None ltac:(by intros)) as Hok.
    eapply List.Forall_impl; [|exact Hok]. intros w (Hne & Hl & _).
    destruct w; [done|]. simpl length in *. lia.
  - intros pre run rest -> Hpre Hal Hrun.
    exists (split_words None pre), (split_words None (drop MAXWORD run ++ rest)).
    split; [by apply tokens_split|].
    rewrite split_words_clean_cut by by apply clean_cut_left.
    rewrite split_long_run by (done || lia). rewrite HM1.
    split; [done|]. split; [rewrite length_take; lia|].
    intros Hlong. destruct (drop MAXWORD run) as [|c d] eqn:Hd.
    { apply (f_equal length) in Hd. rewrite length_drop in Hd.
      change (length (@nil Z)) with 0%nat in Hd. lia. }
    rewrite <- app_comm_cons. apply split_letter_first.
    assert (Hald : alphabetic (drop MAXWORD run)) by by apply Forall_drop.
    rewrite Hd in Hald. by inversion Hald.
  - intros pre run rest -> Hpre Hrest Hal Hrun.
    exists (split_words None pre), (drop MAXWORD run), (split_words None rest).
    split; [by apply tokens_split|]. split; [by apply tokens_split|].
    rewrite split_words_clean_cut by by apply clean_cut_left.
    rewrite split_words_clean_cut by by apply clean_cut_right.
    assert (Hl : length run = Z.to_nat 9000).
    { apply Nat2Z.inj. rewrite Hrun. reflexivity. }
    rewrite (split_9000 run Hal Hl). rewrite HM1.
    split; [done|]. split; [|apply suffix_drop].
    intros E. apply (f_equal length) in E. rewrite length_drop in E.
    change (length (@nil Z)) with 0%nat in E. lia.
Qed.

Lemma long_run_chopped_witness :
  ∃ ws, freq.tokens (replicate MAXWORD 0)
          (bytes "to " ++ replicate (Z.to_nat 9000) 97 ++ bytes ", be") = Some ws ∧
    Forall (λ w, 0 < Z.of_nat (length w) ≤ 8191) ws ∧
    (∀ pre run rest,
       bytes "to " ++ replicate (Z.to_nat 9000) 97 ++ bytes ", be" = pre ++ run ++ rest →
       (∀ pre' a, pre = pre' ++ [a] → isalpha a = false) →
       alphabetic run → 8191 < Z.of_nat (length run) →
       ∃ wpre ws', freq.tokens (replicate MAXWORD 0) pre = Some wpre ∧
         ws = wpre ++ take (Z.to_nat 8191) run :: ws' ∧
         Z.of_nat (length (take (Z.to_nat 8191) run)) = 8191 ∧
         (8192 < Z.of_nat (length run) → ws' ≠ [])) ∧
    (∀ pre run rest,
       bytes "to " ++ replicate (Z.to_nat 9000) 97 ++ bytes ", be" = pre ++ run ++ rest →
       (∀ pre' a, pre = pre' ++ [a] → isalpha a = false) →
       (∀ b rest', rest = b :: rest' → isalpha b = false) →
       alphabetic run → Z.of_nat (length run) = 9000 →
       ∃ wpre w2 wrest, freq.tokens (replicate MAXWORD 0) pre = Some wpre ∧
         freq.tokens (replicate MAXWORD 0) rest = Some wrest ∧
         ws = wpre ++ [take (Z.to_nat 8191) run; w2] ++ wrest ∧
         w2 ≠ [] ∧ w2 `suffix_of` run).
Proof.
  apply (long_run_chopped (replicate MAXWORD 0)
           (bytes "to " ++ replicate (Z.to_nat 9000) 97 ++ bytes ", be")).
  apply length_replicate.
Defined.

(** C7: when every maximal run of alphabetic bytes is shorter than 8192
    bytes, the words passed to [count] are exactly the maximal runs, in
    stream order and byte for byte; what stands between them is dropped;
    the end of the stream ends the last word; the empty stream and a stream
    of separators give no word; the text [Hello, World!] gives [Hello] and
    [World]. *)
Theorem tokens_maximal_runs (word0 : list Z) :
  length word0 = MAXWORD →
  (∀ s ws, alpha_runs s ws → Forall (λ w, Z.of_nat (length w) < 8192) ws →
           freq.tokens word0 s = Some ws) ∧
  (∀ s, ∃ ws, alpha_runs s ws) ∧
  freq.tokens word0 [] = Some [] ∧
  (∀ s, separators s → freq.tokens word0 s = Some []) ∧
  freq.tokens word0 (bytes "Hello, World!") = Some [bytes "Hello"; bytes "World"].
Proof.
  intros Hlen. assert (HM : MAXWORD = Z.to_nat 8192) by reflexivity.
  assert (Hruns : ∀ s ws, alpha_runs s ws →
            Forall (λ w, Z.of_nat (length w) < 8192) ws →
            freq.tokens word0 s = Some ws).
  { intros s ws Hr Hshort. rewrite tokens_split by done. f_equal.
    apply split_alpha_runs; [done|].
    eapply List.Forall_impl; [|exact Hshort]. intros w Hw. simpl in Hw. lia. }
  split_and!.
  - done.
  - apply alpha_runs_total.
  - by rewrite tokens_split.
  - intros s Hsep. apply Hruns; [by apply runs_end | constructor].
  - rewrite tokens_split by done. reflexivity.
Qed.

Lemma tokens_maximal_runs_witness :
  freq.tokens (replicate MAXWORD 0) (bytes "to be, or not") =
  Some [bytes "to"; bytes "be"; bytes "or"; bytes "not"].
Proof.
  assert (Hlen : length (replicate MAXWORD 0) = MAXWORD) by apply length_replicate.
  apply (proj1 (tokens_maximal_runs (replicate MAXWORD 0) Hlen)).
  - apply (runs_word [] (bytes "to") (bytes " be, or not"));
      [constructor | done | by repeat constructor | by intros c [= <-] |].
    apply (runs_word (bytes " ") (bytes "be") (bytes ", or not"));
      [by repeat constructor | done | by repeat constructor | by intros c [= <-] |].
    apply (runs_word (bytes ", ") (bytes "or") (bytes " not"));
      [by repeat constructor | done | by repeat constructor | by intros c [= <-] |].
    apply (runs_word (bytes " ") (bytes "not") []);
      [by repeat constructor | done | by repeat constructor | by intros c [=] |].
    apply runs_end. constructor.
  - repeat constructor.
Defined.

(** C10: every word that [count_all_words] passes to [count] is read from
    the buffer up to a terminator that is in the buffer, is not empty, has
    at most 8191 bytes, all alphabetic and none of them NUL; so [hash] is
    defined on it, while it is not on the empty word. *)
Theorem count_words_well_formed (word0 s : list Z) (t : table) :
  length word0 = MAXWORD →
  ∃ ws, freq.tokens word0 s = Some ws ∧
    freq.count_stream freq.count word0 s t = count_each freq.count ws t ∧
    Forall (λ w, w ≠ [] ∧ Z.of_nat (length w) ≤ 8191 ∧ alphabetic w ∧
                 Forall (λ c, c ≠ 0) w ∧ is_Some (freq.hash w)) ws ∧
    freq.hash [] = None.
Proof.
  intros Hlen. assert (HM : MAXWORD = Z.to_nat 8192) by reflexivity.
  exists (split_words None s). split_and!.
  - by apply tokens_split.
  - by apply count_stream_split.
  - pose proof (split_words_ok s None ltac:(by intros)) as Hok.
    eapply List.Forall_impl; [|exact Hok]. intros w (Hne & Hl & Hal).
    split_and!; [done | lia | done | by apply alphabetic_nonzero | by apply hash_nonempty].
  - done.
Qed.

Lemma count_words_well_formed_witness :
  ∃ ws, freq.tokens (replicate MAXWORD 0) (bytes "Hello, World!") = Some ws ∧
    freq.count_stream freq.count (replicate MAXWORD 0) (bytes "Hello, World!") empty_table
    = count_each freq.count ws empty_table ∧
    Forall (λ w, w ≠ [] ∧ Z.of_nat (length w) ≤ 8191 ∧ alphabetic w ∧
                 Forall (λ c, c ≠ 0) w ∧ is_Some (freq.hash w)) ws ∧
    freq.hash [] = None.
Proof.
  apply (count_words_well_formed (replicate MAXWORD 0) (bytes "Hello, World!") empty_table).
  apply length_replicate.
Defined.

(** ** [count] on the table *)

Lemma wrap_int_succ_ne c : wrap_int (c + 1) ≠ c.
Proof.
  unfold wrap_int. intros E.
  pose proof (Z.div_mod (c + 1 + 2 ^ 31) (2 ^ 32) ltac:(lia)) as Hd. lia.
Qed.

Lemma saturated_table_wf : wf_table saturated_table.
Proof.
  split; unfold saturated_table; cbn [ht heap].
  - by rewrite length_insert, length_replicate.
  - intros b head Hb. destruct (decide (b = Z.to_nat 9875)) as [->|Hne].
    + rewrite list_lookup_insert_eq in Hb by (rewrite length_replicate; unfold NBUCKETS; lia).
      simplify_eq. exists [0%nat].
      apply (chain_entry _ _ (Entry None [97] INT_MAX)); [|constructor].
      apply lookup_singleton_eq.
    + rewrite list_lookup_insert_ne in Hb by done.
      apply lookup_replicate in Hb as [-> _]. exists []. constructor.
  - intros l e He. apply lookup_singleton_Some in He as [_ <-]. simpl.
    unfold INT_MIN, INT_MAX. lia.
Qed.

(** C1, as the specification words it, fails where the count is an [int]
    at its maximum: the word [a] stands at [INT_MAX] in the table, and
    after [count] it stands at [INT_MIN], not at one more. *)
Lemma count_overflows :
  wf_table saturated_table ∧
  word_total (bytes "a") saturated_table = Some INT_MAX ∧
  ∃ t', freq.count (bytes "a") saturated_table = Some t' ∧
        word_total (bytes "a") t' = Some INT_MIN ∧
        word_total (bytes "a") t' ≠ Some (INT_MAX + 1).
Proof.
  split; [apply saturated_table_wf|]. split; [by vm_compute|].
  eexists. split; [by vm_compute|]. split; by vm_compute.
Qed.

(** C1, amended: for every word that is not empty and every well-formed
    table in which the entry of the word, if there is one, has a count below
    [INT_MAX], [count] returns, and the bucket [hash(word)] then holds an
    entry with the bytes of the word and a count one above the count at the
    start (zero for an absent word); when no entry held the word, the new
    entry has count 1, the bytes of the word, the old head of the bucket as
    [next], and is the new head, all written by one transaction. *)
Theorem count_increments (w : cstring) (t : table) :
  w ≠ [] → wf_table t →
  (∀ l e, matched w t = Some (Some l) → heap t !! l = Some e → count e < INT_MAX) →
  ∃ b head c t',
    freq.hash w = Some b ∧ ht t !! Z.to_nat b = Some head ∧
    word_total w t = Some c ∧
    freq.count w t = Some t' ∧
    word_total w t' = Some (c + 1) ∧
    (∃ ls l e, bucket_chain t' (Z.to_nat b) ls ∧ l ∈ ls ∧
               heap t' !! l = Some e ∧ word e = w ∧ count e = c + 1) ∧
    (matched w t = Some None →
       c = 0 ∧ heap t !! alloc (heap t) = None ∧
       heap t' = <[alloc (heap t) := Entry head w 1]> (heap t) ∧
       ht t' = <[Z.to_nat b := Some (alloc (heap t))]> (ht t) ∧
       freq.count w t = exec_tx (freq.insert_front w b) t).
Proof.
  intros Hne Hwf Hmax.
  destruct (bucket_of_word w t Hne (wf_buckets _ Hwf)) as (b & head & Hb & Hr & Hhead).
  destruct (wf_chains _ Hwf _ _ Hhead) as [ls Hls].
  destruct (count_cases w t b head ls Hb Hhead Hls)
    as [(l & e & Hm & Hfm & He & Hw & Hc) | (Hm & Hfm & Hc)].
  - pose proof (Hmax l e Hm He) as Hlt. pose proof (wf_counts _ Hwf l e He) as Hrange.
    assert (Hwrap : wrap_int (count e + 1) = count e + 1)
      by (apply wrap_int_small; unfold INT_MIN, INT_MAX in *; lia).
    rewrite Hwrap in Hc.
    exists b, head, (count e). eexists. split_and!; try done.
    + unfold word_total. rewrite Hm. simpl. by rewrite He.
    + by eapply word_total_bumped.
    + destruct Hfm as (ls1 & ls2 & ? & -> & _).
      exists (ls1 ++ l :: ls2), l, (Entry (next e) (word e) (count e + 1)).
      split_and!; try done.
      * exists head. split; [done|]. simpl. by apply chain_bump.
      * apply elem_of_app. right. left.
      * simpl. by rewrite lookup_insert_eq.
    + intros Hm'. congruence.
  - exists b, head, 0. eexists. split_and!; try done.
    + unfold word_total. by rewrite Hm.
    + by apply word_total_inserted.
    + exists (alloc (heap t) :: ls), (alloc (heap t)), (Entry head w 1).
      split_and!; try done.
      * exists (Some (alloc (heap t))). simpl. split.
        -- apply list_lookup_insert_eq. by eapply lookup_lt_Some.
        -- apply (chain_entry _ _ (Entry head w 1)); [by rewrite lookup_insert_eq|].
           apply chain_insert_fresh; [done | apply alloc_fresh].
      * left.
      * simpl. by rewrite lookup_insert_eq.
    + intros _. split_and!; try done.
      * apply alloc_fresh.
      * rewrite Hc. unfold exec_tx, freq.insert_front. by rewrite Hhead.
Qed.

Lemma count_increments_witness :
  ∃ b head c t',
    freq.hash (bytes "the") = Some b ∧ ht empty_table !! Z.to_nat b = Some head ∧
    word_total (bytes "the") empty_table = Some c ∧
    freq.count (bytes "the") empty_table = Some t' ∧
    word_total (bytes "the") t' = Some (c + 1) ∧
    (∃ ls l e, bucket_chain t' (Z.to_nat b) ls ∧ l ∈ ls ∧
               heap t' !! l = Some e ∧ word e = bytes "the" ∧ count e = c + 1) ∧
    (matched (bytes "the") empty_table = Some None →
       c = 0 ∧ heap empty_table !! alloc (heap empty_table) = None ∧
       heap t' = <[alloc (heap empty_table) := Entry head (bytes "the") 1]> (heap empty_table) ∧
       ht t' = <[Z.to_nat b := Some (alloc (heap empty_table))]> (ht empty_table) ∧
       freq.count (bytes "the") empty_table
       = exec_tx (freq.insert_front (bytes "the") b) empty_table).
Proof.
  apply (count_increments (bytes "the") empty_table).
  - done.
  - apply empty_table_wf.
  - intros l e Hm. vm_compute in Hm. discriminate.
Defined.

Lemma counted_once_table_wf : wf_table counted_once_table.
Proof.
  split; unfold counted_once_table; cbn [ht heap].
  - by rewrite length_insert, length_replicate.
  - intros b head Hb. destruct (decide (b = Z.to_nat 9875)) as [->|Hne].
    + rewrite list_lookup_insert_eq in Hb by (rewrite length_replicate; unfold NBUCKETS; lia).
      simplify_eq. exists [0%nat].
      apply (chain_entry _ _ (Entry None [97] 1)); [|constructor].
      apply lookup_singleton_eq.
    + rewrite list_lookup_insert_ne in Hb by done.
      apply lookup_replicate in Hb as [-> _]. exists []. constructor.
  - intros l e He. apply lookup_singleton_Some in He as [_ <-]. simpl.
    unfold INT_MIN, INT_MAX. lia.
Qed.

(** C5, as the specification words it, fails where a count is an [int] at
    its maximum: every count of the table is at least 1, and after [count]
    the entry of the word [a] has a count that is smaller than before and
    below 1. *)
Lemma count_overflow_decreases :
  wf_table saturated_table ∧
  (∀ l e, heap saturated_table !! l = Some e → 1 ≤ count e) ∧
  ∃ t' e e', freq.count (bytes "a") saturated_table = Some t' ∧
             heap saturated_table !! 0%nat = Some e ∧
             heap t' !! 0%nat = Some e' ∧
             count e' < count e ∧ count e' < 1.
Proof.
  split; [apply saturated_table_wf|]. split.
  - intros l e He. unfold saturated_table in He. cbn [heap] in He.
    apply lookup_singleton_Some in He as [_ <-]. by vm_compute.
  - eexists _, _, _. split; [by vm_compute|]. split; [by vm_compute|].
    split; [by vm_compute|]. split; by vm_compute.
Qed.

(** C5, amended: on a word that is not empty and a well-formed table,
    [count] returns and leaves a well-formed table in which every entry
    that existed is at its location, in the chain of its bucket, with the
    same bytes and the same [next]; the count of every entry but the one
    the scan stops at is as before, and the count of that one has not gone
    down unless it was [INT_MAX], where the increment overflows; an entry
    that is new has the count 1.  When the entry of the word, if there is
    one, has a count below [INT_MAX] and every count was at least 1, every
    count is. *)
Theorem count_preserves_entries (w : cstring) (t : table) :
  w ≠ [] → wf_table t →
  ∃ t', freq.count w t = Some t' ∧ wf_table t' ∧
    (∀ b ls, bucket_chain t b ls →
       ∃ ls', bucket_chain t' b ls' ∧ ls `suffix_of` ls') ∧
    (∀ l e, heap t !! l = Some e →
       ∃ e', heap t' !! l = Some e' ∧ word e' = word e ∧ next e' = next e ∧
             (matched w t ≠ Some (Some l) → count e' = count e) ∧
             (count e < INT_MAX → count e ≤ count e')) ∧
    (∀ l e, heap t' !! l = Some e → heap t !! l = None → count e = 1) ∧
    ((∀ l e, matched w t = Some (Some l) → heap t !! l = Some e →
             count e < INT_MAX) →
     (∀ l e, heap t !! l = Some e → 1 ≤ count e) →
     ∀ l e, heap t' !! l = Some e → 1 ≤ count e).
Proof.
  intros Hne Hwf.
  destruct (bucket_of_word w t Hne (wf_buckets _ Hwf)) as (b & head & Hb & Hr & Hhead).
  destruct (wf_chains _ Hwf _ _ Hhead) as [ls Hls].
  destruct (count_cases w t b head ls Hb Hhead Hls)
    as [(l & e & Hm & Hfm & He & Hw & Hc) | (Hm & Hfm & Hc)].
  - pose proof (wf_counts _ Hwf l e He) as Hrange.
    eexists. split; [exact Hc|]. split_and!.
    + apply wf_bump; [done | done | apply wrap_int_range].
    + intros b' ls' (head' & Hhead' & Hch'). exists ls'. split; [|done].
      exists head'. split; [done|]. simpl. by apply chain_bump.
    + intros l' e' He'. simpl. destruct (decide (l = l')) as [<-|Hnel].
      * rewrite lookup_insert_eq. simplify_eq. eexists. split; [done|]. simpl.
        split_and!; [done | done | congruence |].
        intros Hlt. rewrite wrap_int_small; unfold INT_MIN, INT_MAX in *; lia.
      * rewrite lookup_insert_ne by done. exists e'. split_and!; (done || lia).
    + intros l' e'. simpl. destruct (decide (l = l')) as [<-|Hnel].
      * rewrite lookup_insert_eq. congruence.
      * rewrite lookup_insert_ne by done. congruence.
    + intros Hmax Hone l' e'. simpl. destruct (decide (l = l')) as [<-|Hnel].
      * rewrite lookup_insert_eq. intros [= <-]. simpl.
        specialize (Hone l e He). specialize (Hmax l e Hm He).
        rewrite wrap_int_small; unfold INT_MIN, INT_MAX in *; lia.
      * rewrite lookup_insert_ne by done. apply Hone.
  - pose proof (alloc_fresh (heap t)) as Hfresh.
    eexists. split; [exact Hc|]. split_and!.
    + by apply wf_insert_front.
    + intros b' ls' (head' & Hhead' & Hch'). simpl.
      destruct (decide (Z.to_nat b = b')) as [<-|Hneb].
      * simplify_eq. exists (alloc (heap t) :: ls'). split; [|by apply suffix_cons_r].
        exists (Some (alloc (heap t))). simpl. split.
        -- apply list_lookup_insert_eq. by eapply lookup_lt_Some.
        -- apply (chain_entry _ _ (Entry head w 1)); [by rewrite lookup_insert_eq|].
           by apply chain_insert_fresh.
      * exists ls'. split; [|done]. exists head'. simpl. split.
        -- by rewrite list_lookup_insert_ne.
        -- by apply chain_insert_fresh.
    + intros l' e' He'. simpl. exists e'. split_and!; try (done || lia).
      rewrite lookup_insert_ne; [done|]. congruence.
    + intros l' e'. simpl. destruct (decide (alloc (heap t) = l')) as [<-|Hnel].
      * rewrite lookup_insert_eq. by intros [= <-] _.
      * rewrite lookup_insert_ne by done. congruence.
    + intros _ Hone l' e'. simpl. destruct (decide (alloc (heap t) = l')) as [<-|Hnel].
      * rewrite lookup_insert_eq. intros [= <-]. simpl. lia.
      * rewrite lookup_insert_ne by done. apply Hone.
Qed.

Lemma count_preserves_entries_witness :
  ∃ t', freq.count (bytes "a") counted_once_table = Some t' ∧ wf_table t' ∧
    (∀ b ls, bucket_chain counted_once_table b ls →
       ∃ ls', bucket_chain t' b ls' ∧ ls `suffix_of` ls') ∧
    (∀ l e, heap counted_once_table !! l = Some e →
       ∃ e', heap t' !! l = Some e' ∧ word e' = word e ∧ next e' = next e ∧
             (matched (bytes "a") counted_once_table ≠ Some (Some l) →
              count e' = count e) ∧
             (count e < INT_MAX → count e ≤ count e')) ∧
    (∀ l e, heap t' !! l = Some e → heap counted_once_table !! l = None →
            count e = 1) ∧
    ((∀ l e, matched (bytes "a") counted_once_table = Some (Some l) →
             heap counted_once_table !! l = Some e → count e < INT_MAX) →
     (∀ l e, heap counted_once_table !! l = Some e → 1 ≤ count e) →
     ∀ l e, heap t' !! l = Some e → 1 ≤ count e).
Proof.
  apply (count_preserves_entries (bytes "a") counted_once_table).
  - done.
  - apply counted_once_table_wf.
Defined.

(** C6: when the chain of the bucket [hash(word)] holds an entry with the
    bytes of the word, [count] returns and changes nothing but the count of
    the entry that the scan stops at: the head pointers, the set of
    entries, every [next] and every word, and the counts of all other
    entries are as before. *)
Theorem count_found_frame (w : cstring) (t : table) (b : Z) (ls : list loc)
    (l0 : loc) (e0 : entry) :
  freq.hash w = Some b → bucket_chain t (Z.to_nat b) ls →
  l0 ∈ ls → heap t !! l0 = Some e0 → word e0 = w →
  ∃ l e t',
    matched w t = Some (Some l) ∧ l ∈ ls ∧ heap t !! l = Some e ∧ word e = w ∧
    freq.count w t = Some t' ∧
    ht t' = ht t ∧
    dom (heap t') = dom (heap t) ∧
    heap t' !! l = Some (Entry (next e) (word e) (wrap_int (count e + 1))) ∧
    wrap_int (count e + 1) ≠ count e ∧
    (∀ l' e', heap t !! l' = Some e' →
       ∃ e'', heap t' !! l' = Some e'' ∧ next e'' = next e' ∧ word e'' = word e' ∧
              (l' ≠ l → count e'' = count e')).
Proof.
  intros Hb (head & Hhead & Hls) Hin He0 Hw0.
  destruct (count_cases w t b head ls Hb Hhead Hls)
    as [(l & e & Hm & Hfm & He & Hw & Hc) | (Hm & Hfm & Hc)].
  - exists l, e. eexists. split_and!; try done.
    + destruct Hfm as (ls1 & ls2 & ? & -> & _). apply elem_of_app. right. left.
    + simpl. apply dom_insert_lookup_L. by eexists.
    + simpl. by rewrite lookup_insert_eq.
    + apply wrap_int_succ_ne.
    + intros l' e' He'. simpl. destruct (decide (l = l')) as [<-|Hnel].
      * rewrite lookup_insert_eq. simplify_eq. eexists. by split_and!.
      * rewrite lookup_insert_ne by done. exists e'. by split_and!.
  - exfalso. by apply (Hfm l0 e0).
Qed.

Lemma count_found_frame_witness :
  ∃ l e t',
    matched (bytes "a") saturated_table = Some (Some l) ∧ l ∈ [0%nat] ∧
    heap saturated_table !! l = Some e ∧ word e = bytes "a" ∧
    freq.count (bytes "a") saturated_table = Some t' ∧
    ht t' = ht saturated_table ∧
    dom (heap t') = dom (heap saturated_table) ∧
    heap t' !! l = Some (Entry (next e) (word e) (wrap_int (count e + 1))) ∧
    wrap_int (count e + 1) ≠ count e ∧
    (∀ l' e', heap saturated_table !! l' = Some e' →
       ∃ e'', heap t' !! l' = Some e'' ∧ next e'' = next e' ∧ word e'' = word e' ∧
              (l' ≠ l → count e'' = count e')).
Proof.
  apply (count_found_frame (bytes "a") saturated_table 9875 [0%nat] 0%nat
           (Entry None [97] INT_MAX)).
  - reflexivity.
  - exists (Some 0%nat). split; [reflexivity|].
    apply (chain_entry _ _ (Entry None [97] INT_MAX)); [reflexivity | constructor].
  - left.
  - reflexivity.
  - reflexivity.
Defined.

(** ** One stream or two halves *)

(** C4, as the specification words it, fails for a cut inside a word: the
    text [ab] counted as one stream counts the word [ab] once; counted as
    [a] and then [b] it counts [ab] not at all. *)
Lemma cut_inside_word :
  ∃ t_one t_half t_two,
    freq.count_all_words name_files (replicate MAXWORD 0) "ab" empty_table
      = freq.Returns t_one ∧
    freq.count_all_words name_files (replicate MAXWORD 0) "a" empty_table
      = freq.Returns t_half ∧
    freq.count_all_words name_files (replicate MAXWORD 0) "b" t_half
      = freq.Returns t_two ∧
    bytes "ab" = bytes "a" ++ bytes "b" ∧
    word_total (bytes "ab") t_one = Some 1 ∧
    word_total (bytes "ab") t_two = Some 0 ∧
    word_total (bytes "ab") t_one ≠ word_total (bytes "ab") t_two.
Proof.
  eexists _, _, _.
  split; [by vm_compute|]. split; [by vm_compute|]. split; [by vm_compute|].
  split; [reflexivity|]. split; [by vm_compute|]. split; by vm_compute.
Qed.

(** C4, amended: when the cut is not between two alphabetic bytes, counting
    a text as one stream and counting its two halves by two calls, one
    after the other on the same table, both return and leave the same
    table, so the same count for every word. *)
Theorem count_split_stream (fs : string → option (list Z))
    (word0 word1 word2 : list Z) (f f1 f2 : string) (s1 s2 : list Z) (t : table) :
  length word0 = MAXWORD → length word1 = MAXWORD → length word2 = MAXWORD →
  fs f = Some (s1 ++ s2) → fs f1 = Some s1 → fs f2 = Some s2 →
  wf_table t → clean_cut s1 s2 →
  ∃ t_one t_half t_two,
    freq.count_all_words fs word0 f t = freq.Returns t_one ∧
    freq.count_all_words fs word1 f1 t = freq.Returns t_half ∧
    freq.count_all_words fs word2 f2 t_half = freq.Returns t_two ∧
    t_one = t_two ∧
    ∀ w, word_total w t_one = word_total w t_two.
Proof.
  intros H0 H1 H2 Hf Hf1 Hf2 Hwf Hcut. unfold freq.count_all_words.
  rewrite Hf, Hf1, Hf2.
  destruct (count_stream_wf word1 s1 t H1 Hwf) as (t_half & Hhalf & Hwf_half).
  destruct (count_stream_wf word2 s2 t_half H2 Hwf_half) as (t_two & Htwo & _).
  assert (Hone : freq.count_stream freq.count word0 (s1 ++ s2) t = Some t_two).
  { rewrite count_stream_split in * by done.
    rewrite split_words_clean_cut by done.
    rewrite count_each_app, Hhalf. done. }
  exists t_two, t_half, t_two. rewrite Hone, Hhalf, Htwo. done.
Qed.

Lemma count_split_stream_witness :
  ∃ t_one t_half t_two,
    freq.count_all_words name_files (replicate MAXWORD 0) "the cat the dog" empty_table
      = freq.Returns t_one ∧
    freq.count_all_words name_files (replicate MAXWORD 0) "the cat" empty_table
      = freq.Returns t_half ∧
    freq.count_all_words name_files (replicate MAXWORD 0) " the dog" t_half
      = freq.Returns t_two ∧
    t_one = t_two ∧
    ∀ w, word_total w t_one = word_total w t_two.
Proof.
  apply (count_split_stream name_files (replicate MAXWORD 0) (replicate MAXWORD 0)
           (replicate MAXWORD 0) "the cat the dog" "the cat" " the dog"
           (bytes "the cat") (bytes " the dog") empty_table).
  - apply length_replicate.
  - apply length_replicate.
  - apply length_replicate.
  - reflexivity.
  - reflexivity.
  - reflexivity.
  - apply empty_table_wf.
  - intros s1' a b s2' _ [= <- _]. by right.
Defined.

(** ** The driver *)

Lemma ended_final w p :
  (∀ tr t ths, p ≠ Running tr t ths) → final w p.
Proof. intros Hp p' Hstep. destruct Hstep; by eapply Hp. Qed.

(** C9: with fewer than two operands [main] writes to the error stream the
    line made of [usage: ], the name of the program, [ pmemfile
    wordfiles...] and a newline, and leaves through [exit(1)]; the pool has
    not been opened and nothing follows. *)
Theorem main_usage (w : world) (prog : string) (operands : list string) :
  (length operands < 2)%nat →
  main_start w prog operands
  = Exited [Stderr ("usage: " +:+ prog +:+ " pmemfile wordfiles..."
                    +:+ String (Ascii.ascii_of_nat 10) EmptyString)] 1 None ∧
  final w (main_start w prog operands) ∧
  pool_of (main_start w prog operands) = None ∧
  ∀ path layout, PoolOpen path layout ∉ trace_of (main_start w prog operands).
Proof.
  intros Hlen. unfold main_start.
  rewrite decide_True by (simpl length; lia).
  split_and!; try done.
  - by apply ended_final.
  - intros path layout Hin. simpl in Hin.
    apply list_elem_of_singleton in Hin. discriminate.
Qed.

Lemma main_usage_witness :
  main_start one_input_world "freq" ["pool"]
  = Exited [Stderr ("usage: freq pmemfile wordfiles..."
                    +:+ String (Ascii.ascii_of_nat 10) EmptyString)] 1 None ∧
  final one_input_world (main_start one_input_world "freq" ["pool"]) ∧
  pool_of (main_start one_input_world "freq" ["pool"]) = None ∧
  ∀ path layout,
    PoolOpen path layout ∉ trace_of (main_start one_input_world "freq" ["pool"]).
Proof.
  apply (main_usage one_input_world "freq" ["pool"]). simpl. lia.
Defined.

(** C8, as the specification words it, fails: when [a.txt] cannot be opened
    the process can end through [std::terminate] before the thread of
    [b.txt] has counted its word. *)
Lemma fopen_failure_stops_all :
  files one_input_world "a.txt" = None ∧
  ¬ (∀ p, rtc (step one_input_world)
              (main_start one_input_world "freq" ["pool"; "a.txt"; "b.txt"]) p →
          final one_input_world p →
          failed p ∧ ∃ t, pool_of p = Some t ∧
            others_counted one_input_world ["pool"; "a.txt"; "b.txt"] t).
Proof.
  split; [reflexivity|]. intros Hclaim.
  set (p := Terminated [PoolOpen "pool" LAYOUT] (Some empty_table)).
  destruct (Hclaim p) as (_ & t & Ht & Hothers).
  - apply rtc_once. apply (step_fopen_fails _ _ _ _ 0%nat "a.txt"); reflexivity.
  - by apply ended_final.
  - simpl in Ht. injection Ht as <-.
    destruct (Hothers "b.txt" (bytes "x") (replicate MAXWORD 0) [bytes "x"] (bytes "x"))
      as (c & Hc & Hpos).
    + simpl. right. left.
    + reflexivity.
    + apply length_replicate.
    + by vm_compute.
    + left.
    + vm_compute in Hc. injection Hc as <-. lia.
Qed.

(** A thread that has not yet called [fopen] on a file that cannot be
    opened stays so until it runs. *)
Lemma fopen_pending_step w p p' :
  fopen_pending w p → step w p p' → fopen_pending w p'.
Proof.
  intros Hp Hstep.
  assert (Hkeep : ∀ (ths : list worker) (i : nat) th th',
            (∃ j g, ths !! j = Some (Spawned g) ∧ files w g = None) →
            ths !! i = Some th → (∀ g, files w g = None → th ≠ Spawned g) →
            ∃ j g, <[i := th']> ths !! j = Some (Spawned g) ∧ files w g = None).
  { intros ths i th th' (j & g & Hj & Hg) Hi Hth. exists j, g. split; [|done].
    rewrite list_lookup_insert_ne; [done|]. intros ->. simplify_eq. by eapply Hth. }
  destruct Hstep as
    [tr t ths i fname s word0 ws Hi Hf _ _ | tr t ths i fname Hi Hf
    | tr t ths i x ws Hi | tr t ths i c ws c' t' Hi _ | tr t ths i x ws Hi
    | tr t ths i Hi | tr t ths Hall]; simpl in *.
  - eapply Hkeep; [done | done |]. intros g Hg [= <-]. congruence.
  - done.
  - by eapply Hkeep.
  - by eapply Hkeep.
  - by eapply Hkeep.
  - by eapply Hkeep.
  - destruct Hp as (j & g & Hj & Hg).
    rewrite List.Forall_forall in Hall.
    assert (Hin : In (Spawned g) ths).
    { apply list_elem_of_In. by eapply list_elem_of_lookup_2. }
    specialize (Hall _ Hin). discriminate.
Qed.

Lemma fopen_pending_rtc w p p' :
  fopen_pending w p → rtc (step w) p p' → fopen_pending w p'.
Proof. intros Hp Hsteps. induction Hsteps; eauto using fopen_pending_step. Qed.

Lemma fopen_pending_start w prog operands f :
  f ∈ drop 1 operands → files w f = None →
  fopen_pending w (main_start w prog operands).
Proof.
  intros Hin Hf. unfold main_start. case_decide; [simpl; lia|].
  destruct (pool_at w _ LAYOUT) as [q|]; simpl; [|done].
  apply list_elem_of_lookup in Hin as [i Hi]. exists i, f. split; [|done].
  by rewrite list_lookup_fmap, Hi.
Qed.

(** C8, amended: when an input file cannot be opened, the exception of its
    thread meets no handler: the process never leaves through [exit(0)],
    every run that has ended has ended through [std::terminate], and such
    an end can be reached. *)
Theorem fopen_failure_terminates (w : world) (prog : string)
    (operands : list string) (f : string) :
  f ∈ drop 1 operands → files w f = None →
  (∀ p, rtc (step w) (main_start w prog operands) p →
        (∀ tr pool, p ≠ Exited tr 0 pool) ∧
        (final w p → failed p ∧ ∃ tr pool, p = Terminated tr pool)) ∧
  (∃ p, rtc (step w) (main_start w prog operands) p ∧ final w p ∧ failed p).
Proof.
  intros Hin Hf. pose proof (fopen_pending_start w prog operands f Hin Hf) as Hstart.
  split.
  - intros p Hsteps. pose proof (fopen_pending_rtc _ _ _ Hstart Hsteps) as Hp.
    split.
    + intros tr pool ->. by simpl in Hp.
    + intros Hfinal. destruct p as [tr t ths | tr code pool | tr pool]; simpl in Hp.
      * destruct Hp as (i & g & Hi & Hg). exfalso.
        by apply (Hfinal (Terminated tr (Some t))), (step_fopen_fails _ _ _ _ i g).
      * exfalso. apply rtc_inv_r in Hsteps as [Heq | (p0 & _ & Hlast)].
        -- unfold main_start in Heq. case_decide; [|by destruct (pool_at w _ LAYOUT)].
           revert Hin. destruct operands as [|? [|? ?]]; simpl in *; try lia;
             by intros ?%elem_of_nil.
        -- inversion Hlast; subst. done.
      * split; [done | by eexists _, _].
  - destruct (main_start w prog operands) as [tr t ths | tr code pool | tr pool] eqn:Hm;
      simpl in Hstart.
    + destruct Hstart as (i & g & Hi & Hg). exists (Terminated tr (Some t)).
      split; [|split; [by apply ended_final | done]].
      apply rtc_once. by apply (step_fopen_fails _ _ _ _ i g).
    + exists (Exited tr code pool). split; [done|]. split; [by apply ended_final | done].
    + exists (Terminated tr pool). split; [done|]. split; [by apply ended_final | done].
Qed.

Lemma fopen_failure_terminates_witness :
  (∀ p, rtc (step one_input_world)
            (main_start one_input_world "freq" ["pool"; "a.txt"; "b.txt"]) p →
        (∀ tr pool, p ≠ Exited tr 0 pool) ∧
        (final one_input_world p → failed p ∧ ∃ tr pool, p = Terminated tr pool)) ∧
  (∃ p, rtc (step one_input_world)
            (main_start one_input_world "freq" ["pool"; "a.txt"; "b.txt"]) p ∧
        final one_input_world p ∧ failed p).
Proof.
  apply (fopen_failure_terminates one_input_world "freq" ["pool"; "a.txt"; "b.txt"] "a.txt").
  - simpl. left.
  - reflexivity.
Defined.

(** * Further properties of the table *)

Lemma scan_found_word fuel h w : ∀ p l,
  freq.scan fuel h w p = Some (Some l) → ∃ e, h !! l = Some e ∧ word e = w.
Proof.
  induction fuel as [|fuel IH]; intros [l0|] l Hs; simpl in Hs; try done.
  destruct (h !! l0) as [e0|] eqn:He0; simpl in Hs; [|done].
  destruct (strcmp_eq w (word e0)) eqn:Hcmp.
  - simplify_eq. apply strcmp_eq_true in Hcmp. by exists e0.
  - by eapply IH.
Qed.

(** More fuel does not change the result of a scan that ended. *)
Lemma scan_fuel_S fuel h w : ∀ p r,
  freq.scan fuel h w p = Some r → freq.scan (S fuel) h w p = Some r.
Proof.
  induction fuel as [|fuel IH]; intros [l0|] r Hs; simpl in Hs; try done.
  cbn [freq.scan]. destruct (h !! l0) as [e0|]; simpl in *; [|done].
  destruct (strcmp_eq w (word e0)); [done|]. by apply IH.
Qed.

(** A new entry at a location that was free is not met by the scans of the
    chains that were there. *)
Lemma scan_insert_fresh fuel h w l e : ∀ p r,
  h !! l = None →
  freq.scan fuel h w p = Some r → freq.scan fuel (<[l := e]> h) w p = Some r.
Proof.
  induction fuel as [|fuel IH]; intros [l0|] r Hl Hs; simpl in Hs; try done.
  cbn [freq.scan]. destruct (h !! l0) as [e0|] eqn:He0; simpl in Hs; [|done].
  rewrite lookup_insert_ne by congruence. rewrite He0. simpl.
  destruct (strcmp_eq w (word e0)); [done|]. by apply IH.
Qed.

Lemma matched_found_word w t l :
  matched w t = Some (Some l) → ∃ e, heap t !! l = Some e ∧ word e = w.
Proof.
  unfold matched. intros Hm.
  destruct (freq.hash w) as [h|]; simpl in Hm; [|done].
  destruct (ht t !! Z.to_nat h) as [head|]; simpl in Hm; [|done].
  by eapply scan_found_word.
Qed.

(** On a well-formed table the scan for any word that is not empty ends. *)
Lemma matched_wf w t :
  w ≠ [] → wf_table t → ∃ r, matched w t = Some r.
Proof.
  intros Hne Hwf.
  destruct (bucket_of_word w t Hne (wf_buckets _ Hwf)) as (b & head & Hb & Hr & Hhead).
  destruct (wf_chains _ Hwf _ _ Hhead) as [ls Hls].
  destruct (scan_chain (heap t) w head ls (size (heap t)) Hls (chain_length _ _ _ Hls))
    as (r & Hscan & _).
  exists r. unfold matched. rewrite Hb. simpl. rewrite Hhead. simpl. done.
Qed.

(** The scan for another word after a count was written. *)
Lemma matched_bump x t l e c :
  heap t !! l = Some e →
  matched x (Table (<[l := Entry (next e) (word e) c]> (heap t)) (ht t)) = matched x t.
Proof.
  intros He. unfold matched. simpl.
  destruct (freq.hash x) as [h|]; simpl; [|done].
  destruct (ht t !! Z.to_nat h) as [head|]; simpl; [|done].
  rewrite map_size_insert_Some by done. by apply scan_bump.
Qed.

Lemma matched_insert_front x w t b head r :
  x ≠ w → freq.hash w = Some b → 0 ≤ b < NBUCKETS →
  ht t !! Z.to_nat b = Some head →
  matched x t = Some r →
  matched x (Table (<[alloc (heap t) := Entry head w 1]> (heap t))
                   (<[Z.to_nat b := Some (alloc (heap t))]> (ht t))) = Some r.
Proof.
  intros Hxw Hb Hr Hhead. unfold matched. simpl.
  destruct (freq.hash x) as [hx|] eqn:Hx; simpl; [|done].
  pose proof (hash_range _ _ Hx) as Hrx.
  pose proof (alloc_fresh (heap t)) as Hfresh.
  rewrite map_size_insert_None by done.
  destruct (decide (hx = b)) as [->|Hne].
  - rewrite Hhead. simpl. intros Hs.
    rewrite list_lookup_insert_eq by by eapply lookup_lt_Some. simpl.
    rewrite lookup_insert_eq. simpl.
    unfold strcmp_eq. rewrite bool_decide_eq_false_2 by done.
    by apply scan_insert_fresh.
  - rewrite list_lookup_insert_ne by lia.
    destruct (ht t !! Z.to_nat hx) as [hd|]; simpl; [|done]. intros Hs.
    apply scan_fuel_S. by apply scan_insert_fresh.
Qed.

(** [count] leaves the count of every other word as it was. *)
Lemma count_other_total w x t t' :
  w ≠ [] → wf_table t → x ≠ w → freq.count w t = Some t' →
  word_total x t' = word_total x t.
Proof.
  intros Hne Hwf Hxw Hcount.
  destruct (bucket_of_word w t Hne (wf_buckets _ Hwf)) as (b & head & Hb & Hr & Hhead).
  destruct (wf_chains _ Hwf _ _ Hhead) as [ls Hls].
  destruct x as [|c0 x0].
  { unfold word_total, matched. done. }
  destruct (matched_wf (c0 :: x0) t ltac:(done) Hwf) as [r Hmx].
  destruct (count_cases w t b head ls Hb Hhead Hls)
    as [(l & e & Hm & Hfm & He & Hw & Hc) | (Hm & Hfm & Hc)];
    rewrite Hc in Hcount; injection Hcount as <-.
  - unfold word_total. rewrite matched_bump by done. rewrite Hmx. simpl.
    destruct r as [l'|]; [|done]. cbn [heap].
    destruct (matched_found_word _ _ _ Hmx) as (e' & He' & Hw').
    rewrite lookup_insert_ne; [done|]. intros ->. simplify_eq.
  - unfold word_total.
    rewrite (matched_insert_front _ w t b head r) by done. rewrite Hmx. simpl.
    destruct r as [l'|]; [|done]. cbn [heap].
    destruct (matched_found_word _ _ _ Hmx) as (e' & He' & Hw').
    rewrite lookup_insert_ne; [done|]. intros E.
    pose proof (alloc_fresh (heap t)) as Hfresh. rewrite E in Hfresh. congruence.
Qed.

(** [count] adds one to the count of its word, the [int] permitting. *)
Lemma count_same_total w t c :
  w ≠ [] → wf_table t → word_total w t = Some c → c < INT_MAX →
  ∃ t', freq.count w t = Some t' ∧ wf_table t' ∧ word_total w t' = Some (c + 1).
Proof.
  intros Hne Hwf Htot Hlt.
  destruct (bucket_of_word w t Hne (wf_buckets _ Hwf)) as (b & head & Hb & Hr & Hhead).
  destruct (wf_chains _ Hwf _ _ Hhead) as [ls Hls].
  destruct (count_cases w t b head ls Hb Hhead Hls)
    as [(l & e & Hm & Hfm & He & Hw & Hc) | (Hm & Hfm & Hc)].
  - unfold word_total in Htot. rewrite Hm in Htot. simpl in Htot.
    rewrite He in Htot. injection Htot as <-.
    pose proof (wf_counts _ Hwf l e He) as Hrange.
    assert (Hwrap : wrap_int (count e + 1) = count e + 1)
      by (apply wrap_int_small; unfold INT_MIN, INT_MAX in *; lia).
    rewrite Hwrap in Hc. eexists. split; [exact Hc|]. split.
    + apply wf_bump; [done | done | unfold INT_MIN, INT_MAX in *; lia].
    + by eapply word_total_bumped.
  - unfold word_total in Htot. rewrite Hm in Htot. injection Htot as <-.
    eexists. split; [exact Hc|]. split.
    + by apply wf_insert_front.
    + by apply word_total_inserted.
Qed.

Lemma occurrences_cons x w ws :
  occurrences x (w :: ws) = (if decide (w = x) then 1 else 0) + occurrences x ws.
Proof.
  unfold occurrences. rewrite filter_cons. case_decide; simpl length; lia.
Qed.

Lemma occurrences_nonneg x ws : 0 ≤ occurrences x ws.
Proof. unfold occurrences. lia. Qed.

(** The counts after a list of words has been counted. *)
Lemma count_each_total ws : ∀ t x c,
  wf_table t → Forall (λ w, w ≠ []) ws →
  word_total x t = Some c → c + occurrences x ws ≤ INT_MAX →
  ∃ t', count_each freq.count ws t = Some t' ∧ wf_table t' ∧
        word_total x t' = Some (c + occurrences x ws).
Proof.
  induction ws as [|w ws IH]; intros t x c Hwf Hws Htot Hmax.
  - exists t. unfold occurrences. simpl. by rewrite Z.add_0_r.
  - inversion Hws as [|?? Hw Hws']; subst.
    rewrite occurrences_cons in *. pose proof (occurrences_nonneg x ws) as Hnn.
    cbn [count_each]. destruct (decide (w = x)) as [->|Hne].
    + destruct (count_same_total x t c Hw Hwf Htot ltac:(lia)) as (t1 & -> & Hwf1 & Htot1).
      simpl. destruct (IH t1 x (c + 1) Hwf1 Hws' Htot1 ltac:(lia)) as (t' & Hc' & Hwf' & Ht').
      exists t'. split_and!; try done. all: rewrite Ht'; f_equal; lia.
    + destruct (count_wf w t Hw Hwf) as (t1 & Hc1 & Hwf1). rewrite Hc1. simpl.
      assert (Htot1 : word_total x t1 = Some c).
      { rewrite (count_other_total w x t t1) by done. done. }
      destruct (IH t1 x c Hwf1 Hws' Htot1 ltac:(lia)) as (t' & Hc' & Hwf' & Ht').
      exists t'. split_and!; try done. all: rewrite Ht'; f_equal; lia.
Qed.

(** ** One entry for each word *)

Lemma chain_bump_inv h p ls l e c :
  h !! l = Some e →
  chain (<[l := Entry (next e) (word e) c]> h) p ls → chain h p ls.
Proof.
  intros He Hch.
  pose proof (chain_bump _ p ls l (Entry (next e) (word e) c) (count e) Hch
                ltac:(by rewrite lookup_insert_eq)) as H.
  simpl in H. rewrite insert_insert_eq in H.
  rewrite insert_id in H; [done|]. by destruct e.
Qed.

Lemma chain_words_bump h ls l e c :
  h !! l = Some e →
  chain_words (<[l := Entry (next e) (word e) c]> h) ls = chain_words h ls.
Proof.
  intros He. unfold chain_words. apply list_fmap_ext. intros _ l' _.
  destruct (decide (l = l')) as [<-|Hne].
  - by rewrite lookup_insert_eq, He.
  - by rewrite lookup_insert_ne.
Qed.

Lemma chain_words_insert_fresh h p ls l e :
  chain h p ls → h !! l = None →
  chain_words (<[l := e]> h) ls = chain_words h ls.
Proof.
  intros Hch Hl. unfold chain_words. apply list_fmap_ext. intros i l' Hi.
  rewrite lookup_insert_ne; [done|]. intros <-.
  destruct (chain_lookup h p ls l Hch) as [? ?]; [|congruence].
  by eapply list_elem_of_lookup_2.
Qed.

Lemma elem_of_chain_words h ls w :
  Some w ∈ chain_words h ls → ∃ l e, l ∈ ls ∧ h !! l = Some e ∧ word e = w.
Proof.
  unfold chain_words. intros (l & Hl & Hin)%list_elem_of_fmap.
  destruct (h !! l) as [e|] eqn:He; simplify_eq/=. by exists l, e.
Qed.

Lemma NoDup_fmap_eq {A B} (f : A → B) (ls : list A) x y :
  NoDup (f <$> ls) → x ∈ ls → y ∈ ls → f x = f y → x = y.
Proof.
  induction ls as [|a ls IH]; intros Hnd Hx Hy Hf.
  - by apply elem_of_nil in Hx.
  - rewrite fmap_cons in Hnd. apply NoDup_cons in Hnd as [Hnotin Hnd].
    apply elem_of_cons in Hx as [->|Hx]; apply elem_of_cons in Hy as [->|Hy]; try done.
    + exfalso. apply Hnotin. rewrite Hf. by apply list_elem_of_fmap_2.
    + exfalso. apply Hnotin. rewrite <- Hf. by apply list_elem_of_fmap_2.
    + by apply IH.
Qed.

Lemma empty_table_inv : table_inv empty_table.
Proof.
  assert (Hch : ∀ b ls, bucket_chain empty_table b ls → ls = []).
  { intros b ls (head & Hhead & Hch). unfold empty_table in *. cbn [ht heap] in *.
    apply lookup_replicate in Hhead as [-> _]. by inversion Hch. }
  split.
  - intros b ls l e Hb Hin. rewrite (Hch b ls Hb) in Hin. by apply elem_of_nil in Hin.
  - intros b ls Hb. rewrite (Hch b ls Hb). constructor.
Qed.

(** [count] keeps every entry in the bucket of its word, and adds no second
    entry for a word. *)
Lemma count_table_inv w t t' :
  w ≠ [] → wf_table t → table_inv t → freq.count w t = Some t' → table_inv t'.
Proof.
  intros Hne Hwf [Hbucket Hunique] Hcount.
  destruct (bucket_of_word w t Hne (wf_buckets _ Hwf)) as (b & head & Hb & Hr & Hhead).
  destruct (wf_chains _ Hwf _ _ Hhead) as [ls Hls].
  destruct (count_cases w t b head ls Hb Hhead Hls)
    as [(l & e & Hm & Hfm & He & Hw & Hc) | (Hm & Hfm & Hc)];
    rewrite Hc in Hcount; injection Hcount as <-.
  - assert (Hold : ∀ b' ls', bucket_chain
        (Table (<[l := Entry (next e) (word e) (wrap_int (count e + 1))]> (heap t)) (ht t))
        b' ls' → bucket_chain t b' ls').
    { intros b' ls' (head' & Hhead' & Hch'). exists head'. split; [done|].
      by eapply chain_bump_inv. }
    split.
    + intros b' ls' l' e' Hb' Hin He'. cbn [heap] in He'.
      destruct (decide (l = l')) as [<-|Hnel].
      * rewrite lookup_insert_eq in He'. simplify_eq. simpl.
        by eapply (Hbucket b' ls' l e); [apply Hold | |].
      * rewrite lookup_insert_ne in He' by done.
        by eapply (Hbucket b' ls' l' e'); [apply Hold | |].
    + intros b' ls' Hb'. cbn [heap]. rewrite chain_words_bump by done.
      by eapply Hunique, Hold.
  - pose proof (alloc_fresh (heap t)) as Hfresh.
    set (new := alloc (heap t)) in *.
    assert (Hshape : ∀ b' ls', bucket_chain
        (Table (<[new := Entry head w 1]> (heap t)) (<[Z.to_nat b := Some new]> (ht t)))
        b' ls' →
        (b' = Z.to_nat b ∧ ls' = new :: ls) ∨ (b' ≠ Z.to_nat b ∧ bucket_chain t b' ls')).
    { intros b' ls' (head' & Hhead' & Hch'). cbn [ht heap] in *.
      destruct (decide (Z.to_nat b = b')) as [<-|Hneb].
      - left. split; [done|].
        rewrite list_lookup_insert_eq in Hhead' by by eapply lookup_lt_Some.
        simplify_eq. inversion Hch' as [|?? ls'' He'' Hch'']; subst.
        rewrite lookup_insert_eq in He''. simplify_eq. simpl in Hch''.
        f_equal. eapply chain_functional; [exact Hch''|].
        by apply chain_insert_fresh.
      - right. split; [done|]. rewrite list_lookup_insert_ne in Hhead' by done.
        destruct (wf_chains _ Hwf _ _ Hhead') as [ls0 Hls0].
        exists head'. split; [done|].
        assert (ls' = ls0) as ->; [|done].
        eapply chain_functional; [exact Hch'|]. by apply chain_insert_fresh. }
    assert (Hkeep : ∀ p ls0 l', chain (heap t) p ls0 → l' ∈ ls0 →
              <[new := Entry head w 1]> (heap t) !! l' = heap t !! l').
    { intros p ls0 l' Hch0 Hin. rewrite lookup_insert_ne; [done|]. intros <-.
      destruct (chain_lookup _ _ _ new Hch0 Hin). congruence. }
    split.
    + intros b' ls' l' e' Hb' Hin He'. cbn [heap] in He'.
      destruct (Hshape b' ls' Hb') as [[-> ->] | [Hneb (head' & Hhead' & Hch')]].
      * apply elem_of_cons in Hin as [->|Hin].
        -- rewrite lookup_insert_eq in He'. simplify_eq. simpl. by exists b.
        -- rewrite (Hkeep _ _ _ Hls Hin) in He'.
           eapply (Hbucket (Z.to_nat b) ls l' e'); [by exists head | done | done].
      * rewrite (Hkeep _ _ _ Hch' Hin) in He'.
        eapply (Hbucket b' ls' l' e'); [by exists head' | done | done].
    + intros b' ls' Hb'. cbn [heap].
      destruct (Hshape b' ls' Hb') as [[-> ->] | [Hneb (head' & Hhead' & Hch')]].
      * unfold chain_words. rewrite fmap_cons. fold (chain_words (<[new := Entry head w 1]> (heap t)) ls).
        rewrite lookup_insert_eq. simpl.
        rewrite (chain_words_insert_fresh _ head) by done.
        apply NoDup_cons. split.
        -- intros (l' & e' & Hin & He' & Hw')%elem_of_chain_words.
           by apply (Hfm l' e').
        -- apply (Hunique (Z.to_nat b)). by exists head.
      * rewrite (chain_words_insert_fresh _ head') by done.
        apply (Hunique b'). by exists head'.
Qed.

(** With one entry for each word, the scan for the word of an entry stops
    at that entry. *)
Lemma entry_matched t b ls l e :
  table_inv t → bucket_chain t b ls → l ∈ ls → heap t !! l = Some e →
  matched (word e) t = Some (Some l).
Proof.
  intros [Hbucket Hunique] Hb Hin He.
  destruct (Hbucket b ls l e Hb Hin He) as (h & Hh & <-).
  pose proof (Hunique _ ls Hb) as Hnd.
  destruct Hb as (head & Hhead & Hch).
  destruct (scan_chain (heap t) (word e) head ls (size (heap t)) Hch
              (chain_length _ _ _ Hch)) as (r & Hscan & Hfm).
  unfold matched. rewrite Hh. simpl. rewrite Hhead. simpl. rewrite Hscan.
  do 2 f_equal. destruct r as [l1|]; simpl in Hfm.
  - destruct Hfm as (ls1 & ls2 & e1 & Hls & He1 & Hw1 & _). f_equal.
    apply (NoDup_fmap_eq (λ l, word <$> heap t !! l) ls); [done | | done |].
    + rewrite Hls. apply elem_of_app. right. left.
    + rewrite He1, He. simpl. by rewrite Hw1.
  - by destruct (Hfm l e Hin He).
Qed.

Lemma count_each_table_inv ws : ∀ t,
  wf_table t → table_inv t → Forall (λ w, w ≠ []) ws →
  ∃ t', count_each freq.count ws t = Some t' ∧ wf_table t' ∧ table_inv t'.
Proof.
  induction ws as [|w ws IH]; intros t Hwf Hinv Hws; simpl.
  - by exists t.
  - inversion Hws as [|?? Hw Hws']; subst.
    destruct (count_wf w t Hw Hwf) as (t1 & Hc1 & Hwf1). rewrite Hc1. simpl.
    apply IH; [done | by apply (count_table_inv w t t1) | done].
Qed.

(** ** Properties of [hash], [count] and [count_all_words] beyond the
    specification *)

(** X1: on every word that is not empty, whatever the values of its
    [char]s, [hash] gives an index below [NBUCKETS]: the access [ht[h]] of
    [count] is inside the array of buckets. *)
Theorem hash_bucket_in_bounds (w : cstring) (t : table) :
  w ≠ [] → length (ht t) = Z.to_nat NBUCKETS →
  ∃ h, freq.hash w = Some h ∧ 0 ≤ h < NBUCKETS ∧ is_Some (ht t !! Z.to_nat h).
Proof.
  intros Hne Hlen.
  destruct (bucket_of_word w t Hne Hlen) as (b & head & Hb & Hr & Hhead).
  exists b. split_and!; [done | lia | lia | by eexists].
Qed.

Lemma hash_bucket_in_bounds_witness :
  ∃ h, freq.hash [-61; -87; 116; -61; -87] = Some h ∧ 0 ≤ h < NBUCKETS ∧
       is_Some (ht empty_table !! Z.to_nat h).
Proof.
  apply (hash_bucket_in_bounds [-61; -87; 116; -61; -87] empty_table).
  - done.
  - apply length_replicate.
Defined.

(** X2: [count(word)] changes the count of no other word: for every word
    other than the one counted, the count found in the table after the call
    is the count found before it. *)
Theorem count_leaves_other_words (w x : cstring) (t : table) :
  w ≠ [] → wf_table t → x ≠ w →
  ∃ t', freq.count w t = Some t' ∧ word_total x t' = word_total x t.
Proof.
  intros Hne Hwf Hxw. destruct (count_wf w t Hne Hwf) as (t' & Hc & _).
  exists t'. split; [done|]. by apply (count_other_total w x t t').
Qed.

Lemma count_leaves_other_words_witness :
  ∃ t', freq.count (bytes "b") saturated_table = Some t' ∧
        word_total (bytes "a") t' = word_total (bytes "a") saturated_table.
Proof.
  apply (count_leaves_other_words (bytes "b") (bytes "a") saturated_table).
  - done.
  - apply saturated_table_wf.
  - done.
Defined.

(** X3: [count_all_words] counts: when the file opens, the call returns,
    and the count of every word has grown by the number of times the word
    stands among the words of the file (zero for a word that is not in the
    file), as long as the count fits an [int]. *)
Theorem count_all_words_totals (fs : string → option (list Z))
    (word0 : list Z) (f : string) (s : list Z) (ws : list cstring)
    (t : table) (x : cstring) (c : Z) :
  fs f = Some s → length word0 = MAXWORD → wf_table t →
  freq.tokens word0 s = Some ws →
  word_total x t = Some c → c + occurrences x ws ≤ INT_MAX →
  ∃ t', freq.count_all_words fs word0 f t = freq.Returns t' ∧ wf_table t' ∧
        word_total x t' = Some (c + occurrences x ws).
Proof.
  intros Hf Hlen Hwf Htok Htot Hmax.
  rewrite tokens_split in Htok by done. injection Htok as <-.
  destruct (count_each_total (split_words None s) t x c Hwf
              (split_words_nonempty s) Htot Hmax) as (t' & Hc & Hwf' & Ht').
  exists t'. split_and!; try done.
  unfold freq.count_all_words. rewrite Hf.
  by rewrite count_stream_split, Hc.
Qed.

Lemma count_all_words_totals_witness :
  ∃ t', freq.count_all_words name_files (replicate MAXWORD 0) "the cat the dog"
          empty_table = freq.Returns t' ∧ wf_table t' ∧
        word_total (bytes "the") t'
        = Some (0 + occurrences (bytes "the")
                      [bytes "the"; bytes "cat"; bytes "the"; bytes "dog"]).
Proof.
  apply (count_all_words_totals name_files (replicate MAXWORD 0) "the cat the dog"
           (bytes "the cat the dog")
           [bytes "the"; bytes "cat"; bytes "the"; bytes "dog"] empty_table
           (bytes "the") 0).
  - reflexivity.
  - apply length_replicate.
  - apply empty_table_wf.
  - by vm_compute.
  - by vm_compute.
  - by vm_compute.
Defined.

(** X4: [count_all_words] keeps one entry for each word: on a table in
    which every entry stands in the bucket of its word and no chain holds a
    word twice, the call leaves such a table, and the scan for the word of
    any entry of the table stops at that very entry, so the count that is
    found for the word is the count of the entry. *)
Theorem count_all_words_one_entry (fs : string → option (list Z))
    (word0 : list Z) (f : string) (s : list Z) (t : table) :
  fs f = Some s → length word0 = MAXWORD → wf_table t → table_inv t →
  ∃ t', freq.count_all_words fs word0 f t = freq.Returns t' ∧
        wf_table t' ∧ table_inv t' ∧
        ∀ b ls l e, bucket_chain t' b ls → l ∈ ls → heap t' !! l = Some e →
          matched (word e) t' = Some (Some l) ∧
          word_total (word e) t' = Some (count e).
Proof.
  intros Hf Hlen Hwf Hinv.
  destruct (count_each_table_inv (split_words None s) t Hwf Hinv
              (split_words_nonempty s)) as (t' & Hc & Hwf' & Hinv').
  exists t'. split_and!; try done.
  - unfold freq.count_all_words. rewrite Hf.
    by rewrite count_stream_split, Hc.
  - intros b ls l e Hb Hin He.
    pose proof (entry_matched t' b ls l e Hinv' Hb Hin He) as Hm.
    split; [done|]. unfold word_total. rewrite Hm. simpl. by rewrite He.
Qed.

Lemma count_all_words_one_entry_witness :
  ∃ t', freq.count_all_words name_files (replicate MAXWORD 0) "the cat the dog"
          empty_table = freq.Returns t' ∧
        wf_table t' ∧ table_inv t' ∧
        ∀ b ls l e, bucket_chain t' b ls → l ∈ ls → heap t' !! l = Some e →
          matched (word e) t' = Some (Some l) ∧
          word_total (word e) t' = Some (count e).
Proof.
  apply (count_all_words_one_entry name_files (replicate MAXWORD 0)
           "the cat the dog" (bytes "the cat the dog") empty_table).
  - reflexivity.
  - apply length_replicate.
  - apply empty_table_wf.
  - apply empty_table_inv.
Defined.

(** X5: [count_all_words] throws [runtime_error("fopen: " + fname)] when
    the file does not open; when it opens, the call returns on every stream
    and every well-formed table, leaves a well-formed table, and the result
    does not depend on what the array [word] held before the call. *)
Theorem count_all_words_returns (fs : string → option (list Z))
    (word0 : list Z) (f : string) (t : table) :
  (fs f = None →
   freq.count_all_words fs word0 f t = freq.Throws ("fopen: " +:+ f)) ∧
  (∀ s, fs f = Some s → length word0 = MAXWORD → wf_table t →
     ∃ t', freq.count_all_words fs word0 f t = freq.Returns t' ∧ wf_table t' ∧
           ∀ word1, length word1 = MAXWORD →
                    freq.count_all_words fs word1 f t = freq.Returns t').
Proof.
  unfold freq.count_all_words. split.
  - by intros ->.
  - intros s Hf Hlen Hwf. rewrite Hf.
    destruct (count_stream_wf word0 s t Hlen Hwf) as (t' & Hc & Hwf').
    exists t'. rewrite Hc. split_and!; try done.
    intros word1 Hlen1.
    rewrite count_stream_split in Hc by done.
    by rewrite count_stream_split, Hc.
Qed.

Lemma count_all_words_returns_witness :
  ∃ t', freq.count_all_words name_files (replicate MAXWORD 0) "to be" empty_table
        = freq.Returns t' ∧ wf_table t' ∧
        ∀ word1, length word1 = MAXWORD →
                 freq.count_all_words name_files word1 "to be" empty_table
                 = freq.Returns t'.
Proof.
  apply (proj2 (count_all_words_returns name_files (replicate MAXWORD 0) "to be"
                  empty_table) (bytes "to be")).
  - reflexivity.
  - apply length_replicate.
  - apply empty_table_wf.
Defined.

(** X6: the alphabetic byte that arrives when the buffer holds 8191 bytes
    is stored nowhere: the 8191 bytes are passed to [count], the byte is
    dropped, and the loop goes on behind it as at the start of a stream. *)
Theorem full_buffer_drops_byte (word0 run rest : list Z) (c : Z) :
  length word0 = MAXWORD → alphabetic run → Z.of_nat (length run) = 8191 →
  isalpha c = true →
  ∃ ws, freq.tokens word0 rest = Some ws ∧
        freq.tokens word0 (run ++ c :: rest) = Some (run :: ws).
Proof.
  intros Hlen Hal Hrun Hc. assert (HM : MAXWORD = Z.to_nat 8192) by reflexivity.
  exists (split_words None rest). rewrite !tokens_split by done.
  split; [done|]. f_equal.
  rewrite split_run_start; [| | done | lia].
  2:{ intros ->. simpl in Hrun. lia. }
  cbn [split_words]. rewrite Hc. rewrite decide_False by lia. done.
Qed.

Lemma full_buffer_drops_byte_witness :
  ∃ ws, freq.tokens (replicate MAXWORD 0) (bytes "cd") = Some ws ∧
        freq.tokens (replicate MAXWORD 0)
          (replicate (Z.to_nat 8191) 97 ++ 98 :: bytes "cd")
        = Some (replicate (Z.to_nat 8191) 97 :: ws).
Proof.
  apply (full_buffer_drops_byte (replicate MAXWORD 0) (replicate (Z.to_nat 8191) 97)
           (bytes "cd") 98).
  - apply length_replicate.
  - apply run_of_a_alphabetic.
  - rewrite length_replicate. lia.
  - reflexivity.
Defined.

Lemma split_words_sublist s : ∀ cur,
  concat (split_words cur s)
    `sublist_of` default [] cur ++ filter (λ c, isalpha c = true) s.
Proof.
  induction s as [|c s IH]; intros cur.
  - destruct cur as [w|]; simpl; reflexivity.
  - cbn [split_words]. rewrite filter_cons.
    destruct (isalpha c) eqn:Hc.
    + rewrite decide_True by done. destruct cur as [w|].
      * case_decide.
        -- specialize (IH (Some (w ++ [c]))). simpl in IH.
           by rewrite <- app_assoc in IH.
        -- simpl. apply sublist_app; [reflexivity|]. apply sublist_cons. apply (IH None).
      * apply (IH (Some [c])).
    + rewrite decide_False by done. destruct cur as [w|].
      * simpl. apply sublist_app; [reflexivity|]. apply (IH None).
      * apply (IH None).
Qed.

(** X7: the words passed to [count] are made of the alphabetic bytes of
    the stream, in the order of the stream: no byte is invented, moved or
    counted twice. *)
Theorem tokens_keep_stream_order (word0 s : list Z) :
  length word0 = MAXWORD →
  ∃ ws, freq.tokens word0 s = Some ws ∧
        concat ws `sublist_of` filter (λ c, isalpha c = true) s.
Proof.
  intros Hlen. exists (split_words None s). split; [by apply tokens_split|].
  apply (split_words_sublist s None).
Qed.

Lemma tokens_keep_stream_order_witness :
  ∃ ws, freq.tokens (replicate MAXWORD 0) (bytes "Hello, World!") = Some ws ∧
        concat ws `sublist_of` filter (λ c, isalpha c = true) (bytes "Hello, World!").
Proof.
  apply (tokens_keep_stream_order (replicate MAXWORD 0) (bytes "Hello, World!")).
  apply length_replicate.
Defined.

(** ** Runs in which every input opens *)

Lemma sum_list_insert {A} (f : A → nat) (l : list A) i a b :
  l !! i = Some a →
  (sum_list (f <$> <[i := b]> l) + f a = sum_list (f <$> l) + f b)%nat.
Proof.
  revert i. induction l as [|x l IH]; intros [|i] Hi; simplify_eq/=.
  - lia.
  - specialize (IH i Hi). lia.
Qed.

Lemma bump_inv l t t' :
  exec_tx (freq.bump l) t = Some t' →
  ∃ e, heap t !! l = Some e ∧
       t' = Table (<[l := Entry (next e) (word e) (wrap_int (count e + 1))]> (heap t)) (ht t).
Proof.
  unfold exec_tx, freq.bump. destruct (heap t !! l) as [e|]; simpl; [|done].
  intros [= <-]. by exists e.
Qed.

Lemma insert_front_inv w h t t' :
  exec_tx (freq.insert_front w h) t = Some t' →
  ∃ head, ht t !! Z.to_nat h = Some head ∧
          t' = Table (<[alloc (heap t) := Entry head w 1]> (heap t))
                     (<[Z.to_nat h := Some (alloc (heap t))]> (ht t)).
Proof.
  unfold exec_tx, freq.insert_front.
  destruct (ht t !! Z.to_nat h) as [head|]; simpl; [|done].
  intros [= <-]. by exists head.
Qed.

(** Every step uses up one of the steps that are left. *)
Lemma call_step_left readers t c t' c' :
  call_step readers (t, c) (t', c') → (call_steps_left c' < call_steps_left c)%nat.
Proof. inversion 1; subst; simpl; lia. Qed.

Lemma step_steps_left w p p' :
  step w p p' → (steps_left w p' < steps_left w p)%nat.
Proof.
  intros Hstep. destruct Hstep as
    [tr t ths i fname s word0 ws Hi Hf Hlen Htok | tr t ths i fname Hi Hf
    | tr t ths i x ws Hi | tr t ths i c ws c' t' Hi Hc | tr t ths i x ws Hi
    | tr t ths i Hi | tr t ths Hall]; simpl.
  - rewrite tokens_split in Htok by done. injection Htok as <-.
    pose proof (sum_list_insert (steps_left_thread w) ths i _
                  (Counting None (split_words None s)) Hi) as H.
    simpl in H. rewrite Hf in H. lia.
  - lia.
  - pose proof (sum_list_insert (steps_left_thread w) ths i _
                  (Counting (Some (Called x)) ws) Hi) as H.
    cbn [steps_left_thread call_steps_left length] in H. lia.
  - pose proof (sum_list_insert (steps_left_thread w) ths i _
                  (Counting (Some c') ws) Hi) as H.
    apply call_step_left in Hc. cbn [steps_left_thread] in H. lia.
  - pose proof (sum_list_insert (steps_left_thread w) ths i _ (Counting None ws) Hi) as H.
    cbn [steps_left_thread call_steps_left] in H. lia.
  - pose proof (sum_list_insert (steps_left_thread w) ths i _ Joinable Hi) as H.
    simpl in H. lia.
  - lia.
Qed.

(** No run goes on for ever. *)
Lemma step_sn w p : sn (step w) p.
Proof.
  remember (steps_left w p) as n eqn:Hn. revert p Hn.
  induction n as [n IH] using lt_wf_ind. intros p ->.
  constructor. intros p' Hstep. simpl in Hstep.
  eapply IH; [|reflexivity]. by apply step_steps_left.
Qed.

(** The entry that the scan stops at is in the heap. *)
Lemma scan_found fuel h w : ∀ p l,
  freq.scan fuel h w p = Some (Some l) → is_Some (h !! l).
Proof.
  induction fuel as [|fuel IH]; intros [l0|] l; simpl; try done.
  destruct (h !! l0) as [e|] eqn:He; simpl; [|done].
  destruct (strcmp_eq w (word e)); [|by apply IH].
  intros [= <-]. by eexists.
Qed.

(** The entries that a thread has seen stay in the heap when it grows. *)
Lemma thread_ok_mono w t t' th :
  (∀ l, is_Some (heap t !! l) → is_Some (heap t' !! l)) →
  thread_ok w t th → thread_ok w t' th.
Proof.
  intros Hsub. destruct th as [f | [c|] ws |]; simpl; try done.
  intros [Hws Hc]. split; [done|].
  destruct c as [x | x h | x h ep | x h ep | x h | x]; simpl in *; try done.
  - destruct Hc as [Hh Hl]. split; [done|]. intros l El. by apply Hsub, Hl.
  - destruct Hc as [Hh Hl]. split; [done|]. intros l El. by apply Hsub, Hl.
Qed.

(** One step inside [count] keeps the table well formed and the heap from
    shrinking, and leaves the call in a state from which it can go on. *)
Lemma call_step_ok readers t c t' c' :
  wf_table t → call_ok t c → call_step readers (t, c) (t', c') →
  wf_table t' ∧ call_ok t' c' ∧
  ∀ l, is_Some (heap t !! l) → is_Some (heap t' !! l).
Proof.
  intros Hwf Hok Hstep.
  inversion Hstep as [t0 x h Hh | t0 x h head ep Hhead Hscan | t0 x h ep
                     | t0 x h l t1 Htx | t0 x h t1 Hfree Htx]; subst; simpl in *.
  - done.
  - split; [done|]. split; [|done]. split; [done|].
    intros l ->. by eapply scan_found.
  - done.
  - apply bump_inv in Htx as (e & He & ->). split_and!; [|done|].
    + apply wf_bump; [done | done | apply wrap_int_range].
    + intros l' Hl'. simpl. destruct (decide (l = l')) as [<-|Hne].
      * rewrite lookup_insert_eq. by eexists.
      * by rewrite lookup_insert_ne.
  - apply insert_front_inv in Htx as (head & Hhead & ->). split_and!; [|done|].
    + by apply wf_insert_front.
    + intros l' Hl'. simpl. pose proof (alloc_fresh (heap t)) as Hfresh.
      rewrite lookup_insert_ne; [done|]. intros E. rewrite E in Hfresh.
      rewrite Hfresh in Hl'. by destruct Hl'.
Qed.

Lemma run_ok_step w path p p' : run_ok w path p → step w p p' → run_ok w path p'.
Proof.
  intros Hp Hstep. destruct Hstep as
    [tr t ths i fname s word0 ws Hi Hf Hlen Htok | tr t ths i fname Hi Hf
    | tr t ths i x ws Hi | tr t ths i c ws c' t' Hi Hc | tr t ths i x ws Hi
    | tr t ths i Hi | tr t ths Hall]; simpl in *;
    destruct Hp as (-> & Hwf & Hths).
  - split_and!; try done. apply Forall_insert; [done|]. simpl. split; [|done].
    rewrite tokens_split in Htok by done. injection Htok as <-.
    apply split_words_nonempty.
  - pose proof (Forall_lookup_1 _ _ _ _ Hths Hi) as Hok. simpl in Hok.
    rewrite Hf in Hok. by destruct Hok.
  - pose proof (Forall_lookup_1 _ _ _ _ Hths Hi) as Hok. simpl in Hok.
    destruct Hok as [Hws _]. inversion Hws as [|?? Hx Hws']; subst.
    split_and!; try done. by apply Forall_insert.
  - pose proof (Forall_lookup_1 _ _ _ _ Hths Hi) as Hok. simpl in Hok.
    destruct Hok as [Hws Hcok].
    destruct (call_step_ok _ _ _ _ _ Hwf Hcok Hc) as (Hwf' & Hcok' & Hsub).
    split_and!; try done. apply Forall_insert; [|done].
    eapply List.Forall_impl; [|exact Hths]. intros th. by apply thread_ok_mono.
  - pose proof (Forall_lookup_1 _ _ _ _ Hths Hi) as Hok. simpl in Hok.
    destruct Hok as [Hws _]. split_and!; try done. by apply Forall_insert.
  - split_and!; try done. by apply Forall_insert.
  - split_and!; try done. by exists t.
Qed.

Lemma run_ok_rtc w path p p' :
  run_ok w path p → rtc (step w) p p' → run_ok w path p'.
Proof. intros Hp Hsteps. induction Hsteps; eauto using run_ok_step. Qed.

Lemma joinable_or_not (ths : list worker) :
  Forall (λ th, th = Joinable) ths ∨
  ∃ i th, ths !! i = Some th ∧ th ≠ Joinable.
Proof.
  induction ths as [|th ths [IH | (i & th' & Hi & Hne)]].
  - left. constructor.
  - destruct th as [f | c ws |].
    + right. by exists 0%nat, (Spawned f).
    + right. by exists 0%nat, (Counting c ws).
    + left. by constructor.
  - right. by exists (S i), th'.
Qed.

(** Either some thread holds the shared lock of a bucket, or none does. *)
Lemma holding_or_not (ths : list worker) :
  (∃ i th, ths !! i = Some th ∧ worker_holding th = true) ∨
  ∀ h, ¬ Exists (worker_holds h) ths.
Proof.
  induction ths as [|th ths [(i & th' & Hi & Hh) | IH]].
  - right. intros h Hex. by apply Exists_nil in Hex.
  - left. by exists (S i), th'.
  - destruct (worker_holding th) eqn:Hth.
    + left. by exists 0%nat, th.
    + right. intros h Hex. apply Exists_cons in Hex as [Hex | Hex]; [|by eapply IH].
      destruct th as [f | [c|] ws |]; simpl in *; try done.
      by destruct c.
Qed.

(** A thread that holds the shared lock of a bucket can take a step: no
    step of the model waits while it holds a lock. *)
Lemma holder_steps readers t c :
  wf_table t → call_ok t c → holding c = true →
  ∃ c', call_step readers (t, c) (t, c').
Proof.
  intros Hwf Hok Hc.
  destruct c as [x | x h | x h ep | x h ep | x h | x]; simpl in *; try done.
  - pose proof (hash_range x h Hok) as Hr.
    destruct (lookup_lt_is_Some_2 (ht t) (Z.to_nat h)) as [head Hhead].
    { rewrite (wf_buckets _ Hwf). unfold NBUCKETS in *. lia. }
    destruct (wf_chains _ Hwf _ _ Hhead) as [ls Hls].
    destruct (scan_chain (heap t) x head ls (size (heap t)) Hls) as (r & Hr' & _).
    { by eapply chain_length. }
    eexists. by eapply call_scan.
  - eexists. apply call_unlock_shared.
Qed.

(** A thread that holds no lock and has not returned can take a step when
    no thread holds a lock. *)
Lemma free_call_steps (readers : Z → Prop) t c :
  wf_table t → call_ok t c → holding c = false → (∀ h, ¬ readers h) →
  (∃ x, c = Returned x) ∨ ∃ t' c', call_step readers (t, c) (t', c').
Proof.
  intros Hwf Hok Hc Hfree.
  destruct c as [x | x h | x h ep | x h [l|] | x h | x]; simpl in *; try done.
  - destruct (hash_nonempty x Hok) as [h Hh]. right. eexists _, _.
    by apply call_lock_shared.
  - destruct Hok as [Hh Hl]. destruct (Hl l eq_refl) as [e He]. right.
    eexists _, _. apply call_bump. unfold exec_tx, freq.bump. by rewrite He.
  - destruct Hok as [Hh _]. pose proof (hash_range x h Hh) as Hr.
    destruct (lookup_lt_is_Some_2 (ht t) (Z.to_nat h)) as [head Hhead].
    { rewrite (wf_buckets _ Hwf). unfold NBUCKETS in *. lia. }
    right. eexists _, _. apply call_insert; [apply Hfree|].
    unfold exec_tx, freq.insert_front. by rewrite Hhead.
  - left. by eexists.
Qed.

(** A running process of such a run can take a step: the threads never
    wait for each other for ever. *)
Lemma run_ok_progress w path tr t ths :
  run_ok w path (Running tr t ths) → ∃ p', step w (Running tr t ths) p'.
Proof.
  intros (-> & Hwf & Hths).
  destruct (holding_or_not ths) as [(i & th & Hi & Hh) | Hfree].
  { pose proof (Forall_lookup_1 _ _ _ _ Hths Hi) as Hok.
    destruct th as [f | [c|] ws |]; simpl in Hh, Hok; try done.
    destruct Hok as [_ Hcok].
    destruct (holder_steps (λ h, Exists (worker_holds h) ths) t c Hwf Hcok Hh)
      as [c' Hc'].
    eexists. by eapply step_count. }
  destruct (joinable_or_not ths) as [Hall | (i & th & Hi & Hne)].
  - eexists. by apply step_exit.
  - pose proof (Forall_lookup_1 _ _ _ _ Hths Hi) as Hok.
    destruct th as [f | [c|] [|x ws] |]; simpl in Hok; [| | | | |done].
    + destruct Hok as [s Hs]. eexists.
      apply (step_fopen w _ t ths i f s (replicate MAXWORD 0) (split_words None s));
        [done | done | apply length_replicate |].
      apply tokens_split, length_replicate.
    + destruct Hok as [_ Hcok].
      assert (Hc : holding c = false).
      { destruct (holding c) eqn:E; [|done]. exfalso.
        destruct c as [y | y h | y h ep | y h ep | y h | y]; simpl in *; try done.
        - apply (Hfree h). apply Exists_exists. exists (Counting (Some (Holding y h)) []).
          split; [by eapply list_elem_of_lookup_2 | done].
        - apply (Hfree h). apply Exists_exists.
          exists (Counting (Some (Scanned y h ep)) []).
          split; [by eapply list_elem_of_lookup_2 | done]. }
      destruct (free_call_steps (λ h, Exists (worker_holds h) ths) t c Hwf Hcok Hc Hfree)
        as [[y ->] | (t' & c' & Hc')].
      * eexists. by eapply step_counted.
      * eexists. by eapply step_count.
    + destruct Hok as [_ Hcok].
      assert (Hc : holding c = false).
      { destruct (holding c) eqn:E; [|done]. exfalso.
        destruct c as [y | y h | y h ep | y h ep | y h | y]; simpl in *; try done.
        - apply (Hfree h). apply Exists_exists.
          exists (Counting (Some (Holding y h)) (x :: ws)).
          split; [by eapply list_elem_of_lookup_2 | done].
        - apply (Hfree h). apply Exists_exists.
          exists (Counting (Some (Scanned y h ep)) (x :: ws)).
          split; [by eapply list_elem_of_lookup_2 | done]. }
      destruct (free_call_steps (λ h, Exists (worker_holds h) ths) t c Hwf Hcok Hc Hfree)
        as [[y ->] | (t' & c' & Hc')].
      * eexists. by eapply step_counted.
      * eexists. by eapply step_count.
    + eexists. by apply step_return.
    + eexists. by eapply step_call.
Qed.

(** The calls of the second version of [count], each in a thread of its
    own, are steps of the process: the process takes every interleaving of
    the calls, those that link two entries for one word among them. *)
Lemma step_rwlock w tr s s' :
  rwlock_step s s' →
  step w (Running tr s.1 ((λ c, Counting (Some c) []) <$> s.2))
         (Running tr s'.1 ((λ c, Counting (Some c) []) <$> s'.2)).
Proof.
  intros Hstep.
  destruct Hstep as [t cs i x h Hi Hh | t cs i x h head ep Hi Hhead Hscan
                    | t cs i x h ep Hi | t cs i x h l t' Hi Htx
                    | t cs i x h t' Hi Hfree Htx];
    simpl; rewrite list_fmap_insert;
    (eapply step_count; [by rewrite list_lookup_fmap, Hi|]).
  - by apply call_lock_shared.
  - by eapply call_scan.
  - apply call_unlock_shared.
  - by eapply call_bump.
  - eapply call_insert; [|done].
    intros Hex. apply Exists_exists in Hex as (th & Hin & Hth).
    apply list_elem_of_fmap in Hin as (c & -> & Hin).
    rewrite List.Forall_forall in Hfree.
    apply (Hfree c); [by apply list_elem_of_In | done].
Qed.

Lemma steps_rwlock w tr s s' :
  rtc rwlock_step s s' →
  rtc (step w) (Running tr s.1 ((λ c, Counting (Some c) []) <$> s.2))
               (Running tr s'.1 ((λ c, Counting (Some c) []) <$> s'.2)).
Proof.
  induction 1 as [|s1 s2 s3 Hstep _ IH]; [done|].
  eapply rtc_l; [|exact IH]. by apply step_rwlock.
Qed.

(** X8: when the pool opens and every input file opens, no run of the
    process goes on for ever, whatever the order of the steps that the
    threads take inside and between their calls of [count], and every run
    ends through [exit(0)], after the pool has been closed, never through
    [std::terminate] and never with threads that wait for each other; the
    table is then well formed. *)
Theorem all_inputs_open_exit_0 (w : world) (prog path : string)
    (fs : list string) (q : root) :
  fs ≠ [] → pool_at w path LAYOUT = Some q →
  wf_table (Table (root_heap q)
                  (match root_ht q with
                   | None => replicate (Z.to_nat NBUCKETS) None
                   | Some ht => ht
                   end)) →
  (∀ f, f ∈ fs → is_Some (files w f)) →
  sn (step w) (main_start w prog (path :: fs)) ∧
  ∀ p, rtc (step w) (main_start w prog (path :: fs)) p → final w p →
       ∃ t, p = Exited [PoolOpen path LAYOUT; PoolClose] 0 (Some t) ∧ wf_table t.
Proof.
  intros Hfs Hpool Hwf Hopen. split; [apply step_sn|].
  assert (Hstart : run_ok w path (main_start w prog (path :: fs))).
  { unfold main_start. rewrite decide_False by (destruct fs; simpl in *; [done | lia]).
    simpl. rewrite Hpool. simpl. split_and!; try done.
    rewrite drop_0. apply Forall_fmap. apply Forall_forall. intros f Hf. simpl.
    by apply Hopen. }
  intros p Hsteps Hfinal. pose proof (run_ok_rtc _ _ _ _ Hstart Hsteps) as Hp.
  destruct p as [tr t ths | tr code pool | tr pool]; simpl in Hp.
  - destruct (run_ok_progress w path tr t ths Hp) as [p' Hp']. by destruct (Hfinal p').
  - destruct Hp as (-> & -> & t & -> & Hwft). by exists t.
  - done.
Qed.

Lemma all_inputs_open_exit_0_witness :
  sn (step one_input_world) (main_start one_input_world "freq" ["pool"; "b.txt"]) ∧
  ∀ p, rtc (step one_input_world)
           (main_start one_input_world "freq" ["pool"; "b.txt"]) p →
       final one_input_world p →
       ∃ t, p = Exited [PoolOpen "pool" LAYOUT; PoolClose] 0 (Some t) ∧ wf_table t.
Proof.
  apply (all_inputs_open_exit_0 one_input_world "freq" "pool" ["b.txt"] (Root ∅ None)).
  - done.
  - reflexivity.
  - apply empty_table_wf.
  - intros f Hf. apply list_elem_of_singleton in Hf as ->. by eexists.
Defined.

(** * The two versions of [count] among other threads *)

Lemma matched_unfold w t ep :
  matched w t = Some ep →
  ∃ h head, freq.hash w = Some h ∧ ht t !! Z.to_nat h = Some head ∧
            freq.scan (size (heap t)) (heap t) w head = Some ep.
Proof.
  unfold matched. intros Hm.
  destruct (freq.hash w) as [h|]; simpl in Hm; [|done].
  destruct (ht t !! Z.to_nat h) as [head|] eqn:Hhead; simpl in Hm; [|done].
  by exists h, head.
Qed.

Lemma matched_fold w t h head ep :
  freq.hash w = Some h → ht t !! Z.to_nat h = Some head →
  freq.scan (size (heap t)) (heap t) w head = Some ep →
  matched w t = Some ep.
Proof. intros Hh Hhead Hs. unfold matched. rewrite Hh. simpl. by rewrite Hhead. Qed.

(** [count] is the scan followed by the commit. *)
Lemma count_commit w t h ep :
  freq.hash w = Some h → matched w t = Some ep →
  freq.count w t = commit w h ep t.
Proof.
  intros Hh Hm. destruct (matched_unfold _ _ _ Hm) as (h' & head & Hh' & Hhead & Hs).
  simplify_eq. unfold freq.count. rewrite Hh. simpl. rewrite Hhead. simpl.
  by rewrite Hs.
Qed.

Lemma count_inv w t t' :
  freq.count w t = Some t' →
  ∃ h ep, freq.hash w = Some h ∧ matched w t = Some ep ∧ commit w h ep t = Some t'.
Proof.
  intros Hc. unfold freq.count in Hc.
  destruct (freq.hash w) as [h|] eqn:Hh; simpl in Hc; [|done].
  destruct (ht t !! Z.to_nat h) as [head|] eqn:Hhead; simpl in Hc; [|done].
  destruct (freq.scan _ _ _ _) as [ep|] eqn:Hs; simpl in Hc; [|done].
  exists h, ep. split_and!; [done | by eapply matched_fold | done].
Qed.

Lemma call_alone_single w t t' cs : call_alone w t (t', cs) → ∃ c, cs = [c].
Proof.
  destruct cs as [|c [|c' cs]]; simpl; [done | by eexists | by destruct c].
Qed.

Lemma call_alone_mutex_step w t s s' :
  call_alone w t s → mutex_step s s' → call_alone w t s'.
Proof.
  intros Hs Hstep. destruct Hstep as
    [t1 cs i w1 h Hi Hh Hfree | t1 cs i w1 h head ep Hi Hhead Hscan
    | t1 cs i w1 h l t2 Hi Htx | t1 cs i w1 h t2 Hi Htx | t1 cs i w1 h Hi];
    destruct (call_alone_single _ _ _ _ Hs) as [c ->];
    destruct i as [|i]; simplify_eq/=; simpl in Hs; try done.
  - destruct Hs as [Hw Ht]. by subst.
  - destruct Hs as (Hw & Ht & Hh). subst. split_and!; try done. by eapply matched_fold.
  - destruct Hs as (Hw & Ht & Hh & Hm). subst. split; [done|].
    by rewrite (count_commit w t h (Some l)).
  - destruct Hs as (Hw & Ht & Hh & Hm). subst. split; [done|].
    by rewrite (count_commit w t h None).
Qed.

Lemma call_alone_rwlock_step w t s s' :
  call_alone w t s → rwlock_step s s' → call_alone w t s'.
Proof.
  intros Hs Hstep. destruct Hstep as
    [t1 cs i w1 h Hi Hh | t1 cs i w1 h head ep Hi Hhead Hscan
    | t1 cs i w1 h ep Hi | t1 cs i w1 h l t2 Hi Htx | t1 cs i w1 h t2 Hi Hfree Htx];
    destruct (call_alone_single _ _ _ _ Hs) as [c ->];
    destruct i as [|i]; simplify_eq/=; simpl in Hs; try done.
  - destruct Hs as [Hw Ht]. by subst.
  - destruct Hs as (Hw & Ht & Hh). subst. split_and!; try done. by eapply matched_fold.
  - destruct Hs as (Hw & Ht & Hh & Hm). subst. split; [done|].
    by rewrite (count_commit w t h (Some l)).
  - destruct Hs as (Hw & Ht & Hh & Hm). subst. split; [done|].
    by rewrite (count_commit w t h None).
Qed.

Lemma call_alone_mutex_rtc w t s s' :
  call_alone w t s → rtc mutex_step s s' → call_alone w t s'.
Proof. intros Hs Hsteps. induction Hsteps; eauto using call_alone_mutex_step. Qed.

Lemma call_alone_rwlock_rtc w t s s' :
  call_alone w t s → rtc rwlock_step s s' → call_alone w t s'.
Proof. intros Hs Hsteps. induction Hsteps; eauto using call_alone_rwlock_step. Qed.

Lemma mutex_run_alone w t t' :
  freq.count w t = Some t' → rtc mutex_step (t, [Called w]) (t', [Returned w]).
Proof.
  intros (h & ep & Hh & Hm & Hc)%count_inv.
  destruct (matched_unfold _ _ _ Hm) as (h' & head & Hh' & Hhead & Hs). simplify_eq.
  eapply rtc_l.
  { apply (mx_lock t [Called w] 0%nat w h); [done | done |].
    constructor; [simpl; tauto | constructor]. }
  eapply rtc_l.
  { by apply (mx_scan t [Holding w h] 0%nat w h head ep). }
  simpl. eapply rtc_l; [|apply rtc_once].
  - destruct ep as [l|]; simpl in Hc.
    + by apply (mx_bump t [Scanned w h (Some l)] 0%nat w h l t').
    + by apply (mx_insert t [Scanned w h None] 0%nat w h t').
  - by apply (mx_return t' [Committed w h] 0%nat w h).
Qed.

Lemma rwlock_run_alone w t t' :
  freq.count w t = Some t' → rtc rwlock_step (t, [Called w]) (t', [Returned w]).
Proof.
  intros (h & ep & Hh & Hm & Hc)%count_inv.
  destruct (matched_unfold _ _ _ Hm) as (h' & head & Hh' & Hhead & Hs). simplify_eq.
  eapply rtc_l.
  { by apply (rw_lock_shared t [Called w] 0%nat w h). }
  eapply rtc_l.
  { by apply (rw_scan t [Holding w h] 0%nat w h head ep). }
  simpl. eapply rtc_l; [|apply rtc_once].
  - by apply (rw_unlock_shared t [Scanned w h ep] 0%nat w h ep).
  - destruct ep as [l|]; simpl in Hc.
    + by apply (rw_bump t [Released w h (Some l)] 0%nat w h l t').
    + apply (rw_insert t [Released w h None] 0%nat w h t'); [done | | done].
      constructor; [simpl; tauto | constructor].
Qed.

(** X9: in both versions, a call [count(w)] that no other thread runs
    beside goes through its locks and leaves exactly the table that
    [count] leaves: the locking has no effect of its own. *)
Theorem count_alone (w : cstring) (t t' : table) :
  (rtc mutex_step (t, [Called w]) (t', [Returned w]) ↔ freq.count w t = Some t') ∧
  (rtc rwlock_step (t, [Called w]) (t', [Returned w]) ↔ freq.count w t = Some t').
Proof.
  split; split.
  - intros Hsteps.
    assert (H0 : call_alone w t (t, [Called w])) by done.
    by destruct (call_alone_mutex_rtc w t _ _ H0 Hsteps).
  - apply mutex_run_alone.
  - intros Hsteps.
    assert (H0 : call_alone w t (t, [Called w])) by done.
    by destruct (call_alone_rwlock_rtc w t _ _ H0 Hsteps).
  - apply rwlock_run_alone.
Qed.

Lemma count_alone_witness :
  ∃ t', freq.count (bytes "a") saturated_table = Some t' ∧
        rtc mutex_step (saturated_table, [Called (bytes "a")]) (t', [Returned (bytes "a")]) ∧
        rtc rwlock_step (saturated_table, [Called (bytes "a")]) (t', [Returned (bytes "a")]).
Proof.
  destruct (freq.count (bytes "a") saturated_table) as [t'|] eqn:Hc; [|by vm_compute in Hc].
  exists t'. split; [done|]. split.
  - by apply (proj2 (proj1 (count_alone (bytes "a") saturated_table t'))).
  - by apply (proj2 (proj2 (count_alone (bytes "a") saturated_table t'))).
Defined.

(** ** The first version: the mutex held through the call *)

Lemma call_word_insert (cs : list call) (i : nat) c c' :
  cs !! i = Some c → call_word c' = call_word c →
  call_word <$> <[i := c']> cs = call_word <$> cs.
Proof.
  intros Hi Hw. rewrite list_fmap_insert, Hw.
  apply list_insert_id. by rewrite list_lookup_fmap, Hi.
Qed.

(** A new entry at the head of one bucket is not seen by the scan of
    another bucket. *)
Lemma matched_insert_other_bucket x hx w h t head r :
  freq.hash x = Some hx → hx ≠ h → 0 ≤ h →
  matched x t = Some r →
  matched x (Table (<[alloc (heap t) := Entry head w 1]> (heap t))
                   (<[Z.to_nat h := Some (alloc (heap t))]> (ht t))) = Some r.
Proof.
  intros Hx Hne Hh. unfold matched. simpl. rewrite Hx. simpl.
  pose proof (hash_range _ _ Hx) as Hrx.
  rewrite list_lookup_insert_ne by lia.
  destruct (ht t !! Z.to_nat hx) as [hd|]; simpl; [|done]. intros Hs.
  rewrite map_size_insert_None by apply alloc_fresh.
  apply scan_fuel_S. apply scan_insert_fresh; [apply alloc_fresh | done].
Qed.

Lemma mutex_inv_start ws t : mutex_inv ws (t, Called <$> ws).
Proof.
  split_and!; simpl.
  - rewrite <- list_fmap_compose. by rewrite list_fmap_id.
  - intros i j ci cj h Hi _ Hci.
    apply list_lookup_fmap_Some in Hi as (w & -> & _). done.
  - intros i c Hi. by apply list_lookup_fmap_Some in Hi as (w & -> & _).
Qed.

(** The invariant is kept, and a step that writes the table writes what
    [count] writes when run on the table as it is at that step. *)
Lemma mutex_inv_step ws s s' :
  mutex_inv ws s → mutex_step s s' →
  mutex_inv ws s' ∧
  (s'.1 = s.1 ∨ ∃ i w, ws !! i = Some w ∧ freq.count w s.1 = Some s'.1).
Proof.
  intros (Hws & Hex & Hst) Hstep.
  assert (Hword : ∀ i c, s.2 !! i = Some c → ws !! i = Some (call_word c)).
  { intros i c Hi. rewrite <- Hws. by rewrite list_lookup_fmap, Hi. }
  destruct Hstep as
    [t cs i w h Hi Hh Hfree | t cs i w h head ep Hi Hhead Hscan
    | t cs i w h l t' Hi Htx | t cs i w h t' Hi Htx | t cs i w h Hi]; simpl in *.
  - split; [|by left]. split_and!; simpl.
    + by rewrite (call_word_insert _ _ (Called w)).
    + intros a b ca cb h0 Ha Hb Hca Hcb.
      destruct (decide (a = i)) as [->|Hai]; destruct (decide (b = i)) as [->|Hbi]; try done.
      * rewrite list_lookup_insert_eq in Ha by by eapply lookup_lt_Some.
        rewrite list_lookup_insert_ne in Hb by done. simplify_eq/=.
        rewrite Forall_forall in Hfree. destruct (Hfree cb); [|done].
        by eapply list_elem_of_lookup_2.
      * rewrite list_lookup_insert_eq in Hb by by eapply lookup_lt_Some.
        rewrite list_lookup_insert_ne in Ha by done. simplify_eq/=.
        rewrite Forall_forall in Hfree. destruct (Hfree ca); [|done].
        by eapply list_elem_of_lookup_2.
      * rewrite list_lookup_insert_ne in Ha, Hb by done. by eapply Hex.
    + intros a c Ha. destruct (decide (a = i)) as [->|Hai].
      * rewrite list_lookup_insert_eq in Ha by by eapply lookup_lt_Some. by simplify_eq.
      * rewrite list_lookup_insert_ne in Ha by done. by apply (Hst a).
  - pose proof (Hst i _ Hi) as Hhash. simpl in Hhash.
    split; [|by left]. split_and!; simpl.
    + by rewrite (call_word_insert _ _ (Holding w h)).
    + intros a b ca cb h0 Ha Hb Hca Hcb.
      destruct (decide (a = i)) as [->|Hai]; destruct (decide (b = i)) as [->|Hbi]; try done.
      * rewrite list_lookup_insert_eq in Ha by by eapply lookup_lt_Some.
        rewrite list_lookup_insert_ne in Hb by done. simplify_eq/=.
        by apply (Hex i b (Holding w h0) cb h0).
      * rewrite list_lookup_insert_eq in Hb by by eapply lookup_lt_Some.
        rewrite list_lookup_insert_ne in Ha by done. simplify_eq/=.
        by apply (Hex a i ca (Holding w h0) h0).
      * rewrite list_lookup_insert_ne in Ha, Hb by done. by eapply Hex.
    + intros a c Ha. destruct (decide (a = i)) as [->|Hai].
      * rewrite list_lookup_insert_eq in Ha by by eapply lookup_lt_Some. simplify_eq.
        split; [done|]. by eapply matched_fold.
      * rewrite list_lookup_insert_ne in Ha by done. by apply (Hst a).
  - pose proof (Hst i _ Hi) as [Hhash Hm]. simpl in Hhash, Hm.
    destruct (bump_inv _ _ _ Htx) as (e & He & ->).
    split.
    + split_and!; simpl.
      * by rewrite (call_word_insert _ _ (Scanned w h (Some l))).
      * intros a b ca cb h0 Ha Hb Hca Hcb.
        destruct (decide (a = i)) as [->|Hai]; destruct (decide (b = i)) as [->|Hbi]; try done.
        -- rewrite list_lookup_insert_eq in Ha by by eapply lookup_lt_Some.
           rewrite list_lookup_insert_ne in Hb by done. simplify_eq/=.
           by apply (Hex i b (Scanned w h0 (Some l)) cb h0).
        -- rewrite list_lookup_insert_eq in Hb by by eapply lookup_lt_Some.
           rewrite list_lookup_insert_ne in Ha by done. simplify_eq/=.
           by apply (Hex a i ca (Scanned w h0 (Some l)) h0).
        -- rewrite list_lookup_insert_ne in Ha, Hb by done. by eapply Hex.
      * intros a c Ha. destruct (decide (a = i)) as [->|Hai].
        -- rewrite list_lookup_insert_eq in Ha by by eapply lookup_lt_Some. by simplify_eq.
        -- rewrite list_lookup_insert_ne in Ha by done.
           pose proof (Hst a c Ha) as Hc. destruct c; try done.
           destruct Hc as [? ?]. split; [done|]. by rewrite matched_bump.
    + right. exists i, w. split; [by apply (Hword i _ Hi)|].
      rewrite (count_commit w t h (Some l)) by done. simpl.
      unfold exec_tx, freq.bump. by rewrite He.
  - pose proof (Hst i _ Hi) as [Hhash Hm]. simpl in Hhash, Hm.
    destruct (insert_front_inv _ _ _ _ Htx) as (head & Hhead & ->).
    pose proof (hash_range _ _ Hhash) as Hr.
    split.
    + split_and!; simpl.
      * by rewrite (call_word_insert _ _ (Scanned w h None)).
      * intros a b ca cb h0 Ha Hb Hca Hcb.
        destruct (decide (a = i)) as [->|Hai]; destruct (decide (b = i)) as [->|Hbi]; try done.
        -- rewrite list_lookup_insert_eq in Ha by by eapply lookup_lt_Some.
           rewrite list_lookup_insert_ne in Hb by done. simplify_eq/=.
           by apply (Hex i b (Scanned w h0 None) cb h0).
        -- rewrite list_lookup_insert_eq in Hb by by eapply lookup_lt_Some.
           rewrite list_lookup_insert_ne in Ha by done. simplify_eq/=.
           by apply (Hex a i ca (Scanned w h0 None) h0).
        -- rewrite list_lookup_insert_ne in Ha, Hb by done. by eapply Hex.
      * intros a c Ha. destruct (decide (a = i)) as [->|Hai].
        -- rewrite list_lookup_insert_eq in Ha by by eapply lookup_lt_Some. by simplify_eq.
        -- rewrite list_lookup_insert_ne in Ha by done.
           pose proof (Hst a c Ha) as Hc. destruct c as [| | w' h' ep' | | |]; try done.
           destruct Hc as [Hh' Hm']. split; [done|].
           apply (matched_insert_other_bucket w' h'); [done | | lia | done].
           intros ->. apply Hai.
           by apply (Hex a i (Scanned w' h ep') (Scanned w h None) h).
    + right. exists i, w. split; [by apply (Hword i _ Hi)|].
      rewrite (count_commit w t h None) by done. simpl.
      unfold exec_tx, freq.insert_front. by rewrite Hhead.
  - split; [|by left]. split_and!; simpl.
    + by rewrite (call_word_insert _ _ (Committed w h)).
    + intros a b ca cb h0 Ha Hb Hca Hcb.
      destruct (decide (a = i)) as [->|Hai]; destruct (decide (b = i)) as [->|Hbi]; try done.
      * rewrite list_lookup_insert_eq in Ha by by eapply lookup_lt_Some. by simplify_eq/=.
      * rewrite list_lookup_insert_eq in Hb by by eapply lookup_lt_Some. by simplify_eq/=.
      * rewrite list_lookup_insert_ne in Ha, Hb by done. by eapply Hex.
    + intros a c Ha. destruct (decide (a = i)) as [->|Hai].
      * rewrite list_lookup_insert_eq in Ha by by eapply lookup_lt_Some. by simplify_eq.
      * rewrite list_lookup_insert_ne in Ha by done. by apply (Hst a).
Qed.

Lemma mutex_inv_rtc ws s s' :
  mutex_inv ws s → rtc mutex_step s s' → mutex_inv ws s'.
Proof.
  intros Hs Hsteps. induction Hsteps as [|s1 s2 s3 Hstep _ IH]; [done|].
  apply IH. by apply (mutex_inv_step ws s1 s2).
Qed.

(** X10: in the first version, whatever the threads and however their
    steps fall, no two threads hold the mutex of one bucket, and every step
    either leaves the table as it is or writes exactly what [count(w)]
    writes when run, alone, on the table as it is at that step, for a word
    [w] that one of the threads was called with. *)
Theorem mutex_calls_atomic (ws : list cstring) (t : table)
    (s s' : table * list call) :
  rtc mutex_step (t, Called <$> ws) s → mutex_step s s' →
  (∀ i j ci cj h, s.2 !! i = Some ci → s.2 !! j = Some cj →
                  holds h ci → holds h cj → i = j) ∧
  (s'.1 = s.1 ∨ ∃ i w, ws !! i = Some w ∧ freq.count w s.1 = Some s'.1).
Proof.
  intros Hsteps Hstep.
  pose proof (mutex_inv_rtc ws _ _ (mutex_inv_start ws t) Hsteps) as Hinv.
  split; [apply Hinv|]. by apply (mutex_inv_step ws s s').
Qed.

Lemma mutex_calls_atomic_witness :
  ∃ t',
  (∀ i j ci cj h,
     [Scanned (bytes "a") 9875 (Some 0%nat); Called (bytes "a")] !! i = Some ci →
     [Scanned (bytes "a") 9875 (Some 0%nat); Called (bytes "a")] !! j = Some cj →
     holds h ci → holds h cj → i = j) ∧
  (t' = saturated_table ∨
   ∃ i w, [bytes "a"; bytes "a"] !! i = Some w ∧
          freq.count w saturated_table = Some t').
Proof.
  destruct (exec_tx (freq.bump 0%nat) saturated_table) as [t'|] eqn:Htx;
    [|by vm_compute in Htx].
  exists t'.
  apply (mutex_calls_atomic [bytes "a"; bytes "a"] saturated_table
           (saturated_table, [Scanned (bytes "a") 9875 (Some 0%nat); Called (bytes "a")])
           (t', [Committed (bytes "a") 9875; Called (bytes "a")])).
  - eapply rtc_l.
    { apply (mx_lock saturated_table [Called (bytes "a"); Called (bytes "a")]
               0%nat (bytes "a") 9875); [reflexivity | reflexivity |].
      repeat (constructor; [simpl; tauto|]). constructor. }
    apply rtc_once.
    apply (mx_scan saturated_table [Holding (bytes "a") 9875; Called (bytes "a")]
             0%nat (bytes "a") 9875 (Some 0%nat) (Some 0%nat));
      [reflexivity | reflexivity | by vm_compute].
  - by apply (mx_bump saturated_table
                [Scanned (bytes "a") 9875 (Some 0%nat); Called (bytes "a")]
                0%nat (bytes "a") 9875 0%nat t').
Defined.

(** ** Counting under every interleaving, first version *)

Lemma committed_calls_cons x c cs :
  committed_calls x (c :: cs)
  = (if committed c then if decide (call_word c = x) then 1 else 0 else 0)
    + committed_calls x cs.
Proof.
  unfold committed_calls. rewrite filter_cons.
  destruct (committed c) eqn:Hc.
  - rewrite decide_True by done. by rewrite fmap_cons, occurrences_cons.
  - rewrite decide_False by done. lia.
Qed.

Lemma committed_calls_same x (cs : list call) : ∀ (i : nat) c0 c1,
  cs !! i = Some c0 → committed c1 = committed c0 → call_word c1 = call_word c0 →
  committed_calls x (<[i := c1]> cs) = committed_calls x cs.
Proof.
  induction cs as [|c cs IH]; intros [|i] c0 c1 Hi Hc Hw; simplify_eq/=.
  - by rewrite !committed_calls_cons, Hc, Hw.
  - rewrite !committed_calls_cons. by rewrite (IH i c0 c1).
Qed.

Lemma committed_calls_commit x (cs : list call) : ∀ (i : nat) c0 c1,
  cs !! i = Some c0 → committed c0 = false → committed c1 = true →
  committed_calls x (<[i := c1]> cs)
  = committed_calls x cs + (if decide (call_word c1 = x) then 1 else 0).
Proof.
  induction cs as [|c cs IH]; intros [|i] c0 c1 Hi H0 H1; simplify_eq/=.
  - rewrite !committed_calls_cons, H0, H1. lia.
  - rewrite !committed_calls_cons. rewrite (IH i c0 c1) by done. lia.
Qed.

Lemma committed_calls_le x cs :
  committed_calls x cs ≤ occurrences x (call_word <$> cs).
Proof.
  induction cs as [|c cs IH].
  - done.
  - rewrite committed_calls_cons, fmap_cons, occurrences_cons.
    destruct (committed c); repeat case_decide; lia.
Qed.

Lemma committed_calls_all x cs :
  Forall (λ c, ∃ w, c = Returned w) cs →
  committed_calls x cs = occurrences x (call_word <$> cs) ∧
  cs = Returned <$> (call_word <$> cs).
Proof.
  induction 1 as [|c cs [w ->] _ [IH1 IH2]].
  - done.
  - rewrite committed_calls_cons, !fmap_cons, occurrences_cons. simpl.
    split; [by rewrite IH1 | by rewrite <- IH2].
Qed.

Lemma committed_calls_start x ws : committed_calls x (Called <$> ws) = 0.
Proof.
  induction ws as [|w ws IH]; [done|].
  rewrite fmap_cons, committed_calls_cons. simpl. lia.
Qed.

(** The effect on the count of a word of one step that writes what [count]
    writes. *)
Lemma count_total_step w x t t' c k :
  w ≠ [] → wf_table t → freq.count w t = Some t' →
  word_total x t = Some (c + k) →
  c + k + (if decide (w = x) then 1 else 0) ≤ INT_MAX →
  wf_table t' ∧ word_total x t' = Some (c + (k + (if decide (w = x) then 1 else 0))).
Proof.
  intros Hne Hwf Hc Htot Hmax. case_decide as Hwx.
  - subst. destruct (count_same_total x t (c + k) Hne Hwf Htot ltac:(lia))
      as (t1 & Hc1 & Hwf1 & Htot1).
    simplify_eq. split; [done|]. rewrite Htot1. f_equal. lia.
  - destruct (count_wf w t Hne Hwf) as (t1 & Hc1 & Hwf1). simplify_eq.
    split; [done|]. rewrite (count_other_total w x t t') by done.
    rewrite Htot. f_equal. lia.
Qed.

Lemma find_call (P : call → bool) (cs : list call) :
  (∃ i c, cs !! i = Some c ∧ P c = true) ∨ Forall (λ c, P c = false) cs.
Proof.
  induction cs as [|c cs [(i & c' & Hi & Hc) | IH]].
  - right. constructor.
  - left. by exists (S i), c'.
  - destruct (P c) eqn:Hc.
    + left. by exists 0%nat, c.
    + right. by constructor.
Qed.

Lemma call_steps_left_insert (s : table * list call) i c c' t' :
  s.2 !! i = Some c → (call_steps_left c' < call_steps_left c)%nat →
  (calls_left (t', <[i := c']> s.2) < calls_left s)%nat.
Proof.
  intros Hi Hlt. unfold calls_left. simpl.
  pose proof (sum_list_insert call_steps_left s.2 i c c' Hi). lia.
Qed.

Lemma mutex_step_left s s' : mutex_step s s' → (calls_left s' < calls_left s)%nat.
Proof.
  intros Hstep. destruct Hstep;
    match goal with
    | Hi : ?cs !! ?i = Some ?c |- (calls_left (?t', <[?i := ?c']> ?cs) < calls_left (?t, ?cs))%nat =>
        apply (call_steps_left_insert (t, cs) i c c' t' Hi)
    end; simpl; lia.
Qed.

Lemma rwlock_step_left s s' : rwlock_step s s' → (calls_left s' < calls_left s)%nat.
Proof.
  intros Hstep. destruct Hstep;
    match goal with
    | Hi : ?cs !! ?i = Some ?c |- (calls_left (?t', <[?i := ?c']> ?cs) < calls_left (?t, ?cs))%nat =>
        apply (call_steps_left_insert (t, cs) i c c' t' Hi)
    end; simpl; lia.
Qed.

Lemma mutex_step_sn s : sn mutex_step s.
Proof.
  remember (calls_left s) as n eqn:Hn. revert s Hn.
  induction n as [n IH] using lt_wf_ind. intros s ->.
  constructor. intros s' Hstep. simpl in Hstep.
  eapply IH; [|reflexivity]. by apply mutex_step_left.
Qed.

Lemma rwlock_step_sn s : sn rwlock_step s.
Proof.
  remember (calls_left s) as n eqn:Hn. revert s Hn.
  induction n as [n IH] using lt_wf_ind. intros s ->.
  constructor. intros s' Hstep. simpl in Hstep.
  eapply IH; [|reflexivity]. by apply rwlock_step_left.
Qed.

Lemma mutex_counts_step ws x c s s' :
  Forall (λ w, w ≠ []) ws → c + occurrences x ws ≤ INT_MAX →
  mutex_inv ws s → wf_table s.1 →
  word_total x s.1 = Some (c + committed_calls x s.2) →
  mutex_step s s' →
  wf_table s'.1 ∧ word_total x s'.1 = Some (c + committed_calls x s'.2).
Proof.
  intros Hne Hmax Hinv Hwf Htot Hstep.
  destruct (mutex_inv_step ws s s' Hinv Hstep) as [(Hws' & _) _].
  destruct Hinv as (Hws & Hex & Hst).
  assert (Hle : c + committed_calls x s'.2 ≤ INT_MAX).
  { pose proof (committed_calls_le x s'.2) as H. rewrite Hws' in H. lia. }
  assert (Hcommit : ∀ t cs i w h ep t',
            s = (t, cs) → s' = (t', <[i := Committed w h]> cs) →
            cs !! i = Some (Scanned w h ep) → commit w h ep t = Some t' →
            wf_table t' ∧
            word_total x t' = Some (c + committed_calls x (<[i := Committed w h]> cs))).
  { intros t cs i w h ep t' -> -> Hi Hc. simpl in *.
    pose proof (Hst i _ Hi) as [Hhash Hm]. simpl in Hhash, Hm.
    rewrite <- (count_commit w t h ep) in Hc by done.
    assert (Hw : w ≠ []).
    { rewrite List.Forall_forall in Hne. apply Hne. apply list_elem_of_In.
      rewrite <- Hws. apply list_elem_of_fmap. exists (Scanned w h ep).
      split; [done|]. by eapply list_elem_of_lookup_2. }
    rewrite (committed_calls_commit x cs i (Scanned w h ep)) in * by done.
    simpl call_word in *.
    apply (count_total_step w x t t' c (committed_calls x cs)); try done. lia. }
  destruct Hstep as
    [t cs i w h Hi Hh Hfree | t cs i w h head ep Hi Hhead Hscan
    | t cs i w h l t' Hi Htx | t cs i w h t' Hi Htx | t cs i w h Hi]; simpl in *.
  - by rewrite (committed_calls_same x cs i (Called w)).
  - by rewrite (committed_calls_same x cs i (Holding w h)).
  - by apply (Hcommit t cs i w h (Some l) t').
  - by apply (Hcommit t cs i w h None t').
  - by rewrite (committed_calls_same x cs i (Committed w h)).
Qed.

(** A state of the first version in which some call has not returned can
    take a step: the mutexes never leave every thread waiting. *)
Lemma mutex_progress ws s :
  Forall (λ w, w ≠ []) ws → mutex_inv ws s → wf_table s.1 →
  (∃ s', mutex_step s s') ∨ Forall (λ c, ∃ w, c = Returned w) s.2.
Proof.
  intros Hne (Hws & Hex & Hst) Hwf. destruct s as [t cs]. simpl in *.
  destruct (find_call holding cs) as [(i & c & Hi & Hc) | Hfree].
  - left. pose proof (Hst i c Hi) as Hci.
    destruct c as [w | w h | w h ep | w h ep | w h | w]; try done.
    + pose proof (hash_range _ _ Hci) as Hr.
      destruct (lookup_lt_is_Some_2 (ht t) (Z.to_nat h)) as [head Hhead].
      { rewrite (wf_buckets _ Hwf). lia. }
      destruct (wf_chains _ Hwf _ _ Hhead) as [ls Hls].
      destruct (scan_chain (heap t) w head ls (size (heap t)) Hls
                  (chain_length _ _ _ Hls)) as (r & Hscan & _).
      eexists. by eapply mx_scan.
    + destruct Hci as [Hhash Hm]. destruct ep as [l|].
      * destruct (matched_found_word _ _ _ Hm) as (e & He & _).
        eexists. eapply mx_bump; [done|]. unfold exec_tx, freq.bump. by rewrite He.
      * pose proof (hash_range _ _ Hhash) as Hr.
        destruct (lookup_lt_is_Some_2 (ht t) (Z.to_nat h)) as [head Hhead].
        { rewrite (wf_buckets _ Hwf). lia. }
        eexists. eapply mx_insert; [done|].
        unfold exec_tx, freq.insert_front. by rewrite Hhead.
    + eexists. by eapply mx_return.
  - destruct (find_call (λ c, match c with Called _ => true | _ => false end) cs)
      as [(i & c & Hi & Hc) | Hnone].
    + left. destruct c as [w | | | | |]; try done.
      assert (Hw : w ≠ []).
      { rewrite List.Forall_forall in Hne. apply Hne. apply list_elem_of_In.
        rewrite <- Hws. apply list_elem_of_fmap. exists (Called w).
        split; [done|]. by eapply list_elem_of_lookup_2. }
      destruct (hash_nonempty w Hw) as [h Hh].
      eexists. eapply mx_lock; [done | done |].
      eapply List.Forall_impl; [|exact Hfree]. intros c Hc' Hholds.
      destruct c; simpl in *; done.
    + right. apply Forall_forall. intros c Hin.
      apply list_elem_of_lookup in Hin as [i Hi].
      pose proof (Hst i c Hi) as Hci.
      rewrite List.Forall_forall in Hfree, Hnone.
      assert (Hin' : In c cs) by (apply list_elem_of_In; by eapply list_elem_of_lookup_2).
      specialize (Hfree c Hin'). specialize (Hnone c Hin').
      destruct c; simpl in *; try done. by eexists.
Qed.

Lemma mutex_counts_rtc ws x c s s' :
  Forall (λ w, w ≠ []) ws → c + occurrences x ws ≤ INT_MAX →
  mutex_inv ws s → wf_table s.1 →
  word_total x s.1 = Some (c + committed_calls x s.2) →
  rtc mutex_step s s' →
  mutex_inv ws s' ∧ wf_table s'.1 ∧
  word_total x s'.1 = Some (c + committed_calls x s'.2).
Proof.
  intros Hne Hmax Hinv Hwf Htot Hsteps.
  induction Hsteps as [|s1 s2 s3 Hstep _ IH]; [done|].
  destruct (mutex_counts_step ws x c s1 s2 Hne Hmax Hinv Hwf Htot Hstep) as [Hwf2 Htot2].
  apply IH; [|done..]. by apply (mutex_inv_step ws s1 s2).
Qed.

(** X11: in the first version, threads that run [count] for the words
    [ws] on a well-formed table never all wait, and no run goes on for
    ever; in every state the count of a word is its count at the start plus
    the number of calls for it that have committed; so when no step is
    left every call has returned and the count of every word has grown by
    the number of calls for it, however the steps of the threads fell. *)
Theorem mutex_counts_exact (ws : list cstring) (t : table) (x : cstring) (c : Z) :
  wf_table t → Forall (λ w, w ≠ []) ws →
  word_total x t = Some c → c + occurrences x ws ≤ INT_MAX →
  sn mutex_step (t, Called <$> ws) ∧
  ∀ s, rtc mutex_step (t, Called <$> ws) s →
    wf_table s.1 ∧
    word_total x s.1 = Some (c + committed_calls x s.2) ∧
    ((∀ s', ¬ mutex_step s s') →
     s.2 = Returned <$> ws ∧ word_total x s.1 = Some (c + occurrences x ws)).
Proof.
  intros Hwf Hne Htot Hmax. split; [apply mutex_step_sn|].
  intros s Hsteps.
  destruct (mutex_counts_rtc ws x c (t, Called <$> ws) s Hne Hmax
              (mutex_inv_start ws t) Hwf) as (Hinv & Hwf' & Htot'); [|done|].
  { simpl. rewrite committed_calls_start. by rewrite Z.add_0_r. }
  split_and!; try done. intros Hfinal.
  destruct (mutex_progress ws s Hne Hinv Hwf') as [[s' Hs'] | Hall].
  { by destruct (Hfinal s'). }
  destruct (committed_calls_all x s.2 Hall) as [Hcc Hcs].
  destruct Hinv as (Hws & _). rewrite Hws in Hcc, Hcs.
  split; [done|]. by rewrite Htot', Hcc.
Qed.

Lemma mutex_counts_exact_witness :
  sn mutex_step (empty_table, Called <$> [bytes "the"; bytes "cat"; bytes "the"]) ∧
  ∀ s, rtc mutex_step (empty_table, Called <$> [bytes "the"; bytes "cat"; bytes "the"]) s →
    wf_table s.1 ∧
    word_total (bytes "the") s.1 = Some (0 + committed_calls (bytes "the") s.2) ∧
    ((∀ s', ¬ mutex_step s s') →
     s.2 = Returned <$> [bytes "the"; bytes "cat"; bytes "the"] ∧
     word_total (bytes "the") s.1
     = Some (0 + occurrences (bytes "the") [bytes "the"; bytes "cat"; bytes "the"])).
Proof.
  apply (mutex_counts_exact [bytes "the"; bytes "cat"; bytes "the"] empty_table
           (bytes "the") 0).
  - apply empty_table_wf.
  - by repeat constructor.
  - by vm_compute.
  - by vm_compute.
Defined.

(** ** The second version: the lock given back before the transaction *)

(** X12: in the second version two threads that count the same word, not
    yet in the table, can both leave the scan with a null pointer before
    either links its entry: the bucket then holds two entries for the word,
    each with count 1, and the count found for the word is 1, where two
    calls one after the other leave one entry and the count 2. *)
Theorem rwlock_duplicate_entries (w : cstring) (t : table) :
  w ≠ [] → wf_table t → matched w t = Some None →
  ∃ t' b head ls l1 l2,
    freq.hash w = Some b ∧ ht t !! Z.to_nat b = Some head ∧
    chain (heap t) head ls ∧
    rtc rwlock_step (t, [Called w; Called w]) (t', [Returned w; Returned w]) ∧
    l1 ≠ l2 ∧ bucket_chain t' (Z.to_nat b) (l2 :: l1 :: ls) ∧
    heap t' !! l1 = Some (Entry head w 1) ∧
    heap t' !! l2 = Some (Entry (Some l1) w 1) ∧
    word_total w t' = Some 1 ∧
    ∃ t2, count_each freq.count [w; w] t = Some t2 ∧ word_total w t2 = Some 2.
Proof.
  intros Hne Hwf Hm.
  destruct (matched_unfold _ _ _ Hm) as (b & head & Hb & Hhead & Hscan).
  destruct (wf_chains _ Hwf _ _ Hhead) as [ls Hls].
  set (l1 := alloc (heap t)).
  set (h1 := <[l1 := Entry head w 1]> (heap t)).
  set (t1 := Table h1 (<[Z.to_nat b := Some l1]> (ht t))).
  set (l2 := alloc h1).
  set (t2 := Table (<[l2 := Entry (Some l1) w 1]> h1)
                   (<[Z.to_nat b := Some l2]> (ht t1))).
  assert (Hf1 : heap t !! l1 = None) by apply alloc_fresh.
  assert (Hf2 : h1 !! l2 = None) by apply alloc_fresh.
  assert (Hl1 : h1 !! l1 = Some (Entry head w 1)) by apply lookup_insert_eq.
  assert (Hne12 : l1 ≠ l2) by congruence.
  assert (Hhead1 : ht t1 !! Z.to_nat b = Some (Some l1)).
  { simpl. apply list_lookup_insert_eq. by eapply lookup_lt_Some. }
  assert (Hfree : Forall (λ c, ¬ holds b c) [Released w b None; Released w b None]).
  { repeat (constructor; [simpl; tauto|]). constructor. }
  assert (Hfree' : Forall (λ c, ¬ holds b c) [Returned w; Released w b None]).
  { repeat (constructor; [simpl; tauto|]). constructor. }
  exists t2, b, head, ls, l1, l2. split_and!; try done.
  - eapply rtc_l.
    { by apply (rw_lock_shared t [Called w; Called w] 0%nat w b). }
    eapply rtc_l.
    { by apply (rw_lock_shared t [Holding w b; Called w] 1%nat w b). }
    eapply rtc_l.
    { by apply (rw_scan t [Holding w b; Holding w b] 0%nat w b head None). }
    eapply rtc_l.
    { by apply (rw_scan t [Scanned w b None; Holding w b] 1%nat w b head None). }
    eapply rtc_l.
    { by apply (rw_unlock_shared t [Scanned w b None; Scanned w b None] 0%nat w b None). }
    eapply rtc_l.
    { by apply (rw_unlock_shared t [Released w b None; Scanned w b None] 1%nat w b None). }
    eapply rtc_l.
    { apply (rw_insert t [Released w b None; Released w b None] 0%nat w b t1);
        [done | done |]. unfold exec_tx, freq.insert_front. by rewrite Hhead. }
    apply rtc_once.
    apply (rw_insert t1 [Returned w; Released w b None] 1%nat w b t2); [done | done |].
    unfold exec_tx, freq.insert_front. by rewrite Hhead1.
  - exists (Some l2). split.
    + simpl. apply list_lookup_insert_eq. rewrite length_insert. by eapply lookup_lt_Some.
    + simpl. apply (chain_entry _ _ (Entry (Some l1) w 1)); [apply lookup_insert_eq|].
      simpl. apply chain_insert_fresh; [|done].
      apply (chain_entry _ _ (Entry head w 1)); [done|].
      simpl. by apply chain_insert_fresh.
  - simpl. by rewrite lookup_insert_ne.
  - simpl. apply lookup_insert_eq.
  - by apply (word_total_inserted w t1 b (Some l1)).
  - assert (Htot : word_total w t = Some 0) by (unfold word_total; by rewrite Hm).
    destruct (count_each_total [w; w] t w 0 Hwf ltac:(by repeat constructor) Htot)
      as (t' & Hc & _ & Ht').
    { rewrite !occurrences_cons. rewrite !decide_True by done.
      unfold occurrences, INT_MAX. simpl. lia. }
    exists t'. split; [done|]. rewrite Ht'. f_equal.
    rewrite !occurrences_cons. rewrite !decide_True by done. unfold occurrences. simpl. lia.
Qed.

Lemma rwlock_duplicate_entries_witness :
  ∃ t' b head ls l1 l2,
    freq.hash (bytes "the") = Some b ∧ ht empty_table !! Z.to_nat b = Some head ∧
    chain (heap empty_table) head ls ∧
    rtc rwlock_step (empty_table, [Called (bytes "the"); Called (bytes "the")])
                    (t', [Returned (bytes "the"); Returned (bytes "the")]) ∧
    l1 ≠ l2 ∧ bucket_chain t' (Z.to_nat b) (l2 :: l1 :: ls) ∧
    heap t' !! l1 = Some (Entry head (bytes "the") 1) ∧
    heap t' !! l2 = Some (Entry (Some l1) (bytes "the") 1) ∧
    word_total (bytes "the") t' = Some 1 ∧
    ∃ t2, count_each freq.count [bytes "the"; bytes "the"] empty_table = Some t2 ∧
          word_total (bytes "the") t2 = Some 2.
Proof.
  apply (rwlock_duplicate_entries (bytes "the") empty_table).
  - done.
  - apply empty_table_wf.
  - by vm_compute.
Defined.

(** ** Counting words that are in the table, second version *)

Lemma rwlock_inv_start ws t : rwlock_inv ws t (t, Called <$> ws).
Proof.
  split_and!; simpl; try done.
  - rewrite <- list_fmap_compose. by rewrite list_fmap_id.
  - intros i c Hi. by apply list_lookup_fmap_Some in Hi as (w & -> & _).
Qed.

Lemma rwlock_counts_step ws t0 x c s s' :
  (∀ w, w ∈ ws → ∃ l, matched w t0 = Some (Some l)) →
  c + occurrences x ws ≤ INT_MAX →
  rwlock_inv ws t0 s → wf_table s.1 →
  word_total x s.1 = Some (c + committed_calls x s.2) →
  rwlock_step s s' →
  rwlock_inv ws t0 s' ∧ wf_table s'.1 ∧
  word_total x s'.1 = Some (c + committed_calls x s'.2).
Proof.
  intros Hpresent Hmax (Hws & Hsame & Hht & Hdom & Hst) Hwf Htot Hstep.
  assert (Hkeep : ∀ t cs i c0 c1,
            s = (t, cs) → cs !! i = Some c0 → call_word c1 = call_word c0 →
            committed c1 = committed c0 →
            match c1 with
            | Holding w h => freq.hash w = Some h
            | Scanned w h ep | Released w h ep =>
                freq.hash w = Some h ∧ matched w t0 = Some ep
            | Committed _ _ => False
            | Called _ | Returned _ => True
            end →
            rwlock_inv ws t0 (t, <[i := c1]> cs) ∧ wf_table t ∧
            word_total x t = Some (c + committed_calls x (<[i := c1]> cs))).
  { intros t cs i c0 c1 -> Hi Hw Hc Hc1. simpl in *.
    rewrite (committed_calls_same x cs i c0 c1) by done.
    split; [|done]. split_and!; simpl; try done.
    - by rewrite (call_word_insert cs i c0).
    - intros a ca Ha. destruct (decide (a = i)) as [->|Hai].
      + rewrite list_lookup_insert_eq in Ha by by eapply lookup_lt_Some. by simplify_eq.
      + rewrite list_lookup_insert_ne in Ha by done. by apply (Hst a). }
  destruct Hstep as
    [t cs i w h Hi Hh | t cs i w h head ep Hi Hhead Hscan
    | t cs i w h ep Hi | t cs i w h l t' Hi Htx | t cs i w h t' Hi Hfree Htx];
    simpl in *.
  - by apply (Hkeep t cs i (Called w) (Holding w h)).
  - pose proof (Hst i _ Hi) as Hhash. simpl in Hhash.
    apply (Hkeep t cs i (Holding w h) (Scanned w h ep)); try done.
    split; [done|]. rewrite <- Hsame. by eapply matched_fold.
  - pose proof (Hst i _ Hi) as Hc. simpl in Hc.
    by apply (Hkeep t cs i (Scanned w h ep) (Released w h ep)).
  - pose proof (Hst i _ Hi) as [Hhash Hm]. simpl in Hhash, Hm.
    destruct (bump_inv _ _ _ Htx) as (e & He & Ht').
    assert (Hcount : freq.count w t = Some t').
    { rewrite (count_commit w t h (Some l)); [done | done |]. by rewrite Hsame. }
    assert (Hw : w ≠ []) by (intros ->; done).
    assert (Hle : c + committed_calls x (<[i := Returned w]> cs) ≤ INT_MAX).
    { pose proof (committed_calls_le x (<[i := Returned w]> cs)) as H.
      rewrite (call_word_insert cs i (Released w h (Some l))) in H by done.
      rewrite Hws in H. lia. }
    rewrite (committed_calls_commit x cs i (Released w h (Some l))) in * by done.
    simpl call_word in *.
    destruct (count_total_step w x t t' c (committed_calls x cs) Hw Hwf Hcount Htot
                ltac:(lia)) as [Hwf' Htot'].
    split; [|done]. split_and!; simpl; try done.
    + by rewrite (call_word_insert cs i (Released w h (Some l))).
    + intros w'. rewrite Ht'. rewrite matched_bump by done. apply Hsame.
    + by rewrite Ht'.
    + rewrite Ht'. simpl. rewrite <- Hdom. apply dom_insert_lookup_L. by eexists.
    + intros a ca Ha. destruct (decide (a = i)) as [->|Hai].
      * rewrite list_lookup_insert_eq in Ha by by eapply lookup_lt_Some. by simplify_eq.
      * rewrite list_lookup_insert_ne in Ha by done. by apply (Hst a).
  - pose proof (Hst i _ Hi) as [Hhash Hm]. simpl in Hhash, Hm.
    destruct (Hpresent w) as [l Hl]; [|congruence].
    rewrite <- Hws. apply list_elem_of_fmap. exists (Released w h None).
    split; [done|]. by eapply list_elem_of_lookup_2.
Qed.

Lemma rwlock_counts_rtc ws t0 x c s s' :
  (∀ w, w ∈ ws → ∃ l, matched w t0 = Some (Some l)) →
  c + occurrences x ws ≤ INT_MAX →
  rwlock_inv ws t0 s → wf_table s.1 →
  word_total x s.1 = Some (c + committed_calls x s.2) →
  rtc rwlock_step s s' →
  rwlock_inv ws t0 s' ∧ wf_table s'.1 ∧
  word_total x s'.1 = Some (c + committed_calls x s'.2).
Proof.
  intros Hpresent Hmax Hinv Hwf Htot Hsteps.
  induction Hsteps as [|s1 s2 s3 Hstep _ IH]; [done|].
  destruct (rwlock_counts_step ws t0 x c s1 s2 Hpresent Hmax Hinv Hwf Htot Hstep)
    as (Hinv2 & Hwf2 & Htot2).
  by apply IH.
Qed.

Lemma rwlock_progress ws t0 s :
  (∀ w, w ∈ ws → ∃ l, matched w t0 = Some (Some l)) →
  rwlock_inv ws t0 s →
  (∃ s', rwlock_step s s') ∨ Forall (λ c, ∃ w, c = Returned w) s.2.
Proof.
  intros Hpresent (Hws & Hsame & Hht & Hdom & Hst). destruct s as [t cs]. simpl in *.
  destruct (find_call (λ c, match c with Returned _ => false | _ => true end) cs)
    as [(i & c & Hi & Hc) | Hall].
  - left. pose proof (Hst i c Hi) as Hci.
    assert (Hin : call_word c ∈ ws).
    { rewrite <- Hws. apply list_elem_of_fmap. exists c.
      split; [done|]. by eapply list_elem_of_lookup_2. }
    destruct (Hpresent _ Hin) as [l Hl].
    destruct c as [w | w h | w h ep | w h ep | w h | w]; simpl in *; try done.
    + destruct (matched_unfold _ _ _ Hl) as (h & _ & Hh & _).
      eexists. by eapply rw_lock_shared.
    + rewrite <- Hsame in Hl.
      destruct (matched_unfold _ _ _ Hl) as (h' & head & Hh & Hhead & Hscan).
      simplify_eq. eexists. by eapply rw_scan.
    + eexists. by eapply rw_unlock_shared.
    + destruct Hci as [Hh Hm]. assert (ep = Some l) as -> by congruence.
      rewrite <- Hsame in Hl.
      destruct (matched_found_word _ _ _ Hl) as (e & He & _).
      eexists. eapply rw_bump; [done|]. unfold exec_tx, freq.bump. by rewrite He.
  - right. eapply List.Forall_impl; [|exact Hall]. intros c Hc.
    destruct c; try done. by eexists.
Qed.

(** X13: in the second version, threads that count words that all have an
    entry in the table add no entry, never all wait, and lose no count:
    no run goes on for ever, in every state the count of a word is its
    count at the start plus the number of calls for it that have committed,
    and when no step is left every call has returned and every count has
    grown by the number of calls for its word, however the steps fell. *)
Theorem rwlock_counts_present (ws : list cstring) (t : table) (x : cstring) (c : Z) :
  wf_table t → (∀ w, w ∈ ws → ∃ l, matched w t = Some (Some l)) →
  word_total x t = Some c → c + occurrences x ws ≤ INT_MAX →
  sn rwlock_step (t, Called <$> ws) ∧
  ∀ s, rtc rwlock_step (t, Called <$> ws) s →
    wf_table s.1 ∧ ht s.1 = ht t ∧ dom (heap s.1) = dom (heap t) ∧
    word_total x s.1 = Some (c + committed_calls x s.2) ∧
    ((∀ s', ¬ rwlock_step s s') →
     s.2 = Returned <$> ws ∧ word_total x s.1 = Some (c + occurrences x ws)).
Proof.
  intros Hwf Hpresent Htot Hmax. split; [apply rwlock_step_sn|].
  intros s Hsteps.
  destruct (rwlock_counts_rtc ws t x c (t, Called <$> ws) s Hpresent Hmax
              (rwlock_inv_start ws t) Hwf) as (Hinv & Hwf' & Htot'); [|done|].
  { simpl. rewrite committed_calls_start. by rewrite Z.add_0_r. }
  split_and!; try done; [apply Hinv | apply Hinv |]. intros Hfinal.
  destruct (rwlock_progress ws t s Hpresent Hinv) as [[s' Hs'] | Hall].
  { by destruct (Hfinal s'). }
  destruct (committed_calls_all x s.2 Hall) as [Hcc Hcs].
  destruct Hinv as (Hws & _). rewrite Hws in Hcc, Hcs.
  split; [done|]. by rewrite Htot', Hcc.
Qed.

Lemma rwlock_counts_present_witness :
  sn rwlock_step (counted_once_table, Called <$> [bytes "a"; bytes "a"]) ∧
  ∀ s, rtc rwlock_step (counted_once_table, Called <$> [bytes "a"; bytes "a"]) s →
    wf_table s.1 ∧ ht s.1 = ht counted_once_table ∧
    dom (heap s.1) = dom (heap counted_once_table) ∧
    word_total (bytes "a") s.1 = Some (1 + committed_calls (bytes "a") s.2) ∧
    ((∀ s', ¬ rwlock_step s s') →
     s.2 = Returned <$> [bytes "a"; bytes "a"] ∧
     word_total (bytes "a") s.1
     = Some (1 + occurrences (bytes "a") [bytes "a"; bytes "a"])).
Proof.
  apply (rwlock_counts_present [bytes "a"; bytes "a"] counted_once_table (bytes "a") 1).
  - apply counted_once_table_wf.
  - intros w Hw. exists 0%nat.
    repeat (apply elem_of_cons in Hw as [->|Hw]; [by vm_compute|]).
    by apply elem_of_nil in Hw.
  - by vm_compute.
  - by vm_compute.
Defined.
